(** * Circuit cutting: graph construction and wire-cut rewriting

    A shallow embedding of [pennylane/transforms/qcut.py]:
    [replace_wire_cut_node], [replace_wire_cut_nodes], [_add_operator_node]
    and [tape_to_graph], over a list-based model of the part of networkx's
    [MultiDiGraph] these functions use; and of the [SqueezingEmbedding]
    template of [pennylane/templates/embeddings/squeezing.py]. *)

From stdpp Require Import base list gmap strings.

Open Scope Z_scope.

(** ** Operators as heap objects *)

(** A wire label.  Only hashing and equality are used by the code. *)
Definition wire := nat.

(** The Python classes an object put in the graph can belong to. *)
Inductive node_class :=
  | Operation | MeasurementProcess | WireCut | MeasureNode | PrepareNode.

(** An operator object.  Python hashes and compares these objects by
    identity; [ident] is that identity (the allocation number of the
    object), and [wires] is its [.wires] attribute. *)
Record node := Node {
  ident : nat;
  class_of : node_class;
  wires : list wire
}.

#[global] Instance node_class_eq_dec : EqDecision node_class.
Proof. solve_decision. Defined.

#[global] Instance node_eq_dec : EqDecision node.
Proof. solve_decision. Defined.

(** ** Exceptions *)

Inductive exn := KeyError | UnboundLocalError | NetworkXError.

Inductive result (A : Type) :=
  | Ok (a : A)
  | Raise (e : exn).
Arguments Ok {A} a.
Arguments Raise {A} e.

#[global] Instance result_ret : MRet result := λ A a, Ok a.
#[global] Instance result_bind : MBind result := λ A B f r,
  match r with
  | Ok a => f a
  | Raise e => Raise e
  end.

(** A [for] loop whose body may raise. *)
Fixpoint foldM {A B : Type} (f : A → B → result A) (a : A) (l : list B)
  : result A :=
  match l with
  | [] => Ok a
  | x :: l' => a' ← f a x; foldM f a' l'
  end.

(** ** The multigraph

    networkx keeps a dict of nodes (node to attribute dict) and, per node,
    dicts of successors and predecessors, each holding the parallel edges
    between a pair of nodes.  All of them iterate in insertion order.
    The only attribute a node gets here is ["order"] and the only
    attribute an edge gets is ["wire"], so a node entry is the node with
    its optional order, and an edge is source, target and wire.  Parallel
    edges are repeated entries of [g_edges]; both lists are in insertion
    order. *)

Record edge := Edge {
  e_src : node;
  e_dst : node;
  e_wire : wire
}.

#[global] Instance edge_eq_dec : EqDecision edge.
Proof. solve_decision. Defined.

Record MultiDiGraph := Graph {
  g_nodes : list (node * option Z);
  g_edges : list edge
}.

Definition empty_graph : MultiDiGraph := Graph [] [].

Definition has_node (g : MultiDiGraph) (n : node) : Prop :=
  n ∈ (g_nodes g).*1.

#[global] Instance has_node_dec g n : Decision (has_node g n).
Proof. unfold has_node. apply _. Defined.

(** [graph.add_node(n, order=o)]: a new node is appended; for a node that
    is already there the attribute is overwritten in place. *)
Definition add_node (n : node) (o : Z) (g : MultiDiGraph) : MultiDiGraph :=
  if decide (has_node g n)
  then Graph ((λ p, if decide (p.1 = n) then (n, Some o) else p) <$> g_nodes g)
             (g_edges g)
  else Graph (g_nodes g ++ [(n, Some o)]) (g_edges g).

(** [add_edge] first creates an endpoint that is missing, with an empty
    attribute dict. *)
Definition touch (n : node) (ns : list (node * option Z))
  : list (node * option Z) :=
  if decide (n ∈ ns.*1) then ns else ns ++ [(n, None)].

(** [graph.add_edge(u, v, wire=w)] *)
Definition add_edge (u v : node) (w : wire) (g : MultiDiGraph) : MultiDiGraph :=
  Graph (touch v (touch u (g_nodes g))) (g_edges g ++ [Edge u v w]).

(** [graph.remove_node(n)]: the node goes with all its incident edges. *)
Definition remove_node (n : node) (g : MultiDiGraph) : result MultiDiGraph :=
  if decide (has_node g n)
  then Ok (Graph (filter (λ p, p.1 ≠ n) (g_nodes g))
                 (filter (λ e, e_src e ≠ n ∧ e_dst e ≠ n) (g_edges g)))
  else Raise NetworkXError.

(** The attribute dict of a node, [None] when the node is absent. *)
Fixpoint node_attr (ns : list (node * option Z)) (n : node)
  : option (option Z) :=
  match ns with
  | [] => None
  | (m, a) :: ns' => if decide (m = n) then Some a else node_attr ns' n
  end.

(** [graph.nodes[n]["order"]] *)
Definition node_order (g : MultiDiGraph) (n : node) : result Z :=
  match node_attr (g_nodes g) n with
  | Some (Some o) => Ok o
  | _ => Raise KeyError
  end.

(** The keys of a dict filled by the entries of [l], in the order in
    which they were first inserted. *)
Fixpoint first_seen (l : list node) : list node :=
  match l with
  | [] => []
  | x :: l' => x :: filter (λ y, y ≠ x) (first_seen l')
  end.

(** Group edges by one endpoint: what [.items()] yields on a predecessor
    or successor dict, each neighbour with the wires of its parallel
    edges ([data.values()]). *)
Definition grouped (key : edge → node) (es : list edge)
  : list (node * list wire) :=
  (λ u, (u, e_wire <$> filter (λ e, key e = u) es)) <$> first_seen (key <$> es).

(** [graph.pred[n]] *)
Definition pred_view (g : MultiDiGraph) (n : node)
  : result (list (node * list wire)) :=
  if decide (has_node g n)
  then Ok (grouped e_src (filter (λ e, e_dst e = n) (g_edges g)))
  else Raise KeyError.

(** [graph.succ[n]] *)
Definition succ_view (g : MultiDiGraph) (n : node)
  : result (list (node * list wire)) :=
  if decide (has_node g n)
  then Ok (grouped e_dst (filter (λ e, e_src e = n) (g_edges g)))
  else Raise KeyError.

(** ** The store

    The rewriting functions mutate the graph they are given and allocate
    new operator objects.  A store is the graph together with the
    identity the next allocated object receives. *)

Record store := Store {
  next_id : nat;
  the_graph : MultiDiGraph
}.

(** ** [replace_wire_cut_node] *)

(** The two dict-filling loops: later entries overwrite earlier ones. *)
Definition on_wire (items : list (node * list wire)) : gmap wire node :=
  foldl (λ acc item, foldl (λ acc w, <[w := item.1]> acc) acc item.2) ∅ items.

(** The body of [for wire in node.wires]. *)
Definition place_pair (predecessor_on_wire successor_on_wire : gmap wire node)
    (order : Z) (s : store) (w : wire) : store :=
  let predecessor := predecessor_on_wire !! w in
  let successor := successor_on_wire !! w in
  let meas := Node (next_id s) MeasureNode [w] in
  let prep := Node (S (next_id s)) PrepareNode [w] in
  let g := add_node meas order (the_graph s) in
  let g := add_node prep order g in
  let g := add_edge meas prep w g in
  let g := match predecessor with
           | Some p => add_edge p meas w g
           | None => g
           end in
  let g := match successor with
           | Some q => add_edge prep q w g
           | None => g
           end in
  Store (S (S (next_id s))) g.

(** The function returns nothing and works by mutation, so the result is
    the outcome together with the store as the call leaves it. *)
Definition replace_wire_cut_node (nd : node) (s : store) : result unit * store :=
  let g := the_graph s in
  match pred_view g nd with
  | Raise e => (Raise e, s)
  | Ok predecessors =>
  match succ_view g nd with
  | Raise e => (Raise e, s)
  | Ok successors =>
    let predecessor_on_wire := on_wire predecessors in
    let successor_on_wire := on_wire successors in
    match node_order g nd with
    | Raise e => (Raise e, s)
    | Ok order =>
    match remove_node nd g with
    | Raise e => (Raise e, s)
    | Ok g1 =>
      (Ok tt,
       foldl (place_pair predecessor_on_wire successor_on_wire order)
             (Store (next_id s) g1) (wires nd))
    end end
  end end.

(** ** [replace_wire_cut_nodes] *)

Definition is_wire_cut (n : node) : bool :=
  bool_decide (class_of n = WireCut).

(** The loop over the snapshot [list(graph.nodes)]. *)
Fixpoint replace_each (ops : list node) (s : store) : result unit * store :=
  match ops with
  | [] => (Ok tt, s)
  | op :: ops' =>
    if is_wire_cut op then
      match replace_wire_cut_node op s with
      | (Ok _, s') => replace_each ops' s'
      | (Raise e, s') => (Raise e, s')
      end
    else replace_each ops' s
  end.

Definition replace_wire_cut_nodes (s : store) : result unit * store :=
  replace_each (g_nodes (the_graph s)).*1 s.

(** ** Tapes *)

(** A measurement of the tape: the [MeasurementProcess] object itself and,
    when its observable is a [Tensor], the wires of each term of
    [obs.obs]. *)
Record measurement := Measure {
  m_node : node;
  m_terms : option (list (list wire))
}.

Record QuantumTape := Tape {
  tape_wires : list wire;
  operations : list node;
  measurements : list measurement
}.

(** ** [_add_operator_node] *)

Definition link_wire (op : node)
    (st : MultiDiGraph * gmap wire (option node)) (w : wire)
  : result (MultiDiGraph * gmap wire (option node)) :=
  let '(g, wire_latest_node) := st in
  match wire_latest_node !! w with
  | None => Raise KeyError
  | Some latest =>
    let g := match latest with
             | Some parent_op => add_edge parent_op op w g
             | None => g
             end in
    Ok (g, <[w := Some op]> wire_latest_node)
  end.

Definition _add_operator_node (g : MultiDiGraph) (op : node) (order : Z)
    (wire_latest_node : gmap wire (option node))
  : result (MultiDiGraph * gmap wire (option node)) :=
  foldM (link_wire op) (add_node op order g, wire_latest_node) (wires op).

(** ** [tape_to_graph] *)

(** The state of the builder's loops: graph, latest node per wire, the
    loop variable [order] (unbound before the first iteration) and the
    next object identity. *)
Record builder := Builder {
  b_graph : MultiDiGraph;
  b_latest : gmap wire (option node);
  b_order : option Z;
  b_next : nat
}.

(** Body of [for order, op in enumerate(tape.operations)]. *)
Definition operation_step (b : builder) (item : nat * node) : result builder :=
  let order := Z.of_nat item.1 in
  '(g, wl) ← _add_operator_node (b_graph b) item.2 order (b_latest b);
  Ok (Builder g wl (Some order) (b_next b)).

(** Body of [for o in obs.obs]. *)
Definition term_step (order : Z) (b : builder) (o : list wire) : result builder :=
  let m_ := Node (b_next b) MeasurementProcess o in
  '(g, wl) ← _add_operator_node (b_graph b) m_ order (b_latest b);
  Ok (Builder g wl (b_order b) (S (b_next b))).

(** Body of [for m in tape.measurements]. *)
Definition measurement_step (b : builder) (m : measurement) : result builder :=
  match b_order b with
  | None => Raise UnboundLocalError
  | Some order =>
    match m_terms m with
    | Some obs => foldM (term_step order) b obs
    | None =>
      '(g, wl) ← _add_operator_node (b_graph b) (m_node m) order (b_latest b);
      Ok (Builder g wl (Some (order + 1)) (b_next b))
    end
  end.

Definition enumerate {A : Type} (l : list A) : list (nat * A) :=
  imap (λ i x, (i, x)) l.

Definition tape_to_graph (tape : QuantumTape) (next : nat) : result store :=
  let graph := empty_graph in
  let wire_latest_node : gmap wire (option node) :=
    list_to_map ((λ w, (w, None)) <$> tape_wires tape) in
  b ← foldM operation_step (Builder graph wire_latest_node None next)
            (enumerate (operations tape));
  (* order += 1 *)
  order ← match b_order b with
          | Some order => Ok (order + 1)
          | None => Raise UnboundLocalError
          end;
  b ← foldM measurement_step
            (Builder (b_graph b) (b_latest b) (Some order) (b_next b))
            (measurements tape);
  Ok (Store (b_next b) (b_graph b)).

(** * Predicates and derived notions *)

(** What networkx guarantees of any graph: node keys are unique and an
    edge joins nodes of the graph. *)
Record graph_wf (g : MultiDiGraph) : Prop := {
  wf_nodup : NoDup (g_nodes g).*1;
  wf_endpoints : ∀ e, e ∈ g_edges g → has_node g (e_src e) ∧ has_node g (e_dst e)
}.

(** The data model: every node carries an [order]. *)
Definition all_ordered (g : MultiDiGraph) : Prop :=
  ∀ n a, (n, a) ∈ g_nodes g → is_Some a.

(** Objects allocated from now on differ from every node of the graph. *)
Definition store_fresh (s : store) : Prop :=
  ∀ n, has_node (the_graph s) n → (ident n < next_id s)%nat.

(** The chain invariant: on each wire a node has at most one predecessor
    and at most one successor, and, a chain being a simple path, no node
    follows itself. *)
Record chain_invariant (g : MultiDiGraph) : Prop := {
  chain_pred : ∀ w v u1 u2,
    Edge u1 v w ∈ g_edges g → Edge u2 v w ∈ g_edges g → u1 = u2;
  chain_succ : ∀ w u v1 v2,
    Edge u v1 w ∈ g_edges g → Edge u v2 w ∈ g_edges g → v1 = v2;
  chain_simple : ∀ w u, Edge u u w ∉ g_edges g
}.

(** Orders do not decrease along an edge. *)
Definition order_monotone (g : MultiDiGraph) : Prop :=
  ∀ e, e ∈ g_edges g →
    ∃ a b, node_order g (e_src e) = Ok a ∧ node_order g (e_dst e) = Ok b ∧ a ≤ b.

(** The nodes of [g] that act on wire [w], in the order in which they
    were added to the graph. *)
Definition wire_nodes (g : MultiDiGraph) (w : wire) : list node :=
  filter (λ n, w ∈ wires n) (g_nodes g).*1.

(** [v] comes directly after [u] in the list [l]. *)
Definition follows {A : Type} (l : list A) (u v : A) : Prop :=
  ∃ i, l !! i = Some u ∧ l !! S i = Some v.

(** The edges labelled [w] form one chain: they run from each node that
    acts on [w] to the next one, and nowhere else.  The nodes of the chain
    are pairwise distinct, no edge is there twice, and [order] does not
    decrease along the chain. *)
Record single_chain (g : MultiDiGraph) (w : wire) : Prop := {
  sc_nodup : NoDup (wire_nodes g w);
  sc_edges : ∀ u v, Edge u v w ∈ g_edges g ↔ follows (wire_nodes g w) u v;
  sc_once : NoDup (filter (λ e, e_wire e = w) (g_edges g));
  sc_order : ∀ i j u v, (i ≤ j)%nat →
    wire_nodes g w !! i = Some u → wire_nodes g w !! j = Some v →
    ∃ a b, node_order g u = Ok a ∧ node_order g v = Ok b ∧ a ≤ b
}.

(** The dicts [predecessor_on_wire] and [successor_on_wire] that
    [replace_wire_cut_node] builds for a node. *)
Definition predecessor_on_wire (g : MultiDiGraph) (n : node) : gmap wire node :=
  on_wire (grouped e_src (filter (λ e, e_dst e = n) (g_edges g))).

Definition successor_on_wire (g : MultiDiGraph) (n : node) : gmap wire node :=
  on_wire (grouped e_dst (filter (λ e, e_src e = n) (g_edges g))).

(** The [MeasureNode] and [PrepareNode] objects one pass of the loop of
    [replace_wire_cut_node] creates on wire [w] when the next free
    identity is [k], with the node entries and the edges it adds. *)
Definition meas_node (k : nat) (w : wire) : node := Node k MeasureNode [w].

Definition prep_node (k : nat) (w : wire) : node := Node (S k) PrepareNode [w].

Definition pair_nodes (o : Z) (k : nat) (w : wire) : list (node * option Z) :=
  [(meas_node k w, Some o); (prep_node k w, Some o)].

Definition pair_edges (pow sow : gmap wire node) (k : nat) (w : wire) : list edge :=
  Edge (meas_node k w) (prep_node k w) w ::
  match pow !! w with Some p => [Edge p (meas_node k w) w] | None => [] end ++
  match sow !! w with Some q => [Edge (prep_node k w) q w] | None => [] end.

(** The same for the whole loop over the wires [ws]. *)
Fixpoint pairs_nodes (o : Z) (k : nat) (ws : list wire) : list (node * option Z) :=
  match ws with
  | [] => []
  | w :: ws' => pair_nodes o k w ++ pairs_nodes o (S (S k)) ws'
  end.

Fixpoint pairs_edges (pow sow : gmap wire node) (k : nat) (ws : list wire)
  : list edge :=
  match ws with
  | [] => []
  | w :: ws' => pair_edges pow sow k w ++ pairs_edges pow sow (S (S k)) ws'
  end.

(** The graph left by [graph.remove_node(nd)]. *)
Definition without (nd : node) (g : MultiDiGraph) : MultiDiGraph :=
  Graph (filter (λ p, p.1 ≠ nd) (g_nodes g))
        (filter (λ e, e_src e ≠ nd ∧ e_dst e ≠ nd) (g_edges g)).

(** The kinds of edge a rewrite of graph [g] can add on wire [w], by
    whether each endpoint was a node of [g]: between two new nodes, from
    an old node to a new one, from a new node to an old one, and between
    two old nodes. *)
Definition new_to_new (g : MultiDiGraph) (w : wire) (e : edge) : Prop :=
  e_wire e = w ∧ ¬ has_node g (e_src e) ∧ ¬ has_node g (e_dst e).

Definition old_to_new (g : MultiDiGraph) (w : wire) (e : edge) : Prop :=
  e_wire e = w ∧ has_node g (e_src e) ∧ ¬ has_node g (e_dst e).

Definition new_to_old (g : MultiDiGraph) (w : wire) (e : edge) : Prop :=
  e_wire e = w ∧ ¬ has_node g (e_src e) ∧ has_node g (e_dst e).

Definition old_to_old (g : MultiDiGraph) (w : wire) (e : edge) : Prop :=
  e_wire e = w ∧ has_node g (e_src e) ∧ has_node g (e_dst e).

#[global] Instance new_to_new_dec g w e : Decision (new_to_new g w e).
Proof. unfold new_to_new. apply _. Defined.

#[global] Instance old_to_new_dec g w e : Decision (old_to_new g w e).
Proof. unfold old_to_new. apply _. Defined.

#[global] Instance new_to_old_dec g w e : Decision (new_to_old g w e).
Proof. unfold new_to_old. apply _. Defined.

#[global] Instance old_to_old_dec g w e : Decision (old_to_old g w e).
Proof. unfold old_to_old. apply _. Defined.

(** What holds of the store all along a build-then-rewrite sequence. *)
Record cut_inv (s : store) : Prop := {
  ci_wf : graph_wf (the_graph s);
  ci_ordered : all_ordered (the_graph s);
  ci_fresh : store_fresh s;
  ci_simple : ∀ w u, Edge u u w ∉ g_edges (the_graph s);
  ci_monotone : order_monotone (the_graph s)
}.

(** ** Well-formed tapes *)

(** The measurement objects that [tape_to_graph] puts in the graph as
    they are: those whose observable is not a [Tensor]. *)
Definition plain_nodes (ms : list measurement) : list node :=
  omap (λ m, match m_terms m with None => Some (m_node m) | Some _ => None end) ms.

(** The objects of the tape that become nodes. *)
Definition tape_nodes (tape : QuantumTape) : list node :=
  operations tape ++ plain_nodes (measurements tape).

(** A tape as the queuing context and the [Wires] class produce it, in a
    heap whose next free identity is [next]: its operators are distinct
    objects allocated before [next], the wires of an operator or of a
    tensor term are pairwise distinct, and all of them are wires of the
    tape. *)
Record wf_tape (tape : QuantumTape) (next : nat) : Prop := {
  wt_distinct : NoDup (ident <$> tape_nodes tape);
  wt_allocated : ∀ n, n ∈ tape_nodes tape → (ident n < next)%nat;
  wt_wires : ∀ n, n ∈ tape_nodes tape →
    NoDup (wires n) ∧ ∀ w, w ∈ wires n → w ∈ tape_wires tape;
  wt_terms : ∀ m obs o, m ∈ measurements tape → m_terms m = Some obs → o ∈ obs →
    NoDup o ∧ ∀ w, w ∈ o → w ∈ tape_wires tape
}.

(** ** The sequence of calls to [_add_operator_node] *)

(** The [MeasurementProcess] objects created for the terms of a tensor
    observable when the next free identity is [next]. *)
Definition term_nodes (next : nat) (obs : list (list wire)) : list node :=
  imap (λ j o, Node (next + j) MeasurementProcess o) obs.

(** The nodes that stand for a measurement in the graph. *)
Definition measurement_nodes (m : measurement) (next : nat) : list node :=
  match m_terms m with
  | Some obs => term_nodes next obs
  | None => [m_node m]
  end.

(** Number of objects the measurement loop allocates. *)
Fixpoint allocated (ms : list measurement) : nat :=
  match ms with
  | [] => 0
  | m :: ms' =>
    (match m_terms m with Some obs => length obs | None => 0 end + allocated ms')%nat
  end.

(** Value of [order] after the measurements [ms], entered with [order]. *)
Fixpoint order_after (ms : list measurement) (order : Z) : Z :=
  match ms with
  | [] => order
  | m :: ms' =>
    order_after ms' (match m_terms m with Some _ => order | None => order + 1 end)
  end.

Fixpoint measurement_schedule (ms : list measurement) (order : Z) (next : nat)
  : list (node * Z) :=
  match ms with
  | [] => []
  | m :: ms' =>
    match m_terms m with
    | Some obs =>
      ((λ n, (n, order)) <$> term_nodes next obs) ++
      measurement_schedule ms' order (next + length obs)
    | None => (m_node m, order) :: measurement_schedule ms' (order + 1) next
    end
  end.

Definition operation_schedule (k : nat) (ops : list node) : list (node * Z) :=
  imap (λ i op, (op, Z.of_nat (k + i))) ops.

(** Every node handed to [_add_operator_node] with its order, in call
    order. *)
Definition schedule (tape : QuantumTape) (next : nat) : list (node * Z) :=
  operation_schedule 0 (operations tape) ++
  measurement_schedule (measurements tape)
    (Z.of_nat (length (operations tape))) next.

(** The initial [wire_latest_node]. *)
Definition initial_latest (tape : QuantumTape) : gmap wire (option node) :=
  list_to_map ((λ w, (w, None)) <$> tape_wires tape).

(** Running the calls one after the other. *)
Definition build (st : MultiDiGraph * gmap wire (option node))
    (calls : list (node * Z)) : result (MultiDiGraph * gmap wire (option node)) :=
  foldM (λ st call, _add_operator_node st.1 call.1 call.2 st.2) st calls.

(** The edges one call adds: one per wire that already has a latest node. *)
Definition in_edges (wl : gmap wire (option node)) (op : node) (ws : list wire)
  : list edge :=
  omap (λ w, match wl !! w with
             | Some (Some p) => Some (Edge p op w)
             | _ => None
             end) ws.

(** The dict after the wires [ws] of [op] have been visited. *)
Definition latest_after (wl : gmap wire (option node)) (op : node) (ws : list wire)
  : gmap wire (option node) :=
  foldl (λ m w, <[w := Some op]> m) wl ws.

Fixpoint ascending (c : Z) (l : list Z) : Prop :=
  match l with
  | [] => True
  | x :: l' => c ≤ x ∧ ascending x l'
  end.

(** The loop invariant of the builder: [c] bounds the orders given so
    far, and a latest node has no successor yet on its wire. *)
Record build_inv (wl0 : gmap wire (option node)) (c : Z)
    (st : MultiDiGraph * gmap wire (option node)) : Prop := {
  bi_wf : graph_wf st.1;
  bi_chain : chain_invariant st.1;
  bi_bound : ∀ n a, (n, a) ∈ g_nodes st.1 → ∃ o, a = Some o ∧ o ≤ c;
  bi_monotone : order_monotone st.1;
  bi_latest : ∀ w n, st.2 !! w = Some (Some n) →
    has_node st.1 n ∧ ∀ v, Edge n v w ∉ g_edges st.1;
  bi_dom : ∀ w, is_Some (wl0 !! w) → is_Some (st.2 !! w)
}.

(** The stores of a build-then-rewrite sequence: a graph built from a
    well-formed tape, then any number of calls of the two rewriting
    functions, whatever their outcome. *)
Inductive produced : store → Prop :=
  | produced_build tape next s :
      wf_tape tape next → tape_to_graph tape next = Ok s → produced s
  | produced_one nd s r s' :
      produced s → replace_wire_cut_node nd s = (r, s') → produced s'
  | produced_all s r s' :
      produced s → replace_wire_cut_nodes s = (r, s') → produced s'.

(** ** Example data *)

(** A cut on wires 0 and 1 preceded by [ex_A] on wire 0 and followed by
    [ex_C] on wire 1. *)
Definition ex_A : node := Node 0 Operation [0%nat].
Definition ex_M : node := Node 1 WireCut [0%nat; 1%nat].
Definition ex_C : node := Node 2 Operation [1%nat].

Definition ex_store : store :=
  Store 3 (Graph [(ex_A, Some 0); (ex_M, Some 1); (ex_C, Some 2)]
                 [Edge ex_A ex_M 0%nat; Edge ex_M ex_C 1%nat]).

(** The same three operations on a tape, measured by a tensor observable
    on wires 0 and 1 followed by a plain observable on wire 1. *)
Definition ex_tensor : measurement :=
  Measure (Node 3 MeasurementProcess [0%nat; 1%nat]) (Some [[0%nat]; [1%nat]]).
Definition ex_plain : measurement :=
  Measure (Node 4 MeasurementProcess [1%nat]) None.

Definition ex_tape : QuantumTape :=
  Tape [0%nat; 1%nat] [ex_A; ex_M; ex_C] [ex_tensor; ex_plain].

(** A tape with a measurement and no operation. *)
Definition ex_tape_no_ops : QuantumTape := Tape [1%nat] [] [ex_plain].

(** The graph built from [ex_tape], and that graph with its cut replaced. *)
Definition ex_built : store :=
  Eval vm_compute in
    match tape_to_graph ex_tape 5 with
    | Ok s => s
    | Raise _ => Store 0 empty_graph
    end.

Definition ex_cut : store :=
  Eval vm_compute in (replace_wire_cut_nodes ex_built).2.

(** A cut whose only edge is a loop on itself. *)
Definition ex_loop : store :=
  Store 2 (Graph [(ex_M, Some 0)] [Edge ex_M ex_M 0%nat]).

(** ** Notions for further properties of the builder *)

(** A wire that some node handed to [_add_operator_node] acts on: a wire
    of an operation, of a measurement without tensor observable, or of a
    term of a tensor observable. *)
Definition wire_used (tape : QuantumTape) (w : wire) : Prop :=
  (∃ n, n ∈ tape_nodes tape ∧ w ∈ wires n) ∨
  (∃ m obs o, m ∈ measurements tape ∧ m_terms m = Some obs ∧ o ∈ obs ∧ w ∈ o).

(** In the sequence [ns], [v] is the next node after [u] that acts on
    wire [w]. *)
Definition next_on (w : wire) (ns : list node) (u v : node) : Prop :=
  ∃ i j, (i < j)%nat ∧ ns !! i = Some u ∧ ns !! j = Some v ∧
         w ∈ wires u ∧ w ∈ wires v ∧
         ∀ k x, (i < k < j)%nat → ns !! k = Some x → w ∉ wires x.

(** [u] is the last node of the sequence [ns] that acts on wire [w]. *)
Definition last_on (w : wire) (ns : list node) (u : node) : Prop :=
  ∃ i, ns !! i = Some u ∧ w ∈ wires u ∧
       ∀ k x, (i < k)%nat → ns !! k = Some x → w ∉ wires x.

(** The nodes that stand for the measurements [ms], in order, when the
    next free identity is [next]. *)
Fixpoint measurement_node_list (ms : list measurement) (next : nat) : list node :=
  match ms with
  | [] => []
  | m :: ms' =>
    measurement_nodes m next ++
    measurement_node_list ms'
      (next + match m_terms m with Some obs => length obs | None => 0 end)
  end.

(** * The [SqueezingEmbedding] template *)

Module SqueezingEmbedding.

(** A tensor-like argument: what [qml.math.shape] returns for it and its
    entries in row-major order. *)
Record tensor (T : Type) := Tensor {
  shape : list nat;
  entries : list T
}.
Arguments Tensor {T} shape entries.
Arguments shape {T} t.
Arguments entries {T} t.

Inductive error := IndexError | ValueError.

(** The operation as [Operation.__init__] leaves it: its single parameter
    [pars], an array with one row of two entries per feature, and its
    wires. *)
Record operation (T : Type) := Op {
  parameters : list (T * T);
  op_wires : list wire
}.
Arguments Op {T} parameters op_wires.
Arguments parameters {T} o.
Arguments op_wires {T} o.

(** A queued [qml.Squeezing(r, phi, wires=...)]. *)
Inductive gate (T : Type) := Squeezing (r phi : T) (ws : list wire).
Arguments Squeezing {T} r phi ws.

(** The part of [qml.math] that [__init__] goes through.  [convert_like]
    turns the list of constants into an array of the kind of [features],
    and [stack] puts its two arguments side by side in one array of their
    common type: every entry keeps its place, but not its representation
    (an integer feature stacked with a float constant is stored as a
    float).  For entries of [features] of type [F], a constant [c] of type
    [C] and a stacked array with entries of type [T], [of_feature x] is
    what [stack] stores for the entry [x] of [features], and
    [of_constant c] what it stores for [c], after [convert_like]. *)
Class Stacking (F C T : Type) := {
  of_feature : F → T;
  of_constant : C → T
}.

(** [qml.math.stack([a, b], axis=1)] for two one-dimensional arrays whose
    entries come already converted: row [i] is [(a[i], b[i])]. *)
Definition stack {T : Type} (a b : list T) : list (T * T) := zip a b.

(** [SqueezingEmbedding.__init__(features, wires, method, c)] *)
Definition __init__ {F C T : Type} `{Stacking F C T} (features : tensor F)
    (wires : list wire) (method : string) (c : C) : error + operation T :=
  let shape := shape features in
  (* constants = [c] * shape[0] *)
  match shape with
  | [] => inl IndexError
  | shape_0 :: _ =>
    let constants := replicate shape_0 c in
    if decide (length shape ≠ 1%nat) then inl ValueError
    else
      let n_features := shape_0 in
      if decide (n_features ≠ length wires) then inl ValueError
      else if decide (method = "amplitude") then
        inr (Op (stack (of_feature <$> entries features)
                       (of_constant <$> constants)) wires)
      else if decide (method = "phase") then
        inr (Op (stack (of_constant <$> constants)
                       (of_feature <$> entries features)) wires)
      else inl ValueError
  end.

(** A loop whose body may raise, collecting what each pass queues. *)
Fixpoint for_range {A : Type} (body : nat → error + A) (range : list nat)
  : error + list A :=
  match range with
  | [] => inr []
  | i :: range' =>
    match body i with
    | inl e => inl e
    | inr x =>
      match for_range body range' with
      | inl e => inl e
      | inr xs => inr (x :: xs)
      end
    end
  end.

(** [SqueezingEmbedding.expand]: the operations queued on the tape it
    returns.  [pars[i, 0]] raises when row [i] is missing; the slice
    [wires[i : i + 1]] never does. *)
Definition expand {T : Type} (self : operation T) : error + list (gate T) :=
  let pars := parameters self in
  for_range
    (λ i, match pars !! i with
          | Some (r, phi) => inr (Squeezing r phi (take 1 (drop i (op_wires self))))
          | None => inl IndexError
          end)
    (seq 0 (length (op_wires self))).

(** Example data: integer features, stored with the constant as signed
    numbers. *)
#[export] Instance ex_stacking : Stacking nat Z Z :=
  {| of_feature := Z.of_nat; of_constant := λ c, c |}.

End SqueezingEmbedding.

(** * Properties of graphs *)

(** ** Node attributes *)

Lemma node_attr_None ns n : node_attr ns n = None ↔ n ∉ ns.*1.
Proof.
  induction ns as [|[m a] ns IH]; simpl.
  - split; [intros _; apply not_elem_of_nil | done].
  - rewrite not_elem_of_cons. destruct (decide (m = n)) as [->|Hne].
    + split; [done | intros [? _]; done].
    + rewrite IH. split; [intros ?; split; [congruence | done] | tauto].
Qed.

Lemma node_attr_Some_elem ns n a : node_attr ns n = Some a → (n, a) ∈ ns.
Proof.
  induction ns as [|[m b] ns IH]; simpl; [done|].
  destruct (decide (m = n)) as [->|Hne].
  - intros [= ->]. apply list_elem_of_here.
  - intros H. apply list_elem_of_further. auto.
Qed.

Lemma node_attr_elem ns n a :
  NoDup ns.*1 → (n, a) ∈ ns → node_attr ns n = Some a.
Proof.
  induction ns as [|[m b] ns IH]; simpl; intros Hnd Hin.
  - by apply elem_of_nil in Hin.
  - apply NoDup_cons in Hnd as [Hm Hnd].
    apply elem_of_cons in Hin as [[= -> ->]|Hin].
    + by rewrite decide_True.
    + rewrite decide_False; [auto|].
      intros ->. apply Hm. apply list_elem_of_fmap. by exists (n, a).
Qed.

Lemma node_attr_app ns1 ns2 n :
  node_attr (ns1 ++ ns2) n =
  match node_attr ns1 n with Some a => Some a | None => node_attr ns2 n end.
Proof.
  induction ns1 as [|[m b] ns1 IH]; simpl; [done|].
  by destruct (decide (m = n)).
Qed.

Lemma node_attr_app_l ns1 ns2 n :
  n ∈ ns1.*1 → node_attr (ns1 ++ ns2) n = node_attr ns1 n.
Proof.
  intros Hin. rewrite node_attr_app.
  destruct (node_attr ns1 n) eqn:E; [done|].
  by apply node_attr_None in E.
Qed.

Lemma node_attr_app_r ns1 ns2 n :
  n ∉ ns1.*1 → node_attr (ns1 ++ ns2) n = node_attr ns2 n.
Proof.
  intros Hin. rewrite node_attr_app.
  apply node_attr_None in Hin. by rewrite Hin.
Qed.

Lemma node_attr_filter_ne ns n m :
  m ≠ n → node_attr (filter (λ p, p.1 ≠ n) ns) m = node_attr ns m.
Proof.
  intros Hne. induction ns as [|[k b] ns IH]; [done|].
  destruct (decide (k = n)) as [->|Hk].
  - rewrite filter_cons_False; [|simpl; tauto].
    simpl. by rewrite decide_False.
  - rewrite filter_cons_True; [|done]. simpl. by rewrite IH.
Qed.

Lemma has_node_filter_ne ns n m :
  m ∈ (filter (λ p : node * option Z, p.1 ≠ n) ns).*1 ↔ m ≠ n ∧ m ∈ ns.*1.
Proof.
  rewrite !list_elem_of_fmap. split.
  - intros ([k a] & -> & Hin). apply list_elem_of_filter in Hin as [Hne Hin].
    split; [done|]. by exists (k, a).
  - intros (Hne & [k a] & -> & Hin). exists (k, a). split; [done|].
    by apply list_elem_of_filter.
Qed.

Lemma node_order_Ok_elem g n o :
  node_order g n = Ok o → (n, Some o) ∈ g_nodes g.
Proof.
  unfold node_order. destruct (node_attr _ _) as [[?|]|] eqn:E; try done.
  intros [= ->]. by apply node_attr_Some_elem.
Qed.

Lemma node_order_elem g n o :
  NoDup (g_nodes g).*1 → (n, Some o) ∈ g_nodes g → node_order g n = Ok o.
Proof.
  intros Hnd Hin. unfold node_order. by rewrite (node_attr_elem _ _ _ Hnd Hin).
Qed.

Lemma all_ordered_order g n :
  graph_wf g → all_ordered g → has_node g n → ∃ o, node_order g n = Ok o.
Proof.
  intros Hwf Hord Hin. unfold has_node in Hin.
  apply list_elem_of_fmap in Hin as ([m a] & -> & Hin).
  destruct (Hord _ _ Hin) as [o ->].
  exists o. by apply node_order_elem; [apply Hwf|].
Qed.

(** ** The per-wire neighbour dicts *)

Lemma first_seen_elem l x : x ∈ first_seen l ↔ x ∈ l.
Proof.
  induction l as [|y l IH]; simpl; [done|].
  rewrite !elem_of_cons, list_elem_of_filter, IH.
  destruct (decide (x = y)); tauto.
Qed.

Lemma grouped_elem key es u w :
  (∃ ds, (u, ds) ∈ grouped key es ∧ w ∈ ds) ↔
  (∃ e, e ∈ es ∧ key e = u ∧ e_wire e = w).
Proof.
  unfold grouped. split.
  - intros (ds & Hin & Hw).
    apply list_elem_of_fmap in Hin as (u' & [= <- ->] & _).
    apply list_elem_of_fmap in Hw as (e & -> & He).
    apply list_elem_of_filter in He as [Hk He]. by exists e.
  - intros (e & He & Hk & Hw).
    exists (e_wire <$> filter (λ e, key e = u) es). split.
    + apply list_elem_of_fmap. exists u. split; [done|].
      apply first_seen_elem, list_elem_of_fmap. by exists e.
    + apply list_elem_of_fmap. exists e. split; [done|].
      by apply list_elem_of_filter.
Qed.

Lemma fill_lookup {V : Type} (v : V) (acc : gmap wire V) ds w :
  foldl (λ acc w, <[w := v]> acc) acc ds !! w =
  if decide (w ∈ ds) then Some v else acc !! w.
Proof.
  revert acc. induction ds as [|d ds IH]; intros acc; cbn [foldl].
  - destruct (decide (w ∈ [])) as [H|H]; [by apply elem_of_nil in H | done].
  - rewrite IH. destruct (decide (w ∈ ds)) as [Hin|Hin].
    + rewrite decide_True; [done | by apply list_elem_of_further].
    + destruct (decide (d = w)) as [->|Hne].
      * rewrite lookup_insert_eq. rewrite decide_True; [done | apply list_elem_of_here].
      * rewrite lookup_insert_ne by done.
        rewrite decide_False; [done|].
        rewrite elem_of_cons. intros [->|?]; done.
Qed.

Lemma on_wire_from_Some items (acc : gmap wire node) w p :
  foldl (λ acc item, foldl (λ acc w, <[w := item.1]> acc) acc item.2) acc items
    !! w = Some p →
  acc !! w = Some p ∨ ∃ ds, (p, ds) ∈ items ∧ w ∈ ds.
Proof.
  revert acc. induction items as [|[u ds] items IH]; intros acc; simpl.
  - by left.
  - intros H. apply IH in H as [H|(ds' & Hin & Hw)].
    + rewrite fill_lookup in H. destruct (decide (w ∈ ds)) as [Hw|Hw].
      * injection H as <-. right. exists ds. split; [apply list_elem_of_here | done].
      * by left.
    + right. exists ds'. split; [by apply list_elem_of_further | done].
Qed.

Lemma on_wire_from_is_Some items (acc : gmap wire node) w :
  is_Some (acc !! w) ∨ (∃ p ds, (p, ds) ∈ items ∧ w ∈ ds) →
  is_Some (foldl (λ acc item, foldl (λ acc w, <[w := item.1]> acc) acc item.2)
             acc items !! w).
Proof.
  revert acc. induction items as [|[u ds] items IH]; intros acc; simpl.
  - intros [H|(p & ds & Hin & _)]; [done | by apply elem_of_nil in Hin].
  - intros H. apply IH. rewrite fill_lookup.
    destruct (decide (w ∈ ds)) as [Hw|Hw]; [by left; eexists|].
    destruct H as [H|(p & ds' & Hin & Hw')]; [by left|].
    apply elem_of_cons in Hin as [[= -> ->]|Hin]; [done|].
    right. by exists p, ds'.
Qed.

Lemma on_wire_Some items w p :
  on_wire items !! w = Some p → ∃ ds, (p, ds) ∈ items ∧ w ∈ ds.
Proof.
  intros H. apply on_wire_from_Some in H as [H|H]; [|done].
  by rewrite lookup_empty in H.
Qed.

Lemma on_wire_is_Some items w p ds :
  (p, ds) ∈ items → w ∈ ds → is_Some (on_wire items !! w).
Proof. intros Hin Hw. apply on_wire_from_is_Some. right. by exists p, ds. Qed.

Lemma predecessor_on_wire_edge g n w p :
  predecessor_on_wire g n !! w = Some p → Edge p n w ∈ g_edges g.
Proof.
  intros H. apply on_wire_Some in H.
  apply grouped_elem in H as ([u v w'] & He & Hk & Hw).
  apply list_elem_of_filter in He as [Hd He]. simpl in *. by subst.
Qed.

Lemma successor_on_wire_edge g n w q :
  successor_on_wire g n !! w = Some q → Edge n q w ∈ g_edges g.
Proof.
  intros H. apply on_wire_Some in H.
  apply grouped_elem in H as ([u v w'] & He & Hk & Hw).
  apply list_elem_of_filter in He as [Hd He]. simpl in *. by subst.
Qed.

Lemma predecessor_on_wire_is_Some g n w p :
  Edge p n w ∈ g_edges g → is_Some (predecessor_on_wire g n !! w).
Proof.
  intros He.
  assert (∃ ds, (p, ds) ∈ grouped e_src (filter (λ e, e_dst e = n) (g_edges g))
                ∧ w ∈ ds) as (ds & Hin & Hw).
  { apply grouped_elem. exists (Edge p n w). split; [|done].
    by apply list_elem_of_filter. }
  by eapply on_wire_is_Some.
Qed.

Lemma successor_on_wire_is_Some g n w q :
  Edge n q w ∈ g_edges g → is_Some (successor_on_wire g n !! w).
Proof.
  intros He.
  assert (∃ ds, (q, ds) ∈ grouped e_dst (filter (λ e, e_src e = n) (g_edges g))
                ∧ w ∈ ds) as (ds & Hin & Hw).
  { apply grouped_elem. exists (Edge n q w). split; [|done].
    by apply list_elem_of_filter. }
  by eapply on_wire_is_Some.
Qed.

(** Under the chain invariant the dicts hold exactly the neighbours. *)
Lemma predecessor_on_wire_spec g n w p :
  chain_invariant g →
  predecessor_on_wire g n !! w = Some p ↔ Edge p n w ∈ g_edges g.
Proof.
  intros Hc. split; [apply predecessor_on_wire_edge|].
  intros He. destruct (predecessor_on_wire_is_Some _ _ _ _ He) as [p' Hp'].
  rewrite Hp'. f_equal.
  eapply (chain_pred g Hc); [by apply predecessor_on_wire_edge | done].
Qed.

Lemma successor_on_wire_spec g n w q :
  chain_invariant g →
  successor_on_wire g n !! w = Some q ↔ Edge n q w ∈ g_edges g.
Proof.
  intros Hc. split; [apply successor_on_wire_edge|].
  intros He. destruct (successor_on_wire_is_Some _ _ _ _ He) as [q' Hq'].
  rewrite Hq'. f_equal.
  eapply (chain_succ g Hc); [by apply successor_on_wire_edge | done].
Qed.

(** ** Adding nodes and edges *)

Lemma add_node_fresh n o g :
  ¬ has_node g n → add_node n o g = Graph (g_nodes g ++ [(n, Some o)]) (g_edges g).
Proof. intros H. unfold add_node. by rewrite decide_False. Qed.

Lemma add_edge_present u v w g :
  has_node g u → has_node g v →
  add_edge u v w g = Graph (g_nodes g) (g_edges g ++ [Edge u v w]).
Proof.
  unfold has_node, add_edge, touch. intros Hu Hv.
  by rewrite (decide_True _ _ Hu), (decide_True _ _ Hv).
Qed.

Lemma touch_extends n ns :
  ∃ ns', touch n ns = ns ++ ns' ∧ ∀ m, m ∈ ns'.*1 → m = n.
Proof.
  unfold touch. destruct (decide (n ∈ ns.*1)).
  - exists []. split; [by rewrite app_nil_r|]. intros m Hm. by apply elem_of_nil in Hm.
  - exists [(n, None)]. split; [done|]. intros m Hm. by apply list_elem_of_singleton in Hm.
Qed.

Lemma add_edge_extends u v w g :
  ∃ ns', add_edge u v w g = Graph (g_nodes g ++ ns') (g_edges g ++ [Edge u v w])
         ∧ ∀ m, m ∈ ns'.*1 → m = u ∨ m = v.
Proof.
  unfold add_edge.
  destruct (touch_extends u (g_nodes g)) as (n1 & -> & H1).
  destruct (touch_extends v (g_nodes g ++ n1)) as (n2 & -> & H2).
  exists (n1 ++ n2). split; [by rewrite app_assoc|].
  intros m. rewrite fmap_app, elem_of_app. intros [?|?]; auto.
Qed.

(** ** What one pass of the loop of [replace_wire_cut_node] adds *)

Lemma fresh_absent s n : store_fresh s → (next_id s ≤ ident n)%nat → ¬ has_node (the_graph s) n.
Proof. intros Hf Hle Hin. apply Hf in Hin. lia. Qed.

Lemma place_pair_exact pow sow o s w :
  store_fresh s →
  (∀ p, pow !! w = Some p → has_node (the_graph s) p) →
  (∀ q, sow !! w = Some q → has_node (the_graph s) q) →
  place_pair pow sow o s w =
  Store (S (S (next_id s)))
        (Graph (g_nodes (the_graph s) ++ pair_nodes o (next_id s) w)
               (g_edges (the_graph s) ++ pair_edges pow sow (next_id s) w)).
Proof.
  intros Hf Hp Hq. destruct s as [k [ns es]]. simpl in *.
  unfold place_pair. cbn [next_id the_graph]. f_equal.
  fold (meas_node k w). fold (prep_node k w).
  assert (Hm : meas_node k w ∉ ns.*1).
  { intros Hin. apply Hf in Hin. simpl in Hin. lia. }
  assert (Hr : prep_node k w ∉ ns.*1).
  { intros Hin. apply Hf in Hin. simpl in Hin. lia. }
  rewrite (add_node_fresh (meas_node k w)) by done. cbn [g_nodes g_edges].
  rewrite (add_node_fresh (prep_node k w)).
  2:{ unfold has_node. cbn [g_nodes]. rewrite fmap_app, elem_of_app.
      intros [?|Hin]; [done|]. by apply list_elem_of_singleton in Hin. }
  cbn [g_nodes g_edges].
  assert (Hall : ∀ es' n, n ∈ ns.*1 ∨ n = meas_node k w ∨ n = prep_node k w →
            has_node (Graph ((ns ++ [(meas_node k w, Some o)]) ++ [(prep_node k w, Some o)]) es') n).
  { intros es' n Hn. unfold has_node. cbn [g_nodes].
    rewrite !fmap_app, !elem_of_app. simpl. rewrite !list_elem_of_singleton. tauto. }
  rewrite add_edge_present by (apply Hall; tauto). cbn [g_nodes g_edges].
  unfold pair_nodes, pair_edges.
  destruct (pow !! w) as [p|] eqn:Ep; destruct (sow !! w) as [q|] eqn:Eq;
    try (specialize (Hp p eq_refl)); try (specialize (Hq q eq_refl)).
  - rewrite (add_edge_present p) by (apply Hall; tauto). cbn [g_nodes g_edges].
    rewrite add_edge_present by (apply Hall; tauto). cbn [g_nodes g_edges].
    by rewrite <- !app_assoc.
  - rewrite add_edge_present by (apply Hall; tauto). cbn [g_nodes g_edges].
    by rewrite <- !app_assoc.
  - rewrite add_edge_present by (apply Hall; tauto). cbn [g_nodes g_edges].
    by rewrite <- !app_assoc.
  - by rewrite <- !app_assoc.
Qed.

Lemma pairs_nodes_elem o k ws n a :
  (n, a) ∈ pairs_nodes o k ws ↔
  ∃ i w, ws !! i = Some w ∧ a = Some o ∧
         (n = meas_node (k + 2 * i) w ∨ n = prep_node (k + 2 * i) w).
Proof.
  revert k. induction ws as [|w ws IH]; intros k; cbn [pairs_nodes pair_nodes app].
  - split; [intros H; by apply elem_of_nil in H | intros (i & w & H & _); done].
  - rewrite !elem_of_cons, IH. split.
    + intros [[= -> ->]|[[= -> ->]|(i & w' & Hi & -> & Hn)]].
      * exists 0%nat, w. rewrite Nat.add_0_r. split_and!; [done | done | by left].
      * exists 0%nat, w. rewrite Nat.add_0_r. split_and!; [done | done | by right].
      * exists (S i), w'.
        replace (k + 2 * S i)%nat with (S (S k) + 2 * i)%nat by lia. done.
    + intros ([|i] & w' & Hi & -> & Hn).
      * injection Hi as <-. rewrite Nat.add_0_r in Hn. destruct Hn as [->| ->]; auto.
      * right; right. exists i, w'.
        replace (S (S k) + 2 * i)%nat with (k + 2 * S i)%nat by lia. done.
Qed.

Lemma pairs_edges_elem pow sow k ws e :
  e ∈ pairs_edges pow sow k ws ↔
  ∃ i w, ws !! i = Some w ∧ e ∈ pair_edges pow sow (k + 2 * i) w.
Proof.
  revert k. induction ws as [|w ws IH]; intros k; cbn [pairs_edges].
  - split; [intros H; by apply elem_of_nil in H | intros (i & w & H & _); done].
  - rewrite elem_of_app, IH. split.
    + intros [H|(i & w' & Hi & H)].
      * exists 0%nat, w. by rewrite Nat.add_0_r.
      * exists (S i), w'. by replace (k + 2 * S i)%nat with (S (S k) + 2 * i)%nat by lia.
    + intros ([|i] & w' & Hi & H).
      * injection Hi as <-. rewrite Nat.add_0_r in H. by left.
      * right. exists i, w'.
        by replace (S (S k) + 2 * i)%nat with (k + 2 * S i)%nat by lia.
Qed.

Lemma pairs_nodes_length o k ws :
  length (pairs_nodes o k ws) = (2 * length ws)%nat.
Proof. revert k. induction ws as [|w ws IH]; intros k; simpl; [done|]. rewrite IH. lia. Qed.

Lemma place_pairs_exact pow sow o ws s :
  store_fresh s →
  (∀ w p, w ∈ ws → pow !! w = Some p → has_node (the_graph s) p) →
  (∀ w q, w ∈ ws → sow !! w = Some q → has_node (the_graph s) q) →
  foldl (place_pair pow sow o) s ws =
  Store (next_id s + 2 * length ws)
        (Graph (g_nodes (the_graph s) ++ pairs_nodes o (next_id s) ws)
               (g_edges (the_graph s) ++ pairs_edges pow sow (next_id s) ws)).
Proof.
  revert s. induction ws as [|w ws IH]; intros s Hf Hp Hq.
  - destruct s as [k [ns es]]. simpl. by rewrite Nat.add_0_r, !app_nil_r.
  - cbn [foldl]. rewrite place_pair_exact; [|done|..].
    2:{ intros p. apply Hp, list_elem_of_here. }
    2:{ intros q. apply Hq, list_elem_of_here. }
    assert (Hin : ∀ n, has_node (the_graph s) n →
      has_node (Graph (g_nodes (the_graph s) ++ pair_nodes o (next_id s) w)
                      (g_edges (the_graph s) ++ pair_edges pow sow (next_id s) w)) n).
    { intros n Hn. unfold has_node in *. cbn [g_nodes].
      rewrite fmap_app, elem_of_app. by left. }
    rewrite IH; cbn [next_id the_graph g_nodes g_edges].
    + f_equal; [simpl; lia|]. by rewrite <- !app_assoc.
    + intros n. unfold has_node. cbn [next_id the_graph g_nodes].
      rewrite fmap_app, elem_of_app. intros [Hn|Hn].
      * apply Hf in Hn. lia.
      * simpl in Hn. rewrite !elem_of_cons in Hn.
        destruct Hn as [->|[->|Hn]]; simpl; [lia | lia | by apply elem_of_nil in Hn].
    + intros w' p Hw' Hp'. apply Hin. eapply Hp; [|done]. by apply list_elem_of_further.
    + intros w' q Hw' Hq'. apply Hin. eapply Hq; [|done]. by apply list_elem_of_further.
Qed.

Lemma has_node_without nd g m : has_node (without nd g) m ↔ m ≠ nd ∧ has_node g m.
Proof. unfold has_node, without. cbn [g_nodes]. apply has_node_filter_ne. Qed.

(** [replace_wire_cut_node] unfolded on a node of the graph. *)
Lemma replace_wire_cut_node_unfold nd s o :
  has_node (the_graph s) nd →
  node_order (the_graph s) nd = Ok o →
  replace_wire_cut_node nd s =
  (Ok tt, foldl (place_pair (predecessor_on_wire (the_graph s) nd)
                            (successor_on_wire (the_graph s) nd) o)
                (Store (next_id s) (without nd (the_graph s))) (wires nd)).
Proof.
  intros Hin Ho. unfold replace_wire_cut_node, pred_view, succ_view, remove_node.
  rewrite !(decide_True _ _ Hin). by rewrite Ho.
Qed.

(** On a graph where the node has no edge to itself the effect is exact:
    the node and its edges go, and one pair per wire is appended. *)
Lemma replace_wire_cut_node_exact nd s o :
  graph_wf (the_graph s) → store_fresh s →
  has_node (the_graph s) nd →
  node_order (the_graph s) nd = Ok o →
  (∀ w, Edge nd nd w ∉ g_edges (the_graph s)) →
  replace_wire_cut_node nd s =
  (Ok tt,
   Store (next_id s + 2 * length (wires nd))
     (Graph (g_nodes (without nd (the_graph s)) ++
               pairs_nodes o (next_id s) (wires nd))
            (g_edges (without nd (the_graph s)) ++
               pairs_edges (predecessor_on_wire (the_graph s) nd)
                           (successor_on_wire (the_graph s) nd)
                           (next_id s) (wires nd)))).
Proof.
  intros Hwf Hf Hin Ho Hloop.
  rewrite (replace_wire_cut_node_unfold nd s o Hin Ho). f_equal.
  rewrite place_pairs_exact; [done|..]; cbn [the_graph next_id].
  - intros n Hn. apply has_node_without in Hn as [_ Hn]. by apply Hf.
  - intros w p _ Hp. apply predecessor_on_wire_edge in Hp.
    apply has_node_without. split.
    + intros ->. by apply (Hloop w).
    + by apply (wf_endpoints _ Hwf) in Hp as [? _].
  - intros w q _ Hq. apply successor_on_wire_edge in Hq.
    apply has_node_without. split.
    + intros ->. by apply (Hloop w).
    + by apply (wf_endpoints _ Hwf) in Hq as [_ ?].
Qed.

(** Without any assumption on self-loops the loop still only appends to
    the graph. *)
Lemma place_pair_extends pow sow o s w :
  store_fresh s →
  (∀ p, pow !! w = Some p → (ident p < next_id s)%nat) →
  (∀ q, sow !! w = Some q → (ident q < next_id s)%nat) →
  ∃ ns es,
    the_graph (place_pair pow sow o s w) =
      Graph (g_nodes (the_graph s) ++ ns) (g_edges (the_graph s) ++ es)
    ∧ store_fresh (place_pair pow sow o s w)
    ∧ (next_id s ≤ next_id (place_pair pow sow o s w))%nat.
Proof.
  intros Hf Hp Hq. destruct s as [k [ns es]]. cbn [next_id the_graph] in *.
  unfold place_pair. cbn [next_id the_graph].
  fold (meas_node k w). fold (prep_node k w).
  assert (Hm : meas_node k w ∉ ns.*1).
  { intros Hin. apply Hf in Hin. simpl in Hin. lia. }
  assert (Hr : prep_node k w ∉ ns.*1).
  { intros Hin. apply Hf in Hin. simpl in Hin. lia. }
  rewrite (add_node_fresh (meas_node k w)) by done. cbn [g_nodes g_edges].
  rewrite (add_node_fresh (prep_node k w)).
  2:{ unfold has_node. cbn [g_nodes]. rewrite fmap_app, elem_of_app.
      intros [?|Hin]; [done|]. by apply list_elem_of_singleton in Hin. }
  cbn [g_nodes g_edges].
  set (g0 := Graph ((ns ++ [(meas_node k w, Some o)]) ++ [(prep_node k w, Some o)]) es).
  assert (H0 : ∀ n, has_node g0 n → (ident n < S (S k))%nat).
  { intros n. unfold has_node, g0. cbn [g_nodes].
    rewrite !fmap_app, !elem_of_app. simpl. rewrite !list_elem_of_singleton.
    intros [[Hn| ->]| ->]; simpl; [|lia|lia]. apply Hf in Hn. simpl in Hn. lia. }
  assert (Hstep : ∀ g u v, (ident u < S (S k))%nat → (ident v < S (S k))%nat →
    (∃ ns' es', g = Graph (ns ++ ns') (es ++ es')) →
    (∀ n, has_node g n → (ident n < S (S k))%nat) →
    (∃ ns' es', add_edge u v w g = Graph (ns ++ ns') (es ++ es')) ∧
    (∀ n, has_node (add_edge u v w g) n → (ident n < S (S k))%nat)).
  { intros g u v Hu Hv (ns' & es' & ->) Hg.
    destruct (add_edge_extends u v w (Graph (ns ++ ns') (es ++ es')))
      as (n2 & -> & Hn2). cbn [g_nodes g_edges]. split.
    - exists (ns' ++ n2), (es' ++ [Edge u v w]). by rewrite !app_assoc.
    - intros n. unfold has_node. cbn [g_nodes]. rewrite fmap_app, elem_of_app.
      intros [Hn|Hn]; [by apply Hg|]. by destruct (Hn2 _ Hn) as [-> | ->]. }
  destruct (Hstep g0 (meas_node k w) (prep_node k w)) as [He1 Hf1];
    [simpl; lia | simpl; lia | | done |].
  { unfold g0. exists [(meas_node k w, Some o); (prep_node k w, Some o)], [].
    by rewrite <- app_assoc, app_nil_r. }
  set (g1 := add_edge (meas_node k w) (prep_node k w) w g0) in *.
  assert (∃ g2, g2 = match pow !! w with Some p => add_edge p (meas_node k w) w g1
                     | None => g1 end
                ∧ (∃ ns' es', g2 = Graph (ns ++ ns') (es ++ es'))
                ∧ (∀ n, has_node g2 n → (ident n < S (S k))%nat))
    as (g2 & <- & He2 & Hf2).
  { eexists; split; [done|]. destruct (pow !! w) as [p|] eqn:Ep; [|done].
    apply Hstep; [|simpl; lia|done|done]. specialize (Hp p eq_refl). lia. }
  assert (∃ g3, g3 = match sow !! w with Some q => add_edge (prep_node k w) q w g2
                     | None => g2 end
                ∧ (∃ ns' es', g3 = Graph (ns ++ ns') (es ++ es'))
                ∧ (∀ n, has_node g3 n → (ident n < S (S k))%nat))
    as (g3 & <- & (ns3 & es3 & ->) & Hf3).
  { eexists; split; [done|]. destruct (sow !! w) as [q|] eqn:Eq; [|done].
    apply Hstep; [simpl; lia| |done|done]. specialize (Hq q eq_refl). lia. }
  exists ns3, es3. split_and!; [done | done | lia].
Qed.

Lemma place_pairs_extends pow sow o ws s :
  store_fresh s →
  (∀ w p, pow !! w = Some p → (ident p < next_id s)%nat) →
  (∀ w q, sow !! w = Some q → (ident q < next_id s)%nat) →
  ∃ ns es,
    the_graph (foldl (place_pair pow sow o) s ws) =
      Graph (g_nodes (the_graph s) ++ ns) (g_edges (the_graph s) ++ es).
Proof.
  revert s. induction ws as [|w ws IH]; intros s Hf Hp Hq.
  - exists [], []. destruct s as [k [ns es]]. simpl. by rewrite !app_nil_r.
  - cbn [foldl].
    destruct (place_pair_extends pow sow o s w Hf (Hp w) (Hq w))
      as (ns1 & es1 & E1 & Hf1 & Hle).
    destruct (IH (place_pair pow sow o s w) Hf1) as (ns2 & es2 & E2).
    + intros w' p Hp'. specialize (Hp _ _ Hp'). lia.
    + intros w' q Hq'. specialize (Hq _ _ Hq'). lia.
    + exists (ns1 ++ ns2), (es1 ++ es2). rewrite E2, E1. cbn [g_nodes g_edges].
      by rewrite !app_assoc.
Qed.

(** * [replace_wire_cut_node]: failure and frame *)

(** C6: for a node that is absent from the graph, [replace_wire_cut_node]
    raises a key error, and the graph is left as it was. *)
Theorem replace_wire_cut_node_absent nd s :
  ¬ has_node (the_graph s) nd →
  replace_wire_cut_node nd s = (Raise KeyError, s).
Proof.
  intros Hout. unfold replace_wire_cut_node, pred_view.
  by rewrite (decide_False _ _ Hout).
Qed.

Lemma replace_wire_cut_node_absent_witness :
  let nd := Node 7 WireCut [0%nat] in
  let s := Store 8 (Graph [(Node 0 Operation [0%nat], Some 0)] []) in
  ¬ has_node (the_graph s) nd ∧
  replace_wire_cut_node nd s = (Raise KeyError, s).
Proof.
  assert (H : ¬ has_node (the_graph (Store 8 (Graph [(Node 0 Operation [0%nat], Some 0)] [])))
                (Node 7 WireCut [0%nat])).
  { unfold has_node. simpl. rewrite list_elem_of_singleton. discriminate. }
  exact (conj H (replace_wire_cut_node_absent _ _ H)).
Defined.

Lemma replace_each_no_markers ops s :
  (∀ n, n ∈ ops → class_of n ≠ WireCut) → replace_each ops s = (Ok tt, s).
Proof.
  induction ops as [|op ops IH]; intros H; simpl; [done|].
  unfold is_wire_cut. rewrite bool_decide_eq_false_2.
  - apply IH. intros n Hn. apply H. by apply list_elem_of_further.
  - apply H, list_elem_of_here.
Qed.

(** C7: on a graph without [WireCut] nodes [replace_wire_cut_nodes]
    returns normally and leaves the store, hence nodes, edges and all
    attributes, unchanged. *)
Theorem replace_wire_cut_nodes_no_markers s :
  (∀ n, has_node (the_graph s) n → class_of n ≠ WireCut) →
  replace_wire_cut_nodes s = (Ok tt, s).
Proof. intros H. unfold replace_wire_cut_nodes. by apply replace_each_no_markers. Qed.

Lemma replace_wire_cut_nodes_no_markers_witness :
  let a := Node 0 Operation [0%nat] in
  let b := Node 1 MeasurementProcess [0%nat] in
  let s := Store 2 (Graph [(a, Some 0); (b, Some 1)] [Edge a b 0%nat]) in
  replace_wire_cut_nodes s = (Ok tt, s).
Proof.
  intros a b s. apply replace_wire_cut_nodes_no_markers.
  intros n. unfold has_node. simpl. rewrite !elem_of_cons, elem_of_nil.
  intros [->|[->|[]]]; discriminate.
Defined.

(** C10: [replace_wire_cut_node] on a node of the graph, whatever its
    outcome, keeps every other node in the graph with its order attribute
    unchanged, and keeps every edge that does not touch the node, parallel
    edges included: those edges stay, in their order, in the edge list. *)
Theorem replace_wire_cut_node_frame nd s r s' :
  graph_wf (the_graph s) → store_fresh s →
  has_node (the_graph s) nd →
  replace_wire_cut_node nd s = (r, s') →
  (∀ m, m ≠ nd → has_node (the_graph s) m →
        has_node (the_graph s') m ∧
        node_order (the_graph s') m = node_order (the_graph s) m) ∧
  (∀ e, e ∈ g_edges (the_graph s) → e_src e ≠ nd → e_dst e ≠ nd →
        e ∈ g_edges (the_graph s')) ∧
  filter (λ e, e_src e ≠ nd ∧ e_dst e ≠ nd) (g_edges (the_graph s))
    `sublist_of` g_edges (the_graph s').
Proof.
  intros Hwf Hf Hin Hrun.
  destruct (node_order (the_graph s) nd) as [o|e] eqn:Ho.
  - rewrite (replace_wire_cut_node_unfold nd s o Hin Ho) in Hrun.
    injection Hrun as <- <-.
    destruct (place_pairs_extends
                (predecessor_on_wire (the_graph s) nd)
                (successor_on_wire (the_graph s) nd) o (wires nd)
                (Store (next_id s) (without nd (the_graph s))))
      as (ns & es & ->); cbn [the_graph next_id].
    + intros n Hn. apply has_node_without in Hn as [_ Hn]. by apply Hf.
    + intros w p Hp. apply predecessor_on_wire_edge in Hp.
      apply Hf. by apply (wf_endpoints _ Hwf) in Hp as [? _].
    + intros w q Hq. apply successor_on_wire_edge in Hq.
      apply Hf. by apply (wf_endpoints _ Hwf) in Hq as [_ ?].
    + cbn [g_nodes g_edges without]. split_and!.
      * intros m Hne Hm.
        assert (Hm' : m ∈ (filter (λ p : node * option Z, p.1 ≠ nd)
                             (g_nodes (the_graph s))).*1)
          by by apply has_node_filter_ne.
        split.
        -- unfold has_node. cbn [g_nodes]. rewrite fmap_app, elem_of_app. by left.
        -- unfold node_order. cbn [g_nodes].
           by rewrite node_attr_app_l, node_attr_filter_ne.
      * intros e He Hs Hd. rewrite elem_of_app. left.
        by apply list_elem_of_filter.
      * by apply sublist_inserts_r.
  - unfold replace_wire_cut_node, pred_view, succ_view in Hrun.
    rewrite !(decide_True _ _ Hin), Ho in Hrun. injection Hrun as <- <-.
    split_and!; [done | done |].
    apply sublist_filter.
Qed.

(** * [replace_wire_cut_node]: the pair placed on each wire *)

Lemma pair_edges_elem pow sow k w e :
  e ∈ pair_edges pow sow k w ↔
  e = Edge (meas_node k w) (prep_node k w) w
  ∨ (∃ p, pow !! w = Some p ∧ e = Edge p (meas_node k w) w)
  ∨ (∃ q, sow !! w = Some q ∧ e = Edge (prep_node k w) q w).
Proof.
  unfold pair_edges. rewrite elem_of_cons, elem_of_app.
  destruct (pow !! w) as [p|]; destruct (sow !! w) as [q|];
    rewrite ?list_elem_of_singleton, ?elem_of_nil; split;
    try (intros [?|[?|?]]; eauto; done).
  all: intros [?|[(? & [= <-] & ?)|(? & [= <-] & ?)]]; auto; done.
Qed.

Section replace_one.
Variables (nd : node) (s : store).
Hypothesis Hwf : graph_wf (the_graph s).
Hypothesis Hfresh : store_fresh s.
Hypothesis Hchain : chain_invariant (the_graph s).
Hypothesis Hin : has_node (the_graph s) nd.

Let g := the_graph s.
Let k := next_id s.
Let pow := predecessor_on_wire g nd.
Let sow := successor_on_wire g nd.

Lemma new_node_absent n : (k ≤ ident n)%nat → ¬ has_node g n.
Proof. intros Hle Hn. apply Hfresh in Hn. unfold k in Hle. lia. Qed.

Lemma pow_old w p : pow !! w = Some p → has_node g p.
Proof.
  intros Hp. apply predecessor_on_wire_edge in Hp.
  by apply (wf_endpoints _ Hwf) in Hp as [? _].
Qed.

Lemma sow_old w q : sow !! w = Some q → has_node g q.
Proof.
  intros Hq. apply successor_on_wire_edge in Hq.
  by apply (wf_endpoints _ Hwf) in Hq as [_ ?].
Qed.

Lemma kept_edge_old e :
  e ∈ g_edges (without nd g) → has_node g (e_src e) ∧ has_node g (e_dst e).
Proof.
  unfold without. cbn [g_edges]. intros He.
  apply list_elem_of_filter in He as [_ He]. by apply (wf_endpoints _ Hwf).
Qed.

(** The edges into the sink and out of the source placed at position [i]. *)
Lemma sink_predecessors i w p w' :
  wires nd !! i = Some w →
  Edge p (meas_node (k + 2 * i) w) w' ∈
    g_edges (without nd g) ++ pairs_edges pow sow k (wires nd) ↔
  w' = w ∧ Edge p nd w ∈ g_edges g.
Proof.
  intros Hi. rewrite elem_of_app. split.
  - intros [He|He].
    + apply kept_edge_old in He as [_ He]. simpl in He.
      apply new_node_absent in He; [done | simpl; lia].
    + apply pairs_edges_elem in He as (j & wj & Hj & He).
      apply pair_edges_elem in He as [He|[(p' & Hp' & He)|(q & Hq & He)]].
      * discriminate He.
      * injection He as -> Hk -> ->. split; [done|].
        by apply predecessor_on_wire_edge.
      * injection He as -> <- ->. apply sow_old in Hq.
        apply new_node_absent in Hq; [done | simpl; lia].
  - intros [-> He]. right. apply pairs_edges_elem. exists i, w. split; [done|].
    apply pair_edges_elem. right; left. exists p. split; [|done].
    by apply predecessor_on_wire_spec.
Qed.

Lemma source_successors i w q w' :
  wires nd !! i = Some w →
  Edge (prep_node (k + 2 * i) w) q w' ∈
    g_edges (without nd g) ++ pairs_edges pow sow k (wires nd) ↔
  w' = w ∧ Edge nd q w ∈ g_edges g.
Proof.
  intros Hi. rewrite elem_of_app. split.
  - intros [He|He].
    + apply kept_edge_old in He as [He _]. simpl in He.
      apply new_node_absent in He; [done | simpl; lia].
    + apply pairs_edges_elem in He as (j & wj & Hj & He).
      apply pair_edges_elem in He as [He|[(p' & Hp' & He)|(q' & Hq & He)]].
      * discriminate He.
      * injection He as <- -> ->. apply pow_old in Hp'.
        apply new_node_absent in Hp'; [done | simpl; lia].
      * injection He as Hk -> -> ->. split; [done|].
        by apply successor_on_wire_edge.
  - intros [-> He]. right. apply pairs_edges_elem. exists i, w. split; [done|].
    apply pair_edges_elem. right; right. exists q. split; [|done].
    by apply successor_on_wire_spec.
Qed.

Lemma marker_gone o :
  ¬ has_node (Graph (g_nodes (without nd g) ++ pairs_nodes o k (wires nd))
                    (g_edges (without nd g) ++ pairs_edges pow sow k (wires nd)))
             nd.
Proof.
  unfold has_node. cbn [g_nodes]. rewrite fmap_app, elem_of_app.
  intros [H|H].
  - apply has_node_filter_ne in H as [H _]. done.
  - apply list_elem_of_fmap in H as ([n a] & -> & H).
    apply pairs_nodes_elem in H as (i & w & _ & _ & [->| ->]);
      eapply new_node_absent; try exact Hin; simpl; lia.
Qed.
End replace_one.

(** C2: on a graph satisfying the chain invariant, for a node [nd] of the
    graph and a wire [w] it touches, [replace_wire_cut_node] returns
    normally and leaves a [MeasureNode] and a [PrepareNode] on [w], both new
    to the graph, joined by an edge labelled [w]; the edges into the sink
    are labelled [w] and come from exactly the nodes that preceded [nd] on
    [w] (at most one, none if there was none), the edges out of the source
    are labelled [w] and go to exactly the nodes that followed [nd] on [w],
    and [nd] is no longer in the graph. *)
Theorem replace_wire_cut_node_pair nd s w :
  graph_wf (the_graph s) → all_ordered (the_graph s) → store_fresh s →
  chain_invariant (the_graph s) →
  has_node (the_graph s) nd → w ∈ wires nd →
  ∃ s' meas prep,
    replace_wire_cut_node nd s = (Ok tt, s') ∧
    class_of meas = MeasureNode ∧ wires meas = [w] ∧
    class_of prep = PrepareNode ∧ wires prep = [w] ∧
    ¬ has_node (the_graph s) meas ∧ ¬ has_node (the_graph s) prep ∧
    has_node (the_graph s') meas ∧ has_node (the_graph s') prep ∧
    Edge meas prep w ∈ g_edges (the_graph s') ∧
    (∀ p w', Edge p meas w' ∈ g_edges (the_graph s') ↔
             w' = w ∧ Edge p nd w ∈ g_edges (the_graph s)) ∧
    (∀ q w', Edge prep q w' ∈ g_edges (the_graph s') ↔
             w' = w ∧ Edge nd q w ∈ g_edges (the_graph s)) ∧
    ¬ has_node (the_graph s') nd.
Proof.
  intros Hwf Hord Hf Hc Hin Hw.
  destruct (all_ordered_order _ _ Hwf Hord Hin) as [o Ho].
  apply list_elem_of_lookup in Hw as [i Hi].
  eexists _, (meas_node (next_id s + 2 * i) w), (prep_node (next_id s + 2 * i) w).
  split.
  { apply (replace_wire_cut_node_exact nd s o); try done.
    intros w'. apply (chain_simple _ Hc). }
  cbn [the_graph]. split_and!; try done.
  - apply new_node_absent; [done | simpl; lia].
  - apply new_node_absent; [done | simpl; lia].
  - unfold has_node. cbn [g_nodes]. rewrite fmap_app, elem_of_app. right.
    apply list_elem_of_fmap. exists (meas_node (next_id s + 2 * i) w, Some o).
    split; [done|]. apply pairs_nodes_elem. exists i, w. auto.
  - unfold has_node. cbn [g_nodes]. rewrite fmap_app, elem_of_app. right.
    apply list_elem_of_fmap. exists (prep_node (next_id s + 2 * i) w, Some o).
    split; [done|]. apply pairs_nodes_elem. exists i, w. auto.
  - cbn [g_edges]. rewrite elem_of_app. right.
    apply pairs_edges_elem. exists i, w. split; [done|].
    apply pair_edges_elem. by left.
  - intros p w'. cbn [g_edges]. by apply sink_predecessors.
  - intros q w'. cbn [g_edges]. by apply source_successors.
  - by apply marker_gone.
Qed.

(** * [replace_wire_cut_node]: counting nodes and edges *)


Lemma filter_absent_key (l : list (node * option Z)) n :
  n ∉ l.*1 → filter (λ p, p.1 ≠ n) l = l.
Proof.
  induction l as [|[m a] l IH]; [done|]. simpl.
  rewrite not_elem_of_cons. intros [Hne Hn].
  rewrite filter_cons_True by (simpl; congruence). by rewrite IH.
Qed.

Lemma removed_one (l : list (node * option Z)) n :
  NoDup l.*1 → n ∈ l.*1 →
  (length (filter (λ p, p.1 ≠ n) l) + 1 = length l)%nat.
Proof.
  induction l as [|[m a] l IH]; simpl; intros Hnd Hn.
  - by apply elem_of_nil in Hn.
  - apply NoDup_cons in Hnd as [Hm Hnd]. destruct (decide (m = n)) as [->|Hne].
    + rewrite filter_cons_False by (simpl; tauto).
      rewrite filter_absent_key by done. lia.
    + rewrite filter_cons_True by done. simpl.
      apply elem_of_cons in Hn as [->|Hn]; [done|]. rewrite <- IH by done. lia.
Qed.


Section counting.
Variables (nd : node) (s : store).
Hypothesis Hwf : graph_wf (the_graph s).
Hypothesis Hfresh : store_fresh s.

Let g := the_graph s.
Let pow := predecessor_on_wire g nd.
Let sow := successor_on_wire g nd.





End counting.

Lemma pairs_nodes_nodup o k ws : NoDup (pairs_nodes o k ws).*1.
Proof.
  revert k. induction ws as [|w ws IH]; intros k; cbn [pairs_nodes pair_nodes app].
  - apply NoDup_nil_2.
  - assert (Hge : ∀ n, n ∈ (pairs_nodes o (S (S k)) ws).*1 → (S (S k) ≤ ident n)%nat).
    { intros n Hn. apply list_elem_of_fmap in Hn as ([m a] & -> & Hn).
      apply pairs_nodes_elem in Hn as (i & w' & _ & _ & [->| ->]); simpl; lia. }
    rewrite !fmap_cons. cbn [fst]. apply NoDup_cons. split.
    + rewrite not_elem_of_cons. split; [discriminate|].
      intros Hn. apply Hge in Hn. simpl in Hn. lia.
    + apply NoDup_cons. split; [|apply IH].
      intros Hn. apply Hge in Hn. simpl in Hn. lia.
Qed.


(** * Rewriting preserves the invariants of the store *)

Lemma replace_wire_cut_node_raise nd s e s' :
  replace_wire_cut_node nd s = (Raise e, s') → s' = s.
Proof.
  unfold replace_wire_cut_node.
  destruct (pred_view _ _); [|by intros [= _ <-]].
  destruct (succ_view _ _); [|by intros [= _ <-]].
  destruct (node_order _ _); [|by intros [= _ <-]].
  destruct (remove_node _ _); [done | by intros [= _ <-]].
Qed.

Lemma replace_wire_cut_node_Ok_inv nd s u s' :
  replace_wire_cut_node nd s = (Ok u, s') →
  has_node (the_graph s) nd ∧ ∃ o, node_order (the_graph s) nd = Ok o.
Proof.
  unfold replace_wire_cut_node, pred_view.
  destruct (decide (has_node (the_graph s) nd)) as [Hin|]; [|done].
  destruct (succ_view _ _); [|done].
  destruct (node_order _ _) as [o|]; [|done]. eauto.
Qed.

Lemma filter_keys_nodup (l : list (node * option Z)) n :
  NoDup l.*1 → NoDup (filter (λ p, p.1 ≠ n) l).*1.
Proof.
  intros Hnd. eapply sublist_NoDup; [exact Hnd|].
  apply fmap_sublist, sublist_filter.
Qed.

Lemma replace_wire_cut_node_preserves nd s r s' :
  cut_inv s → replace_wire_cut_node nd s = (r, s') → cut_inv s'.
Proof.
  intros Hinv Hrun. destruct r as [[]|e].
  2:{ by rewrite (replace_wire_cut_node_raise _ _ _ _ Hrun). }
  destruct (replace_wire_cut_node_Ok_inv _ _ _ _ Hrun) as [Hin [o Ho]].
  destruct Hinv as [Hwf Hord Hf Hsimple Hmono].
  rewrite (replace_wire_cut_node_exact nd s o Hwf Hf Hin Ho) in Hrun
    by (intros w; apply Hsimple).
  injection Hrun as <-.
  set (g := the_graph s) in *. set (k := next_id s) in *.
  set (pow := predecessor_on_wire g nd). set (sow := successor_on_wire g nd).
  set (g' := Graph _ _).
  assert (Hold : ∀ m, m ≠ nd → has_node g m →
            has_node g' m ∧ node_order g' m = node_order g m).
  { intros m Hne Hm.
    assert (Hm' : m ∈ (filter (λ p : node * option Z, p.1 ≠ nd) (g_nodes g)).*1)
      by by apply has_node_filter_ne.
    split.
    - unfold has_node, g'. cbn [g_nodes without]. rewrite fmap_app, elem_of_app. by left.
    - unfold node_order, g'. cbn [g_nodes without].
      by rewrite node_attr_app_l, node_attr_filter_ne. }
  assert (Hnew : ∀ i w, wires nd !! i = Some w →
            (meas_node (k + 2 * i) w, Some o) ∈ g_nodes g' ∧
            (prep_node (k + 2 * i) w, Some o) ∈ g_nodes g').
  { intros i w Hi. unfold g'. cbn [g_nodes]. rewrite !elem_of_app.
    split; right; apply pairs_nodes_elem; exists i, w; auto. }
  assert (Hnd' : NoDup (g_nodes g').*1).
  { unfold g'. cbn [g_nodes without]. rewrite fmap_app. apply NoDup_app. split_and!.
    - apply filter_keys_nodup, Hwf.
    - intros n Hn Hn'. apply has_node_filter_ne in Hn as [_ Hn]. apply Hf in Hn.
      apply list_elem_of_fmap in Hn' as ([m a] & -> & Hn').
      apply pairs_nodes_elem in Hn' as (i & w & _ & _ & [->| ->]);
        simpl in Hn; fold k in Hn; lia.
    - apply pairs_nodes_nodup. }
  assert (Hp : ∀ w p, pow !! w = Some p → p ≠ nd ∧ has_node g p ∧
            ∃ a, node_order g p = Ok a ∧ a ≤ o).
  { intros w p Hp. apply predecessor_on_wire_edge in Hp. split_and!.
    - intros ->. by apply (Hsimple w nd).
    - by apply (wf_endpoints _ Hwf) in Hp as [? _].
    - destruct (Hmono _ Hp) as (a & b & Ha & Hb & Hab). simpl in *.
      exists a. split; [done|]. rewrite Ho in Hb. injection Hb as <-. done. }
  assert (Hq : ∀ w q, sow !! w = Some q → q ≠ nd ∧ has_node g q ∧
            ∃ b, node_order g q = Ok b ∧ o ≤ b).
  { intros w q Hq. apply successor_on_wire_edge in Hq. split_and!.
    - intros ->. by apply (Hsimple w nd).
    - by apply (wf_endpoints _ Hwf) in Hq as [_ ?].
    - destruct (Hmono _ Hq) as (a & b & Ha & Hb & Hab). simpl in *.
      exists b. split; [done|]. rewrite Ho in Ha. injection Ha as <-. done. }
  assert (Hedge : ∀ e, e ∈ g_edges g' →
     (e ∈ g_edges g ∧ e_src e ≠ nd ∧ e_dst e ≠ nd) ∨
     ∃ i w, wires nd !! i = Some w ∧
       (e = Edge (meas_node (k + 2 * i) w) (prep_node (k + 2 * i) w) w
        ∨ (∃ p, pow !! w = Some p ∧ e = Edge p (meas_node (k + 2 * i) w) w)
        ∨ (∃ q, sow !! w = Some q ∧ e = Edge (prep_node (k + 2 * i) w) q w))).
  { intros e. unfold g'. cbn [g_edges without]. rewrite elem_of_app.
    intros [He|He].
    - apply list_elem_of_filter in He. tauto.
    - apply pairs_edges_elem in He as (i & w & Hi & He).
      apply pair_edges_elem in He. right. by exists i, w. }
  constructor; cbn [the_graph next_id]; fold g'.
  - constructor; [done|]. intros e He.
    destruct (Hedge e He) as [(He' & Hs & Hd)|(i & w & Hi & Hcase)].
    + apply (wf_endpoints _ Hwf) in He' as [H1 H2].
      split; [by apply Hold | by apply Hold].
    + destruct (Hnew i w Hi) as [Hm Hr].
      assert (has_node g' (meas_node (k + 2 * i) w)) as Hm'
        by (apply list_elem_of_fmap; by eexists (_, _)).
      assert (has_node g' (prep_node (k + 2 * i) w)) as Hr'
        by (apply list_elem_of_fmap; by eexists (_, _)).
      destruct Hcase as [->|[(p & Hp' & ->)|(q & Hq' & ->)]]; cbn [e_src e_dst].
      * done.
      * split; [|done]. destruct (Hp _ _ Hp') as (? & ? & _). by apply Hold.
      * split; [done|]. destruct (Hq _ _ Hq') as (? & ? & _). by apply Hold.
  - intros n a. unfold g'. cbn [g_nodes without]. rewrite elem_of_app.
    intros [Hn|Hn].
    + apply list_elem_of_filter in Hn as [_ Hn]. by apply (Hord n).
    + apply pairs_nodes_elem in Hn as (_ & _ & _ & -> & _). by eexists.
  - intros n. unfold has_node. cbn [the_graph next_id]. unfold g'.
    cbn [g_nodes without]. rewrite fmap_app, elem_of_app. intros [Hn|Hn].
    + apply has_node_filter_ne in Hn as [_ Hn]. apply Hf in Hn. fold k in Hn. lia.
    + apply list_elem_of_fmap in Hn as ([m a] & -> & Hn).
      apply pairs_nodes_elem in Hn as (i & w & Hi & _ & Hm).
      apply lookup_lt_Some in Hi. destruct Hm as [->| ->]; simpl; lia.
  - intros w u He.
    destruct (Hedge _ He) as [(He' & _)|(i & w' & Hi & Hcase)].
    + by apply (Hsimple w u).
    + destruct Hcase as [Heq|[(p & Hp' & Heq)|(q & Hq' & Heq)]].
      * injection Heq as -> Heq _. discriminate Heq.
      * injection Heq as -> -> ->. destruct (Hp _ _ Hp') as (_ & Hb & _).
        apply Hf in Hb. simpl in Hb. fold k in Hb. lia.
      * injection Heq as Hu Hv Hw. subst u q w.
        destruct (Hq _ _ Hq') as (_ & Hb & _).
        apply Hf in Hb. simpl in Hb. fold k in Hb. lia.
  - intros e He.
    destruct (Hedge e He) as [(He' & Hs & Hd)|(i & w & Hi & Hcase)].
    + destruct (Hmono _ He') as (a & b & Ha & Hb & Hab). exists a, b.
      apply (wf_endpoints _ Hwf) in He' as [H1 H2].
      destruct (Hold _ Hs H1) as [_ ->]. destruct (Hold _ Hd H2) as [_ ->]. done.
    + destruct (Hnew i w Hi) as [Hm Hr].
      apply (node_order_elem _ _ _ Hnd') in Hm, Hr.
      destruct Hcase as [->|[(p & Hp' & ->)|(q & Hq' & ->)]]; cbn [e_src e_dst].
      * exists o, o. split_and!; [done | done | lia].
      * destruct (Hp _ _ Hp') as (Hne & Hb & a & Ha & Hle).
        exists a, o. destruct (Hold _ Hne Hb) as [_ ->]. done.
      * destruct (Hq _ _ Hq') as (Hne & Hb & b & Hb' & Hle).
        exists o, b. destruct (Hold _ Hne Hb) as [_ ->]. done.
Qed.

Lemma replace_each_preserves ops s r s' :
  cut_inv s → replace_each ops s = (r, s') → cut_inv s'.
Proof.
  revert s. induction ops as [|op ops IH]; intros s Hinv; simpl.
  - by intros [= _ <-].
  - destruct (is_wire_cut op); [|by apply IH].
    destruct (replace_wire_cut_node op s) as [[[]|e] s1] eqn:E.
    + apply IH. by eapply replace_wire_cut_node_preserves.
    + intros [= _ <-]. by eapply replace_wire_cut_node_preserves.
Qed.

Lemma replace_wire_cut_nodes_preserves s r s' :
  cut_inv s → replace_wire_cut_nodes s = (r, s') → cut_inv s'.
Proof. apply replace_each_preserves. Qed.

(** * [tape_to_graph] as a sequence of calls *)

Lemma bind_Ok {A B : Type} (f : A → result B) (a : A) : (Ok a ≫= f) = f a.
Proof. done. Qed.

Lemma foldM_app {A B : Type} (f : A → B → result A) a l1 l2 :
  foldM f a (l1 ++ l2) = (foldM f a l1 ≫= λ a', foldM f a' l2).
Proof.
  revert a. induction l1 as [|x l1 IH]; intros a; simpl; [done|].
  destruct (f a x) as [a'|e]; simpl; [apply IH | done].
Qed.

Lemma build_app st l1 l2 :
  build st (l1 ++ l2) = (build st l1 ≫= λ st', build st' l2).
Proof. apply foldM_app. Qed.

Lemma operation_schedule_cons k op ops :
  operation_schedule k (op :: ops) =
  (op, Z.of_nat k) :: operation_schedule (S k) ops.
Proof.
  unfold operation_schedule. rewrite imap_cons, Nat.add_0_r. f_equal.
  apply imap_ext. intros i x _. simpl. do 2 f_equal. lia.
Qed.

Lemma term_nodes_cons next o obs :
  term_nodes next (o :: obs) = Node next MeasurementProcess o :: term_nodes (S next) obs.
Proof.
  unfold term_nodes. rewrite imap_cons, Nat.add_0_r. f_equal.
  apply imap_ext. intros i x _. simpl. f_equal. lia.
Qed.

Lemma operation_step_eq g wl o next i op :
  operation_step (Builder g wl o next) (i, op) =
  (_add_operator_node g op (Z.of_nat i) wl ≫= λ st,
   Ok (Builder st.1 st.2 (Some (Z.of_nat i)) next)).
Proof.
  unfold operation_step. cbn [fst snd b_graph b_latest b_next].
  by destruct (_add_operator_node g op (Z.of_nat i) wl) as [[g' wl']|e].
Qed.

Lemma term_step_eq c g wl o next t :
  term_step c (Builder g wl o next) t =
  (_add_operator_node g (Node next MeasurementProcess t) c wl ≫= λ st,
   Ok (Builder st.1 st.2 o (S next))).
Proof.
  unfold term_step. cbn [b_graph b_latest b_next b_order].
  by destruct (_add_operator_node g _ c wl) as [[g' wl']|e].
Qed.

Lemma measurement_step_plain g wl c next m :
  m_terms m = None →
  measurement_step (Builder g wl (Some c) next) m =
  (_add_operator_node g (m_node m) c wl ≫= λ st,
   Ok (Builder st.1 st.2 (Some (c + 1)) next)).
Proof.
  intros Hm. unfold measurement_step. rewrite Hm.
  cbn [b_graph b_latest b_next b_order].
  by destruct (_add_operator_node g _ c wl) as [[g' wl']|e].
Qed.

Lemma measurement_step_tensor g wl c next m obs :
  m_terms m = Some obs →
  measurement_step (Builder g wl (Some c) next) m =
  foldM (term_step c) (Builder g wl (Some c) next) obs.
Proof. intros Hm. unfold measurement_step. by rewrite Hm. Qed.

Lemma operations_loop ops k g wl o next :
  foldM operation_step (Builder g wl o next) (imap (λ i x, ((k + i)%nat, x)) ops) =
  (build (g, wl) (operation_schedule k ops) ≫= λ st,
   Ok (Builder st.1 st.2
         (match ops with [] => o | _ => Some (Z.of_nat (k + length ops) - 1) end)
         next)).
Proof.
  revert k g wl o. induction ops as [|op ops IH]; intros k g wl o; [done|].
  rewrite operation_schedule_cons, imap_cons, Nat.add_0_r.
  unfold build. cbn [foldM fst snd]. rewrite operation_step_eq.
  destruct (_add_operator_node g op (Z.of_nat k) wl) as [[g' wl']|e]; [|done].
  rewrite !bind_Ok. cbn [fst snd].
  rewrite (imap_ext _ (λ i x, ((S k + i)%nat, x))) by (intros; simpl; f_equal; lia).
  rewrite IH. unfold build.
  destruct (foldM _ (g', wl') _) as [st|e]; [|done]. rewrite !bind_Ok.
  do 2 f_equal. destruct ops; simpl; f_equal; lia.
Qed.

Lemma terms_loop obs c g wl o next :
  foldM (term_step c) (Builder g wl o next) obs =
  (build (g, wl) ((λ n, (n, c)) <$> term_nodes next obs) ≫= λ st,
   Ok (Builder st.1 st.2 o (next + length obs))).
Proof.
  revert g wl next. induction obs as [|t obs IH]; intros g wl next.
  - simpl. by rewrite Nat.add_0_r.
  - rewrite term_nodes_cons, fmap_cons. unfold build. cbn [foldM fst snd].
    rewrite term_step_eq.
    destruct (_add_operator_node g _ c wl) as [[g' wl']|e]; [|done].
    rewrite !bind_Ok. cbn [fst snd]. rewrite IH. unfold build.
    destruct (foldM _ (g', wl') _) as [st|e]; [|done]. rewrite !bind_Ok.
    do 2 f_equal. simpl. lia.
Qed.

Lemma measurements_loop ms c g wl next :
  foldM measurement_step (Builder g wl (Some c) next) ms =
  (build (g, wl) (measurement_schedule ms c next) ≫= λ st,
   Ok (Builder st.1 st.2 (Some (order_after ms c)) (next + allocated ms))).
Proof.
  revert c g wl next. induction ms as [|m ms IH]; intros c g wl next.
  - simpl. by rewrite Nat.add_0_r.
  - cbn [foldM measurement_schedule order_after allocated].
    destruct (m_terms m) as [obs|] eqn:Hm.
    + rewrite (measurement_step_tensor _ _ _ _ _ obs Hm), terms_loop, build_app.
      destruct (build (g, wl) _) as [[g' wl']|e]; [|done].
      rewrite !bind_Ok. cbn [fst snd]. rewrite IH.
      destruct (build (g', wl') _) as [st|e]; [|done]. rewrite !bind_Ok.
      do 2 f_equal. lia.
    + rewrite (measurement_step_plain _ _ _ _ _ Hm). unfold build. cbn [foldM fst snd].
      destruct (_add_operator_node g (m_node m) c wl) as [[g' wl']|e]; [|done].
      rewrite !bind_Ok. cbn [fst snd]. rewrite IH. done.
Qed.

Lemma tape_to_graph_schedule tape next :
  operations tape ≠ [] →
  tape_to_graph tape next =
  (build (empty_graph, initial_latest tape) (schedule tape next) ≫= λ st,
   Ok (Store (next + allocated (measurements tape)) st.1)).
Proof.
  intros Hne. unfold tape_to_graph, enumerate, schedule.
  rewrite (operations_loop _ 0), build_app. fold (initial_latest tape).
  destruct (build _ (operation_schedule 0 _)) as [[g wl]|e]; [|done].
  rewrite !bind_Ok. cbn [b_order b_graph b_latest b_next fst snd].
  destruct (operations tape) as [|op ops] eqn:E; [done|].
  rewrite bind_Ok.
  replace (Z.of_nat (0 + length (op :: ops)) - 1 + 1)
    with (Z.of_nat (length (op :: ops))) by lia.
  rewrite measurements_loop.
  destruct (build (g, wl) _) as [st|e]; [|done]. by rewrite !bind_Ok.
Qed.

(** * One call of [_add_operator_node] *)

Lemma latest_after_lookup wl op ws w :
  latest_after wl op ws !! w =
  if decide (w ∈ ws) then Some (Some op) else wl !! w.
Proof. apply fill_lookup. Qed.

Lemma in_edges_insert wl op ws w x :
  w ∉ ws → in_edges (<[w := x]> wl) op ws = in_edges wl op ws.
Proof.
  unfold in_edges. induction ws as [|w' ws IH]; [done|].
  rewrite not_elem_of_cons. intros [Hne Hw]. cbn [omap list_omap].
  rewrite lookup_insert_ne by done. by rewrite <- IH.
Qed.

Lemma in_edges_elem wl op ws e :
  e ∈ in_edges wl op ws ↔
  ∃ w p, w ∈ ws ∧ wl !! w = Some (Some p) ∧ e = Edge p op w.
Proof.
  unfold in_edges. rewrite list_elem_of_omap. split.
  - intros (w & Hw & He). destruct (wl !! w) as [[p|]|] eqn:E; try done.
    injection He as <-. by exists w, p.
  - intros (w & p & Hw & Hl & ->). exists w. by rewrite Hl.
Qed.

Lemma link_wire_eq op g wl w latest :
  wl !! w = Some latest →
  link_wire op (g, wl) w =
  Ok (match latest with
      | Some parent_op => add_edge parent_op op w g
      | None => g
      end, <[w := Some op]> wl).
Proof. intros Hl. unfold link_wire. by rewrite Hl. Qed.

Lemma link_wires_exact op ws g wl :
  NoDup ws →
  (∀ w, w ∈ ws → is_Some (wl !! w)) →
  (∀ w p, w ∈ ws → wl !! w = Some (Some p) → has_node g p) →
  has_node g op →
  foldM (link_wire op) (g, wl) ws =
  Ok (Graph (g_nodes g) (g_edges g ++ in_edges wl op ws), latest_after wl op ws).
Proof.
  revert g wl. induction ws as [|w ws IH]; intros g wl Hnd Hdom Hpar Hop.
  - simpl. unfold in_edges. simpl. rewrite app_nil_r. by destruct g.
  - apply NoDup_cons in Hnd as [Hw Hnd].
    destruct (Hdom w (list_elem_of_here _ _)) as [latest Hl].
    cbn [foldM]. rewrite (link_wire_eq _ _ _ _ _ Hl), bind_Ok.
    assert (Hstep : match latest with
                    | Some parent_op => add_edge parent_op op w g
                    | None => g
                    end = Graph (g_nodes g) (g_edges g ++ in_edges wl op [w])).
    { unfold in_edges. cbn [omap list_omap]. rewrite Hl. destruct latest as [p|].
      - rewrite add_edge_present; [done| |done].
        eapply Hpar; [apply list_elem_of_here | done].
      - rewrite app_nil_r. by destruct g. }
    rewrite Hstep. rewrite IH; cbn [g_nodes g_edges]; try done.
    + unfold latest_after. cbn [foldl]. f_equal. f_equal.
      rewrite <- app_assoc. f_equal. rewrite in_edges_insert by done.
      unfold in_edges. cbn [omap list_omap]. by destruct (wl !! w) as [[?|]|].
    + intros w' Hw'. rewrite lookup_insert_ne by (intros ->; done).
      apply Hdom. by apply list_elem_of_further.
    + intros w' p Hw'. rewrite lookup_insert_ne by (intros ->; done).
      apply Hpar. by apply list_elem_of_further.
Qed.

Lemma add_operator_node_exact g wl op o :
  ¬ has_node g op → NoDup (wires op) →
  (∀ w, w ∈ wires op → is_Some (wl !! w)) →
  (∀ w p, wl !! w = Some (Some p) → has_node g p) →
  _add_operator_node g op o wl =
  Ok (Graph (g_nodes g ++ [(op, Some o)]) (g_edges g ++ in_edges wl op (wires op)),
      latest_after wl op (wires op)).
Proof.
  intros Hout Hnd Hdom Hpar. unfold _add_operator_node.
  rewrite add_node_fresh by done. rewrite link_wires_exact; try done.
  - intros w p _ Hp. unfold has_node. cbn [g_nodes]. rewrite fmap_app, elem_of_app.
    left. by eapply Hpar.
  - unfold has_node. cbn [g_nodes]. rewrite fmap_app, elem_of_app. right.
    by apply list_elem_of_singleton.
Qed.

(** The call keeps the invariant of the builder, for a node that is new
    to the graph and an order that is not below the orders given so far. *)
Lemma add_operator_node_inv wl0 c g wl op o :
  build_inv wl0 c (g, wl) →
  ¬ has_node g op → NoDup (wires op) →
  (∀ w, w ∈ wires op → is_Some (wl0 !! w)) →
  c ≤ o →
  ∃ st, _add_operator_node g op o wl = Ok st ∧
        build_inv wl0 o st ∧
        g_nodes st.1 = g_nodes g ++ [(op, Some o)].
Proof.
  intros [Hwf Hc Hb Hm Hl Hd] Hout Hnd Hws Hle. cbn [fst snd] in *.
  eexists. split.
  { apply add_operator_node_exact; try done.
    - intros w Hw. by apply Hd, Hws.
    - intros w p Hp. by apply Hl in Hp as [? _]. }
  split; [|done].
  set (g' := Graph _ _).
  assert (Hkeep : ∀ n, has_node g n → has_node g' n).
  { intros n Hn. unfold has_node, g'. cbn [g_nodes]. rewrite fmap_app, elem_of_app. by left. }
  assert (Hop : has_node g' op).
  { unfold has_node, g'. cbn [g_nodes]. rewrite fmap_app, elem_of_app. right.
    by apply list_elem_of_singleton. }
  assert (Hedge : ∀ e, e ∈ g_edges g' →
            e ∈ g_edges g ∨
            ∃ w p, w ∈ wires op ∧ wl !! w = Some (Some p) ∧ e = Edge p op w).
  { intros e. unfold g'. cbn [g_edges]. rewrite elem_of_app, in_edges_elem. tauto. }
  assert (Hnd' : NoDup (g_nodes g').*1).
  { unfold g'. cbn [g_nodes]. rewrite fmap_app. apply NoDup_app. split_and!.
    - apply Hwf.
    - intros n Hn Hn'. apply list_elem_of_singleton in Hn'. by subst.
    - apply NoDup_singleton. }
  assert (Hord : ∀ n, has_node g n → node_order g' n = node_order g n).
  { intros n Hn. unfold node_order, g'. cbn [g_nodes]. by rewrite node_attr_app_l. }
  assert (Hoo : node_order g' op = Ok o).
  { apply node_order_elem; [done|]. unfold g'. cbn [g_nodes].
    rewrite elem_of_app. right. by apply list_elem_of_singleton. }
  assert (Hends : ∀ e, e ∈ g_edges g → has_node g (e_src e) ∧ has_node g (e_dst e))
    by apply Hwf.
  constructor; cbn [fst snd]; fold g'.
  - constructor; [done|]. intros e He.
    destruct (Hedge e He) as [He'|(w & p & Hw & Hp & ->)].
    + apply Hends in He' as [? ?]. auto.
    + cbn [e_src e_dst]. split; [|done]. apply Hkeep. by apply Hl in Hp as [? _].
  - constructor.
    + intros w v u1 u2 H1 H2.
      destruct (Hedge _ H1) as [H1'|(w1 & p1 & Hw1 & Hp1 & E1)];
        destruct (Hedge _ H2) as [H2'|(w2 & p2 & Hw2 & Hp2 & E2)].
      * by eapply (chain_pred _ Hc).
      * simplify_eq. apply Hends in H1' as [_ ?]. done.
      * simplify_eq. apply Hends in H2' as [_ ?]. done.
      * simplify_eq. congruence.
    + intros w u v1 v2 H1 H2.
      destruct (Hedge _ H1) as [H1'|(w1 & p1 & Hw1 & Hp1 & E1)];
        destruct (Hedge _ H2) as [H2'|(w2 & p2 & Hw2 & Hp2 & E2)].
      * by eapply (chain_succ _ Hc).
      * simplify_eq. apply Hl in Hp2 as [_ Hno]. by apply Hno in H1'.
      * simplify_eq. apply Hl in Hp1 as [_ Hno]. by apply Hno in H2'.
      * by simplify_eq.
    + intros w u He. destruct (Hedge _ He) as [He'|(w1 & p1 & Hw1 & Hp1 & E1)].
      * by apply (chain_simple _ Hc) in He'.
      * simplify_eq. by apply Hl in Hp1 as [? _].
  - intros n a. unfold g'. cbn [g_nodes]. rewrite elem_of_app. intros [Hn|Hn].
    + destruct (Hb _ _ Hn) as (o' & -> & Hle'). exists o'. split; [done | lia].
    + apply list_elem_of_singleton in Hn. injection Hn as -> ->.
      exists o. split; [done | lia].
  - intros e He. destruct (Hedge e He) as [He'|(w & p & Hw & Hp & ->)].
    + destruct (Hm _ He') as (a & b & Ha & Hb' & Hab). exists a, b.
      apply Hends in He' as [? ?]. by rewrite !Hord.
    + cbn [e_src e_dst]. apply Hl in Hp as [Hp _].
      unfold has_node in Hp. apply list_elem_of_fmap in Hp as ([p' a] & -> & Hp).
      destruct (Hb _ _ Hp) as (o' & -> & Hle'). exists o', o. split_and!; [|done|lia].
      rewrite Hord.
      * apply node_order_elem; [apply Hwf | done].
      * apply list_elem_of_fmap. by exists (p', Some o').
  - intros w n. rewrite latest_after_lookup. destruct (decide (w ∈ wires op)) as [Hw|Hw].
    + intros [= <-]. split; [done|]. intros v He.
      destruct (Hedge _ He) as [He'|(w1 & p1 & Hw1 & Hp1 & E1)].
      * apply Hends in He' as [? _]. done.
      * simplify_eq. by apply Hl in Hp1 as [? _].
    + intros Hn. destruct (Hl _ _ Hn) as [Hin Hno]. split; [by apply Hkeep|].
      intros v He. destruct (Hedge _ He) as [He'|(w1 & p1 & Hw1 & Hp1 & E1)].
      * by apply Hno in He'.
      * by simplify_eq.
  - intros w Hw. rewrite latest_after_lookup. destruct (decide (w ∈ wires op)); [done|].
    by apply Hd.
Qed.

(** * Running a sequence of calls *)

Lemma build_ok wl0 calls st c :
  build_inv wl0 c st →
  NoDup ((g_nodes st.1).*1 ++ calls.*1) →
  ascending c calls.*2 →
  Forall (λ call : node * Z,
            NoDup (wires call.1) ∧ ∀ w, w ∈ wires call.1 → is_Some (wl0 !! w))
         calls →
  ∃ st' c', build st calls = Ok st' ∧ build_inv wl0 c' st' ∧
            g_nodes st'.1 = g_nodes st.1 ++ ((λ call, (call.1, Some call.2)) <$> calls).
Proof.
  revert st c. induction calls as [|[op o] calls IH]; intros [g wl] c Hinv Hnd Hasc Hws.
  - exists (g, wl), c. simpl. by rewrite app_nil_r.
  - cbn [fst snd fmap list_fmap] in *. destruct Hasc as [Hle Hasc].
    apply Forall_cons in Hws as [[Hwnd Hwdom] Hws]. cbn [fst] in *.
    assert (Hout : ¬ has_node g op).
    { apply NoDup_app in Hnd as (_ & Hdis & _). intros Hin.
      apply (Hdis _ Hin). apply list_elem_of_here. }
    destruct (add_operator_node_inv wl0 c g wl op o Hinv Hout Hwnd Hwdom Hle)
      as ([g1 wl1] & Hrun & Hinv1 & Hnodes). cbn [fst] in Hnodes.
    destruct (IH (g1, wl1) o Hinv1) as (st' & c' & Hrun' & Hinv' & Hnodes'); try done.
    { cbn [fst]. rewrite Hnodes, fmap_app, <- app_assoc. done. }
    exists st', c'. split_and!; [|done|].
    + unfold build in *. cbn [foldM fst snd]. by rewrite Hrun, bind_Ok.
    + rewrite Hnodes'. cbn [fst]. by rewrite Hnodes, <- app_assoc.
Qed.

(** ** The schedule of a well-formed tape *)

Lemma operation_schedule_nodes k ops : (operation_schedule k ops).*1 = ops.
Proof.
  revert k. induction ops as [|op ops IH]; intros k; [done|].
  rewrite operation_schedule_cons, fmap_cons. cbn [fst]. by rewrite IH.
Qed.

Lemma operation_schedule_lookup k ops i op :
  ops !! i = Some op →
  operation_schedule k ops !! i = Some (op, Z.of_nat (k + i)).
Proof. intros H. unfold operation_schedule. by rewrite list_lookup_imap, H. Qed.

Lemma ascending_weaken c d l : d ≤ c → ascending c l → ascending d l.
Proof. destruct l as [|x l]; simpl; [done|]. intros ? [? ?]. split; [lia | done]. Qed.

Lemma ascending_app c d l1 l2 :
  ascending c l1 → c ≤ d → (∀ x, x ∈ l1 → x ≤ d) → ascending d l2 →
  ascending c (l1 ++ l2).
Proof.
  revert c. induction l1 as [|x l1 IH]; intros c; simpl.
  - intros _ Hcd _ H2. by apply (ascending_weaken d).
  - intros [Hcx H1] Hcd Hall H2. split; [done|]. apply IH; try done.
    + apply Hall, list_elem_of_here.
    + intros y Hy. by apply Hall, list_elem_of_further.
Qed.

Lemma ascending_all_eq c l : (∀ x, x ∈ l → x = c) → ascending c l.
Proof.
  induction l as [|x l IH]; simpl; [done|]. intros Hall.
  rewrite (Hall x (list_elem_of_here _ _)). split; [lia|].
  apply IH. intros y Hy. by apply Hall, list_elem_of_further.
Qed.

Lemma operation_schedule_ascending k ops :
  ascending (Z.of_nat k) (operation_schedule k ops).*2 ∧
  ∀ x, x ∈ (operation_schedule k ops).*2 → x ≤ Z.of_nat (k + length ops).
Proof.
  revert k. induction ops as [|op ops IH]; intros k.
  - split; [done|]. intros x Hx. by apply elem_of_nil in Hx.
  - rewrite operation_schedule_cons, fmap_cons. cbn [snd ascending length].
    destruct (IH (S k)) as [Hasc Hall]. split_and!.
    + lia.
    + apply (ascending_weaken (Z.of_nat (S k))); [lia | done].
    + intros x. rewrite elem_of_cons. intros [->|Hx]; [lia|].
      apply Hall in Hx. lia.
Qed.

Lemma fmap_pair_fst {A B : Type} (c : B) (l : list A) : ((λ n, (n, c)) <$> l).*1 = l.
Proof. induction l as [|x l IH]; [done|]. rewrite !fmap_cons. cbn [fst]. by rewrite IH. Qed.

Lemma fmap_pair_snd {A B : Type} (c : B) (l : list A) x :
  x ∈ ((λ n, (n, c)) <$> l).*2 → x = c.
Proof.
  intros Hx. apply list_elem_of_fmap in Hx as ([n c'] & -> & Hx).
  by apply list_elem_of_fmap in Hx as (m & [= _ ->] & _).
Qed.

Lemma measurement_schedule_ascending ms c next :
  ascending c (measurement_schedule ms c next).*2.
Proof.
  revert c next. induction ms as [|m ms IH]; intros c next; [done|].
  cbn [measurement_schedule]. destruct (m_terms m) as [obs|].
  - rewrite fmap_app. apply (ascending_app c c); [|lia| |apply IH].
    + apply ascending_all_eq, fmap_pair_snd.
    + intros x Hx. apply fmap_pair_snd in Hx. lia.
  - rewrite fmap_cons. cbn [snd ascending]. split; [lia|].
    apply (ascending_weaken (c + 1)); [lia | apply IH].
Qed.

Lemma schedule_ascending tape next : ascending 0 (schedule tape next).*2.
Proof.
  unfold schedule. rewrite fmap_app.
  destruct (operation_schedule_ascending 0 (operations tape)) as [Hasc Hall].
  apply (ascending_app _ (Z.of_nat (length (operations tape)))); try done.
  - lia.
  - apply measurement_schedule_ascending.
Qed.

Lemma term_nodes_idents next obs :
  ident <$> term_nodes next obs = seq next (length obs).
Proof.
  revert next. induction obs as [|t obs IH]; intros next; [done|].
  rewrite term_nodes_cons, fmap_cons. cbn [ident length seq]. by rewrite IH.
Qed.

Lemma term_nodes_elem next obs n :
  n ∈ term_nodes next obs ↔
  ∃ j t, obs !! j = Some t ∧ n = Node (next + j) MeasurementProcess t.
Proof.
  unfold term_nodes. rewrite list_elem_of_lookup. split.
  - intros [j Hj]. rewrite list_lookup_imap in Hj.
    destruct (obs !! j) as [t|] eqn:E; [|done]. injection Hj as <-. by exists j, t.
  - intros (j & t & Hj & ->). exists j. by rewrite list_lookup_imap, Hj.
Qed.

(** A scheduled measurement node is a plain measurement of the tape or a
    term object allocated by the loop. *)
Lemma measurement_schedule_elem ms c next n :
  n ∈ (measurement_schedule ms c next).*1 →
  n ∈ plain_nodes ms ∨
  ∃ m obs t, m ∈ ms ∧ m_terms m = Some obs ∧ t ∈ obs ∧ wires n = t ∧
             (next ≤ ident n)%nat.
Proof.
  revert c next. induction ms as [|m ms IH]; intros c next.
  - intros H. by apply elem_of_nil in H.
  - cbn [measurement_schedule]. unfold plain_nodes. cbn [omap list_omap].
    fold (plain_nodes ms). destruct (m_terms m) as [obs|] eqn:Hm.
    + rewrite fmap_app, elem_of_app, fmap_pair_fst. intros [Hn|Hn].
      * apply term_nodes_elem in Hn as (j & t & Hj & ->). right.
        exists m, obs, t. split_and!; try done.
        -- apply list_elem_of_here.
        -- by eapply list_elem_of_lookup_2.
        -- simpl. lia.
      * apply IH in Hn as [Hn|(m' & obs' & t & ? & ? & ? & ? & ?)]; [by left|].
        right. exists m', obs', t. split_and!; try done; [|lia].
        by apply list_elem_of_further.
    + rewrite fmap_cons, elem_of_cons. cbn [fst]. intros [->|Hn].
      * left. apply list_elem_of_here.
      * apply IH in Hn as [Hn|(m' & obs' & t & ? & ? & ? & ? & ?)].
        -- left. by apply list_elem_of_further.
        -- right. exists m', obs', t. split_and!; try done.
           by apply list_elem_of_further.
Qed.

Lemma measurement_schedule_nodup ms c next :
  (∀ n, n ∈ plain_nodes ms → (ident n < next)%nat) →
  NoDup (ident <$> plain_nodes ms) →
  NoDup (ident <$> (measurement_schedule ms c next).*1).
Proof.
  revert c next. induction ms as [|m ms IH]; intros c next Hlt Hnd.
  - apply NoDup_nil_2.
  - revert Hlt Hnd. cbn [measurement_schedule]. unfold plain_nodes.
    cbn [omap list_omap]. fold (plain_nodes ms).
    destruct (m_terms m) as [obs|] eqn:Hm; intros Hlt Hnd.
    + rewrite !fmap_app, fmap_pair_fst, term_nodes_idents. apply NoDup_app.
      split_and!.
      * apply NoDup_seq.
      * intros x Hx Hx'. apply elem_of_seq in Hx.
        apply list_elem_of_fmap in Hx' as (n & -> & Hn).
        apply measurement_schedule_elem in Hn as [Hn|(_ & _ & _ & _ & _ & _ & _ & ?)].
        -- apply Hlt in Hn. lia.
        -- lia.
      * apply IH; [|done]. intros n Hn. apply Hlt in Hn. lia.
    + rewrite !fmap_cons in *. cbn [fst]. apply NoDup_cons in Hnd as [Hm' Hnd].
      apply NoDup_cons. split.
      * intros Hx. apply list_elem_of_fmap in Hx as (n & Heq & Hn).
        apply measurement_schedule_elem in Hn as [Hn|(_ & _ & _ & _ & _ & _ & _ & ?)].
        -- apply Hm'. rewrite Heq. by apply list_elem_of_fmap_2.
        -- specialize (Hlt (m_node m) (list_elem_of_here _ _)). lia.
      * apply IH; [|done]. intros n Hn. by apply Hlt, list_elem_of_further.
Qed.

Lemma schedule_nodes tape next :
  (schedule tape next).*1 =
  operations tape ++
  (measurement_schedule (measurements tape)
     (Z.of_nat (length (operations tape))) next).*1.
Proof. unfold schedule. by rewrite fmap_app, operation_schedule_nodes. Qed.

Lemma schedule_nodup tape next :
  wf_tape tape next → NoDup (schedule tape next).*1.
Proof.
  intros [Hnd Hlt _ _]. apply (NoDup_fmap_1 ident). rewrite schedule_nodes.
  unfold tape_nodes in *. rewrite fmap_app in *.
  apply NoDup_app in Hnd as (Hops & Hdis & Hplain).
  apply NoDup_app. split_and!; [done| |].
  - intros x Hx Hx'. apply list_elem_of_fmap in Hx' as (n & -> & Hn).
    apply measurement_schedule_elem in Hn as [Hn|(_ & _ & _ & _ & _ & _ & _ & Hge)].
    + apply (Hdis _ Hx). by apply list_elem_of_fmap_2.
    + apply list_elem_of_fmap in Hx as (op & Heq & Hop).
      assert (ident op < next)%nat by (apply Hlt; rewrite elem_of_app; by left). lia.
  - apply measurement_schedule_nodup; [|done].
    intros n Hn. apply Hlt. rewrite elem_of_app. by right.
Qed.

Lemma initial_latest_lookup tape w :
  w ∈ tape_wires tape → initial_latest tape !! w = Some None.
Proof.
  intros Hw. unfold initial_latest.
  destruct (list_to_map _ !! w) as [x|] eqn:E.
  - apply elem_of_list_to_map_2 in E.
    by apply list_elem_of_fmap in E as (w' & [= _ ->] & _).
  - apply not_elem_of_list_to_map in E. destruct E.
    rewrite <- list_fmap_compose. apply list_elem_of_fmap. by exists w.
Qed.

Lemma initial_latest_None tape w x : initial_latest tape !! w = Some x → x = None.
Proof.
  unfold initial_latest. intros E. apply elem_of_list_to_map_2 in E.
  by apply list_elem_of_fmap in E as (w' & [= _ ->] & _).
Qed.

Lemma schedule_wires tape next :
  wf_tape tape next →
  Forall (λ call : node * Z,
            NoDup (wires call.1) ∧
            ∀ w, w ∈ wires call.1 → is_Some (initial_latest tape !! w))
         (schedule tape next).
Proof.
  intros [_ _ Hw Ht]. apply Forall_forall. intros [n o] Hcall. cbn [fst].
  assert (Hn : n ∈ (schedule tape next).*1)
    by (apply list_elem_of_fmap; by exists (n, o)).
  rewrite schedule_nodes, elem_of_app in Hn.
  assert (NoDup (wires n) ∧ ∀ w, w ∈ wires n → w ∈ tape_wires tape) as [H1 H2].
  { destruct Hn as [Hn|Hn].
    - apply Hw. unfold tape_nodes. rewrite elem_of_app. by left.
    - apply measurement_schedule_elem in Hn as [Hn|(m & obs & t & ? & ? & ? & -> & _)].
      + apply Hw. unfold tape_nodes. rewrite elem_of_app. by right.
      + by eapply Ht. }
  split; [done|]. intros w Hw'. rewrite initial_latest_lookup; [by eexists | auto].
Qed.

Lemma initial_build_inv tape :
  build_inv (initial_latest tape) 0 (empty_graph, initial_latest tape).
Proof.
  constructor; cbn [fst snd empty_graph g_nodes g_edges].
  - constructor; [apply NoDup_nil_2|]. intros e He. by apply elem_of_nil in He.
  - constructor.
    + intros w v u1 u2 H. by apply elem_of_nil in H.
    + intros w u v1 v2 H. by apply elem_of_nil in H.
    + intros w u H. by apply elem_of_nil in H.
  - intros n a H. by apply elem_of_nil in H.
  - intros e He. by apply elem_of_nil in He.
  - intros w n H. by apply initial_latest_None in H.
  - done.
Qed.

(** On a well-formed tape with at least one operation the builder returns
    a graph whose nodes are the scheduled ones, in call order, each with
    the order it was called with, and which satisfies the loop invariant. *)
Lemma tape_to_graph_built tape next :
  wf_tape tape next → operations tape ≠ [] →
  ∃ g wl c,
    tape_to_graph tape next =
      Ok (Store (next + allocated (measurements tape)) g) ∧
    build_inv (initial_latest tape) c (g, wl) ∧
    g_nodes g = (λ call, (call.1, Some call.2)) <$> schedule tape next.
Proof.
  intros Hwf Hne.
  destruct (build_ok (initial_latest tape) (schedule tape next)
              (empty_graph, initial_latest tape) 0)
    as ([g wl] & c & Hrun & Hinv & Hnodes).
  - apply initial_build_inv.
  - by apply schedule_nodup.
  - apply schedule_ascending.
  - by apply schedule_wires.
  - exists g, wl, c. split_and!; [|done|done].
    by rewrite tape_to_graph_schedule, Hrun.
Qed.

(** ** Where a measurement lands in the schedule *)

Lemma allocated_app l1 l2 : allocated (l1 ++ l2) = (allocated l1 + allocated l2)%nat.
Proof. induction l1 as [|m l1 IH]; simpl; [done|]. rewrite IH. lia. Qed.

Lemma order_after_app l1 l2 c : order_after (l1 ++ l2) c = order_after l2 (order_after l1 c).
Proof. revert c. induction l1 as [|m l1 IH]; intros c; simpl; [done|]. apply IH. Qed.

Lemma measurement_schedule_app l1 l2 c next :
  measurement_schedule (l1 ++ l2) c next =
  measurement_schedule l1 c next ++
  measurement_schedule l2 (order_after l1 c) (next + allocated l1).
Proof.
  revert c next. induction l1 as [|m l1 IH]; intros c next.
  - simpl. by rewrite Nat.add_0_r.
  - cbn [app measurement_schedule order_after allocated].
    destruct (m_terms m) as [obs|].
    + rewrite IH, <- app_assoc. do 3 f_equal. lia.
    + rewrite IH. done.
Qed.

Lemma measurement_nodes_scheduled tape next pre m post n :
  measurements tape = pre ++ m :: post →
  n ∈ measurement_nodes m (next + allocated pre) →
  (n, order_after pre (Z.of_nat (length (operations tape)))) ∈ schedule tape next.
Proof.
  intros Hms Hn. unfold schedule. rewrite Hms, measurement_schedule_app.
  rewrite !elem_of_app. right; right. cbn [measurement_schedule].
  unfold measurement_nodes in Hn. destruct (m_terms m) as [obs|].
  - rewrite elem_of_app. left. apply list_elem_of_fmap. by exists n.
  - apply list_elem_of_singleton in Hn as ->. apply list_elem_of_here.
Qed.

Lemma operation_scheduled tape next i op :
  operations tape !! i = Some op → (op, Z.of_nat i) ∈ schedule tape next.
Proof.
  intros Hi. unfold schedule. rewrite elem_of_app. left.
  apply list_elem_of_lookup. exists i.
  by rewrite (operation_schedule_lookup 0 _ _ _ Hi).
Qed.

Lemma measurement_schedule_bound ms c next n :
  n ∈ (measurement_schedule ms c next).*1 →
  n ∈ plain_nodes ms ∨ (ident n < next + allocated ms)%nat.
Proof.
  revert c next. induction ms as [|m ms IH]; intros c next.
  - intros H. by apply elem_of_nil in H.
  - cbn [measurement_schedule allocated]. unfold plain_nodes. cbn [omap list_omap].
    fold (plain_nodes ms). destruct (m_terms m) as [obs|] eqn:Hm.
    + rewrite fmap_app, elem_of_app, fmap_pair_fst. intros [Hn|Hn].
      * apply term_nodes_elem in Hn as (j & t & Hj & ->). right.
        apply lookup_lt_Some in Hj. simpl. lia.
      * apply IH in Hn as [Hn|Hn]; [by left | right; lia].
    + rewrite fmap_cons, elem_of_cons. cbn [fst]. intros [->|Hn].
      * left. apply list_elem_of_here.
      * apply IH in Hn as [Hn|Hn]; [left; by apply list_elem_of_further | right; lia].
Qed.

(** ** What the built graph satisfies *)

Lemma tape_to_graph_empty tape next :
  operations tape = [] → tape_to_graph tape next = Raise UnboundLocalError.
Proof. intros H. unfold tape_to_graph. by rewrite H. Qed.

Lemma tape_to_graph_Ok_operations tape next s :
  tape_to_graph tape next = Ok s → operations tape ≠ [].
Proof. intros Hrun Hops. by rewrite (tape_to_graph_empty _ _ Hops) in Hrun. Qed.

Lemma scheduled_order tape next s n o :
  wf_tape tape next → tape_to_graph tape next = Ok s →
  (n, o) ∈ schedule tape next →
  has_node (the_graph s) n ∧ node_order (the_graph s) n = Ok o.
Proof.
  intros Hwf Hrun Hn.
  destruct (tape_to_graph_built tape next Hwf (tape_to_graph_Ok_operations _ _ _ Hrun))
    as (g & wl & c & Hrun' & Hinv & Hnodes).
  rewrite Hrun' in Hrun. injection Hrun as <-. cbn [the_graph].
  assert (Hin : (n, Some o) ∈ g_nodes g).
  { rewrite Hnodes. apply list_elem_of_fmap. by exists (n, o). }
  split.
  - apply list_elem_of_fmap. by exists (n, Some o).
  - apply node_order_elem; [|done]. apply (bi_wf _ _ _ Hinv).
Qed.

Lemma tape_to_graph_cut_inv tape next s :
  wf_tape tape next → tape_to_graph tape next = Ok s → cut_inv s.
Proof.
  intros Hwf Hrun.
  destruct (tape_to_graph_built tape next Hwf (tape_to_graph_Ok_operations _ _ _ Hrun))
    as (g & wl & c & Hrun' & Hinv & Hnodes).
  rewrite Hrun' in Hrun. injection Hrun as <-.
  destruct Hinv as [Hg Hc Hb Hm _ _]. cbn [fst snd] in *.
  constructor; cbn [the_graph next_id]; try done.
  - intros n a Hn. destruct (Hb _ _ Hn) as (o & -> & _). by eexists.
  - intros n Hn. cbn [the_graph next_id] in *. unfold has_node in Hn.
    assert (Hs : n ∈ (schedule tape next).*1).
    { rewrite Hnodes, <- list_fmap_compose in Hn.
      apply list_elem_of_fmap in Hn as (call & -> & Hcall).
      by apply list_elem_of_fmap_2. }
    rewrite schedule_nodes, elem_of_app in Hs.
    assert (Hold : n ∈ tape_nodes tape → (ident n < next + allocated (measurements tape))%nat).
    { intros H. apply (wt_allocated _ _ Hwf) in H. lia. }
    destruct Hs as [Hs|Hs].
    + apply Hold. unfold tape_nodes. rewrite elem_of_app. by left.
    + apply measurement_schedule_bound in Hs as [Hs|Hs]; [|done].
      apply Hold. unfold tape_nodes. rewrite elem_of_app. by right.
  - apply (chain_simple _ Hc).
Qed.

Lemma produced_cut_inv s : produced s → cut_inv s.
Proof.
  induction 1 as [tape next s Hwf Hrun|nd s r s' _ IH Hrun|s r s' _ IH Hrun].
  - by eapply tape_to_graph_cut_inv.
  - by eapply replace_wire_cut_node_preserves.
  - by eapply replace_wire_cut_nodes_preserves.
Qed.

(** * The builder: chain, orders *)

(** ** An edge leads to the next node on the wire *)

Lemma last_on_unique w ns a b : last_on w ns a → last_on w ns b → a = b.
Proof.
  intros (i & Hi & Hwi & Hafter_i) (j & Hj & Hwj & Hafter_j).
  destruct (Nat.lt_trichotomy i j) as [Hlt|[->|Hlt]].
  - destruct (Hafter_i j b Hlt Hj Hwj).
  - congruence.
  - destruct (Hafter_j i a Hlt Hi Hwi).
Qed.

Lemma last_on_elem w ns a : last_on w ns a → a ∈ ns ∧ w ∈ wires a.
Proof. intros (i & Hi & Hw & _). split; [by eapply list_elem_of_lookup_2 | done]. Qed.

Lemma last_on_snoc_in w ns op : w ∈ wires op → last_on w (ns ++ [op]) op.
Proof.
  intros Hw. exists (length ns). split_and!; [|done|].
  - by rewrite lookup_app_r, Nat.sub_diag by lia.
  - intros k x Hk Hx. apply lookup_lt_Some in Hx.
    rewrite length_app in Hx. simpl in Hx. lia.
Qed.

Lemma last_on_snoc_out w ns op a :
  w ∉ wires op → last_on w ns a → last_on w (ns ++ [op]) a.
Proof.
  intros Hw (i & Hi & Hwi & Hafter). exists i. split_and!; [|done|].
  - by apply lookup_app_l_Some.
  - intros k x Hk Hx. destruct (decide (k < length ns)%nat) as [Hlt|Hge].
    + rewrite lookup_app_l in Hx by done. by eapply Hafter.
    + rewrite lookup_app_r in Hx by lia.
      destruct (k - length ns)%nat; [|done]. by injection Hx as <-.
Qed.

Lemma next_on_snoc w ns op u v :
  next_on w (ns ++ [op]) u v ↔
  next_on w ns u v ∨ (v = op ∧ w ∈ wires op ∧ last_on w ns u).
Proof.
  split.
  - intros (i & j & Hij & Hi & Hj & Hwu & Hwv & Hbetween).
    assert (Hjlen : (j < length (ns ++ [op]))%nat) by by eapply lookup_lt_Some.
    rewrite length_app in Hjlen. simpl in Hjlen.
    destruct (decide (j < length ns)%nat) as [Hlt|Hge].
    + left. exists i, j. rewrite !lookup_app_l in * by lia. split_and!; try done.
      intros k x Hk Hx. apply (Hbetween k x Hk). rewrite lookup_app_l by lia. done.
    + right. assert (j = length ns) as -> by lia.
      rewrite lookup_app_r, Nat.sub_diag in Hj by lia. injection Hj as <-.
      rewrite lookup_app_l in Hi by lia. split_and!; [done | done |].
      exists i. split_and!; try done. intros k x Hk Hx.
      apply (Hbetween k x).
      * split; [done|]. by eapply lookup_lt_Some.
      * by apply lookup_app_l_Some.
  - intros [(i & j & Hij & Hi & Hj & Hwu & Hwv & Hbetween)|(-> & Hw & i & Hi & Hwi & Hafter)].
    + exists i, j. split_and!; try done; try by apply lookup_app_l_Some.
      intros k x Hk Hx. apply (Hbetween k x Hk).
      rewrite lookup_app_l in Hx; [done|]. apply lookup_lt_Some in Hj. lia.
    + exists i, (length ns). split_and!; try done.
      * by eapply lookup_lt_Some.
      * by apply lookup_app_l_Some.
      * by rewrite lookup_app_r, Nat.sub_diag by lia.
      * intros k x Hk Hx. rewrite lookup_app_l in Hx by lia.
        apply (Hafter k x); [lia | done].
Qed.

Lemma build_next_on (wl0 : gmap wire (option node)) calls
    (st st' : MultiDiGraph * gmap wire (option node)) :
  (∀ w x, st.2 !! w = Some x →
     match x with
     | Some n => last_on w (g_nodes st.1).*1 n
     | None => ∀ n, n ∈ (g_nodes st.1).*1 → w ∉ wires n
     end) →
  (∀ u v w, Edge u v w ∈ g_edges st.1 ↔ next_on w (g_nodes st.1).*1 u v) →
  (∀ w, is_Some (wl0 !! w) → is_Some (st.2 !! w)) →
  NoDup ((g_nodes st.1).*1 ++ calls.*1) →
  Forall (λ call : node * Z,
            NoDup (wires call.1) ∧ ∀ w, w ∈ wires call.1 → is_Some (wl0 !! w))
         calls →
  build st calls = Ok st' →
  ∀ u v w, Edge u v w ∈ g_edges st'.1 ↔ next_on w (g_nodes st'.1).*1 u v.
Proof.
  revert st. induction calls as [|[op o] calls IH];
    intros [g wl] Hlast Hedges Hdom Hnd Hws; cbn [fst snd] in *.
  - by intros [= <-].
  - apply Forall_cons in Hws as [[Hwnd Hwdom] Hws]. cbn [fst] in *.
    assert (Hout : ¬ has_node g op).
    { apply NoDup_app in Hnd as (_ & Hdis & _). intros Hin.
      apply (Hdis _ Hin). apply list_elem_of_here. }
    unfold build. cbn [foldM fst snd].
    rewrite add_operator_node_exact; try done.
    2:{ intros w Hw. by apply Hdom, Hwdom. }
    2:{ intros w p Hp. apply Hlast in Hp. by apply last_on_elem in Hp as [? _]. }
    rewrite bind_Ok. apply IH; cbn [fst snd g_nodes g_edges]; try done.
    + intros w x. rewrite latest_after_lookup, fmap_app.
      change ([(op, Some o)].*1) with [op].
      destruct (decide (w ∈ wires op)) as [Hw|Hw].
      * intros [= <-]. by apply last_on_snoc_in.
      * intros Hx. specialize (Hlast _ _ Hx). destruct x as [n|].
        -- by apply last_on_snoc_out.
        -- intros n. rewrite elem_of_app, list_elem_of_singleton.
           intros [?| ->]; [by apply Hlast | done].
    + intros u v w. rewrite elem_of_app, fmap_app.
      change ([(op, Some o)].*1) with [op].
      rewrite next_on_snoc, Hedges, in_edges_elem.
      split; (intros [?|H]; [by left | right]).
      * destruct H as (w' & p & Hw' & Hp & [= -> -> ->]).
        split_and!; [done | done |]. by apply (Hlast _ _ Hp).
      * destruct H as (-> & Hw & Hu). exists w, u. split_and!; [done | | done].
        destruct (Hdom w (Hwdom w Hw)) as [x Hx]. rewrite Hx. f_equal.
        specialize (Hlast _ _ Hx). destruct x as [n|].
        -- f_equal. by eapply last_on_unique.
        -- apply last_on_elem in Hu as [Hu1 Hu2]. by destruct (Hlast u Hu1).
    + intros w Hw. rewrite latest_after_lookup.
      destruct (decide (w ∈ wires op)); [by eexists | by apply Hdom].
    + by rewrite fmap_app, <- app_assoc.
Qed.

(** ** The edges of a wire form one chain *)

Lemma last_on_snoc_inv w ns op a :
  last_on w (ns ++ [op]) a →
  if decide (w ∈ wires op) then a = op else last_on w ns a.
Proof.
  intros (i & Hi & Hw & Hafter).
  assert (Hlen : (i < length (ns ++ [op]))%nat) by by eapply lookup_lt_Some.
  rewrite length_app in Hlen. cbn in Hlen.
  destruct (decide (i < length ns)%nat) as [Hlt|Hge].
  - rewrite lookup_app_l in Hi by lia.
    assert (Hop : w ∉ wires op).
    { apply (Hafter (length ns) op Hlt).
      by rewrite lookup_app_r, Nat.sub_diag by lia. }
    rewrite decide_False by done. exists i. split_and!; try done.
    intros k x Hk Hx. apply (Hafter k x Hk). by apply lookup_app_l_Some.
  - assert (i = length ns) as -> by lia.
    rewrite lookup_app_r, Nat.sub_diag in Hi by lia. injection Hi as <-.
    by rewrite decide_True.
Qed.

Lemma filter_snoc_in w (ns : list node) op :
  w ∈ wires op →
  filter (λ n, w ∈ wires n) (ns ++ [op]) = filter (λ n, w ∈ wires n) ns ++ [op].
Proof. intros Hw. rewrite filter_app, filter_cons_True by done. done. Qed.

Lemma filter_snoc_out w (ns : list node) op :
  w ∉ wires op →
  filter (λ n, w ∈ wires n) (ns ++ [op]) = filter (λ n, w ∈ wires n) ns.
Proof.
  intros Hw. rewrite filter_app, filter_cons_False by done.
  by rewrite filter_nil, app_nil_r.
Qed.

Lemma last_on_filter w ns u :
  last_on w ns u ↔ last (filter (λ n, w ∈ wires n) ns) = Some u.
Proof.
  revert u. induction ns as [|op ns IH] using rev_ind; intros u.
  - split; [by intros (i & Hi & _) | done].
  - destruct (decide (w ∈ wires op)) as [Hw|Hw].
    + rewrite filter_snoc_in, last_snoc by done. split.
      * intros H. apply last_on_snoc_inv in H.
        rewrite decide_True in H by done. by subst.
      * intros [= <-]. by apply last_on_snoc_in.
    + rewrite filter_snoc_out by done. rewrite <- IH. split.
      * intros H. apply last_on_snoc_inv in H.
        by rewrite decide_False in H by done.
      * by apply last_on_snoc_out.
Qed.

Lemma follows_snoc {A : Type} (l : list A) x u v :
  follows (l ++ [x]) u v ↔ follows l u v ∨ (last l = Some u ∧ v = x).
Proof.
  unfold follows. split.
  - intros (i & Hi & Hj).
    assert (Hlen : (S i < length (l ++ [x]))%nat) by by eapply lookup_lt_Some.
    rewrite length_app in Hlen. cbn in Hlen.
    destruct (decide (S i < length l)%nat) as [Hlt|Hge].
    + left. exists i. by rewrite !lookup_app_l in * by lia.
    + right. assert (Hi' : length l = S i) by lia.
      rewrite lookup_app_l in Hi by lia.
      rewrite lookup_app_r in Hj by lia.
      rewrite Hi', Nat.sub_diag in Hj. injection Hj as <-.
      split; [|done]. by rewrite last_lookup, Hi'.
  - intros [(i & Hi & Hj)|[Hl ->]].
    + exists i. split; by apply lookup_app_l_Some.
    + rewrite last_lookup in Hl.
      assert (Hlen : (0 < length l)%nat).
      { apply lookup_lt_Some in Hl. destruct l; cbn in *; lia. }
      exists (pred (length l)). split.
      * by apply lookup_app_l_Some.
      * rewrite lookup_app_r by lia.
        by replace (S (pred (length l)) - length l)%nat with 0%nat by lia.
Qed.

Lemma next_on_follows w ns u v :
  next_on w ns u v ↔ follows (filter (λ n, w ∈ wires n) ns) u v.
Proof.
  induction ns as [|op ns IH] using rev_ind.
  - split; [by intros (i & j & _ & Hi & _) | by intros (i & Hi & _)].
  - rewrite next_on_snoc, IH, last_on_filter.
    destruct (decide (w ∈ wires op)) as [Hw|Hw].
    + rewrite filter_snoc_in, follows_snoc by done. tauto.
    + rewrite filter_snoc_out by done. tauto.
Qed.

Lemma in_edges_nodup wl op ws : NoDup ws → NoDup (in_edges wl op ws).
Proof.
  induction 1 as [|w ws Hw Hnd IH]; [by apply NoDup_nil|].
  unfold in_edges. cbn [omap list_omap].
  destruct (wl !! w) as [[p|]|]; try done.
  apply NoDup_cons. split; [|done].
  intros Hin. apply in_edges_elem in Hin as (w' & p' & Hw' & _ & [= _ ->]).
  done.
Qed.

(** No edge is added twice. *)
Lemma build_edges_nodup (wl0 : gmap wire (option node)) calls
    (st st' : MultiDiGraph * gmap wire (option node)) :
  (∀ e, e ∈ g_edges st.1 → has_node st.1 (e_dst e)) →
  (∀ w p, st.2 !! w = Some (Some p) → has_node st.1 p) →
  NoDup (g_edges st.1) →
  (∀ w, is_Some (wl0 !! w) → is_Some (st.2 !! w)) →
  NoDup ((g_nodes st.1).*1 ++ calls.*1) →
  Forall (λ call : node * Z,
            NoDup (wires call.1) ∧ ∀ w, w ∈ wires call.1 → is_Some (wl0 !! w))
         calls →
  build st calls = Ok st' →
  NoDup (g_edges st'.1).
Proof.
  revert st. induction calls as [|[op o] calls IH];
    intros [g wl] Hdst Hlatest Hnd Hdom Hnodes Hws; cbn [fst snd] in *.
  - by intros [= <-].
  - apply Forall_cons in Hws as [[Hwnd Hwdom] Hws]. cbn [fst] in *.
    assert (Hout : ¬ has_node g op).
    { apply NoDup_app in Hnodes as (_ & Hdis & _). intros Hin.
      apply (Hdis _ Hin). apply list_elem_of_here. }
    unfold build. cbn [foldM fst snd].
    rewrite add_operator_node_exact; try done.
    2:{ intros w Hw. by apply Hdom, Hwdom. }
    rewrite bind_Ok. apply IH; cbn [fst snd g_nodes g_edges]; try done.
    + intros e. rewrite elem_of_app, in_edges_elem. unfold has_node.
      cbn [g_nodes]. rewrite fmap_app, elem_of_app.
      intros [He|(w & p & _ & _ & ->)].
      * left. by apply Hdst.
      * right. apply list_elem_of_here.
    + intros w p. rewrite latest_after_lookup. unfold has_node.
      cbn [g_nodes]. rewrite fmap_app, elem_of_app.
      destruct (decide (w ∈ wires op)).
      * intros [= <-]. right. apply list_elem_of_here.
      * intros Hp. left. by eapply Hlatest.
    + apply NoDup_app. split_and!; [done | | by apply in_edges_nodup].
      intros e He Hin. apply in_edges_elem in Hin as (w & p & _ & _ & ->).
      apply Hout. by apply (Hdst _ He).
    + intros w Hw. rewrite latest_after_lookup.
      destruct (decide (w ∈ wires op)); [by eexists | by apply Hdom].
    + by rewrite fmap_app, <- app_assoc.
Qed.

(** Orders do not decrease along a list of nodes joined by edges. *)
Lemma follows_ordered g (l : list node) w :
  order_monotone g →
  (∀ u v, follows l u v → Edge u v w ∈ g_edges g) →
  (∀ n, n ∈ l → ∃ o, node_order g n = Ok o) →
  ∀ i j u v, (i ≤ j)%nat → l !! i = Some u → l !! j = Some v →
    ∃ a b, node_order g u = Ok a ∧ node_order g v = Ok b ∧ a ≤ b.
Proof.
  intros Hmono Hedge Hord i j u v Hij Hi. revert v.
  induction Hij as [|j Hij IH]; intros v Hj.
  - rewrite Hi in Hj. injection Hj as <-.
    destruct (Hord u) as [o Ho]; [by eapply list_elem_of_lookup_2|].
    exists o, o. split_and!; [done | done | lia].
  - destruct (lookup_lt_is_Some_2 l j) as [x Hx].
    { apply lookup_lt_Some in Hj. lia. }
    destruct (IH x Hx) as (a & b & Ha & Hb & Hab).
    destruct (Hmono (Edge x v w)) as (b' & c & Hb' & Hc & Hbc).
    { apply Hedge. by exists j. }
    cbn [e_src e_dst] in *. rewrite Hb in Hb'. injection Hb' as <-.
    exists a, c. split_and!; [done | done | lia].
Qed.

(** In a graph that [tape_to_graph] returns, the edges of every wire
    form one chain. *)
Lemma tape_to_graph_single_chain tape next s :
  wf_tape tape next → tape_to_graph tape next = Ok s →
  ∀ w, single_chain (the_graph s) w.
Proof.
  intros Hwf Hrun w.
  pose proof (tape_to_graph_Ok_operations _ _ _ Hrun) as Hne.
  destruct (tape_to_graph_built tape next Hwf Hne) as (g & wl & c & Hrun' & Hinv & _).
  pose proof Hrun as Hsched.
  rewrite (tape_to_graph_schedule _ _ Hne) in Hsched.
  destruct (build _ _) as [st|e] eqn:E; [|done]. injection Hsched as <-.
  rewrite Hrun' in Hrun. injection Hrun as Hg. cbn [the_graph] in *.
  assert (Hnext : ∀ u v w, Edge u v w ∈ g_edges st.1 ↔
                           next_on w (g_nodes st.1).*1 u v).
  { apply (build_next_on (initial_latest tape) (schedule tape next)
             (empty_graph, initial_latest tape));
      cbn [fst snd empty_graph g_nodes g_edges]; try done.
    - intros w' x Hx. apply initial_latest_None in Hx as ->.
      intros n Hn. by apply elem_of_nil in Hn.
    - intros u v w'. split.
      + intros H. by apply elem_of_nil in H.
      + by intros (i & j & _ & Hi & _).
    - by apply schedule_nodup.
    - by apply schedule_wires. }
  assert (Honce : NoDup (g_edges st.1)).
  { apply (build_edges_nodup (initial_latest tape) (schedule tape next)
             (empty_graph, initial_latest tape));
      cbn [fst snd empty_graph g_nodes g_edges]; try done.
    - intros e He. by apply elem_of_nil in He.
    - intros w' p Hp. by apply initial_latest_None in Hp.
    - apply NoDup_nil_2.
    - by apply schedule_nodup.
    - by apply schedule_wires. }
  subst g. pose proof (bi_wf _ _ _ Hinv) as Hgwf. cbn [fst] in *.
  assert (Hedges : ∀ u v, Edge u v w ∈ g_edges st.1 ↔
                          follows (wire_nodes st.1 w) u v).
  { intros u v. rewrite Hnext. apply next_on_follows. }
  split.
  - apply NoDup_filter, (wf_nodup _ Hgwf).
  - exact Hedges.
  - by apply NoDup_filter.
  - apply (follows_ordered st.1 _ w).
    + apply (bi_monotone _ _ _ Hinv).
    + intros u v. apply Hedges.
    + intros n Hn. apply list_elem_of_filter in Hn as [_ Hn].
      apply list_elem_of_fmap in Hn as ([n' a] & -> & Hn).
      destruct (bi_bound _ _ _ Hinv _ _ Hn) as (o & -> & _).
      exists o. by apply node_order_elem; [apply (wf_nodup _ Hgwf)|].
Qed.

(** C1: on a well-formed tape [tape_to_graph] returns a graph as soon as
    the tape has an operation, and in every graph it returns the edges of
    each wire form a single chain consistent with [order].  For every
    wire [w], the edges labelled [w] are exactly the steps from one node
    acting on [w] to the next, in the order in which the nodes were
    added; these nodes are pairwise distinct, no edge is there twice, and
    [order] does not decrease along the chain.  So no node has two
    distinct predecessors or two distinct successors on a wire (and no
    node follows itself), and [order] does not decrease along an edge. *)
Theorem tape_to_graph_chain tape next :
  wf_tape tape next →
  (operations tape ≠ [] → ∃ s, tape_to_graph tape next = Ok s) ∧
  ∀ s, tape_to_graph tape next = Ok s →
    (∀ w, single_chain (the_graph s) w) ∧
    chain_invariant (the_graph s) ∧ order_monotone (the_graph s).
Proof.
  intros Hwf. split.
  - intros Hne. destruct (tape_to_graph_built tape next Hwf Hne) as (g & _ & _ & Hrun & _).
    by eexists.
  - intros s Hrun. split; [by eapply tape_to_graph_single_chain|].
    destruct (tape_to_graph_built tape next Hwf (tape_to_graph_Ok_operations _ _ _ Hrun))
      as (g & wl & c & Hrun' & Hinv & _).
    rewrite Hrun' in Hrun. injection Hrun as <-.
    split; [apply (bi_chain _ _ _ Hinv) | apply (bi_monotone _ _ _ Hinv)].
Qed.

(** C4: in every graph built by [tape_to_graph] from a well-formed tape,
    and in every graph obtained from it by [replace_wire_cut_node] and
    [replace_wire_cut_nodes], both endpoints of every edge carry an order
    and the order of the source is at most the order of the target. *)
Theorem produced_order_monotone s :
  produced s → order_monotone (the_graph s).
Proof. intros H. apply produced_cut_inv in H. apply (ci_monotone _ H). Qed.

(** C8: with an empty operation sequence [tape_to_graph] raises: the loop
    variable [order] is unbound when [order += 1] runs, whatever the
    measurements are. *)
Theorem tape_to_graph_no_operations tape next :
  operations tape = [] → tape_to_graph tape next = Raise UnboundLocalError.
Proof. apply tape_to_graph_empty. Qed.

Lemma term_nodes_nodup next obs : NoDup (term_nodes next obs).
Proof. apply (NoDup_fmap_1 ident). rewrite term_nodes_idents. apply NoDup_seq. Qed.

(** C5: on a well-formed tape with at least one operation,
    [tape_to_graph] returns a graph in which the operation at position [i]
    has order [i]; the nodes of the first measurement have order
    [length operations], one more than the order of the last operation; and
    the terms of a tensor measurement are distinct nodes of the graph, one
    per term and on that term's wires, all with the same order. *)
Theorem tape_to_graph_orders tape next :
  wf_tape tape next → operations tape ≠ [] →
  ∃ s, tape_to_graph tape next = Ok s ∧
    (∀ i op, operations tape !! i = Some op →
       node_order (the_graph s) op = Ok (Z.of_nat i)) ∧
    (∀ m ms n op, measurements tape = m :: ms →
       n ∈ measurement_nodes m next →
       last (operations tape) = Some op →
       ∃ o_op o_n,
         node_order (the_graph s) op = Ok o_op ∧
         node_order (the_graph s) n = Ok o_n ∧
         o_n = Z.of_nat (length (operations tape)) ∧ o_op < o_n) ∧
    (∀ pre m post obs, measurements tape = pre ++ m :: post →
       m_terms m = Some obs →
       let ns := term_nodes (next + allocated pre) obs in
       length ns = length obs ∧ NoDup ns ∧
       (∀ j t, obs !! j = Some t →
          ∃ n, ns !! j = Some n ∧ class_of n = MeasurementProcess ∧ wires n = t) ∧
       (∀ n, n ∈ ns → has_node (the_graph s) n) ∧
       ∃ c, ∀ n, n ∈ ns → node_order (the_graph s) n = Ok c).
Proof.
  intros Hwf Hne.
  destruct (tape_to_graph_built tape next Hwf Hne) as (g & _ & _ & Hrun & _).
  eexists. split; [exact Hrun|].
  pose proof (λ n o, scheduled_order tape next _ n o Hwf Hrun) as Hsched.
  cbn [the_graph] in Hsched. split_and!.
  - intros i op Hi. by apply Hsched, operation_scheduled.
  - intros m ms n op Hms Hn Hlast.
    rewrite last_lookup in Hlast.
    assert (length (operations tape) ≠ 0%nat) by by destruct (operations tape).
    exists (Z.of_nat (pred (length (operations tape)))),
           (Z.of_nat (length (operations tape))).
    split_and!; [| |done|lia].
    + by apply Hsched, operation_scheduled.
    + apply Hsched.
      apply (measurement_nodes_scheduled tape next [] m ms n Hms).
      simpl. by rewrite Nat.add_0_r.
  - intros pre m post obs Hms Hm ns.
    assert (Hall : ∀ n, n ∈ ns →
      has_node g n ∧
      node_order g n = Ok (order_after pre (Z.of_nat (length (operations tape))))).
    { intros n Hn. apply Hsched.
      apply (measurement_nodes_scheduled tape next pre m post n Hms).
      unfold measurement_nodes. by rewrite Hm. }
    split_and!.
    + unfold ns, term_nodes. apply length_imap.
    + apply term_nodes_nodup.
    + intros j t Hj. eexists. unfold ns, term_nodes.
      rewrite list_lookup_imap, Hj. done.
    + intros n Hn. by apply Hall.
    + eexists. intros n Hn. by apply Hall.
Qed.

(** C9: the order counter is not advanced after a tensor measurement: on
    a well-formed tape where a tensor measurement is directly followed by
    another measurement, the nodes of the following measurement get the
    same order as the terms of the tensor. *)
Theorem tape_to_graph_order_after_tensor tape next pre m obs m' post :
  wf_tape tape next → operations tape ≠ [] →
  measurements tape = pre ++ m :: m' :: post →
  m_terms m = Some obs →
  ∃ s c, tape_to_graph tape next = Ok s ∧
    (∀ n, n ∈ term_nodes (next + allocated pre) obs →
       node_order (the_graph s) n = Ok c) ∧
    (∀ n, n ∈ measurement_nodes m' (next + allocated pre + length obs) →
       node_order (the_graph s) n = Ok c).
Proof.
  intros Hwf Hne Hms Hm.
  destruct (tape_to_graph_built tape next Hwf Hne) as (g & _ & _ & Hrun & _).
  exists (Store (next + allocated (measurements tape)) g),
         (order_after pre (Z.of_nat (length (operations tape)))).
  split; [done|].
  pose proof (λ n o, scheduled_order tape next _ n o Hwf Hrun) as Hsched.
  cbn [the_graph] in Hsched. split.
  - intros n Hn. apply Hsched.
    apply (measurement_nodes_scheduled tape next pre m (m' :: post) n Hms).
    unfold measurement_nodes. by rewrite Hm.
  - intros n Hn.
    assert (Hms' : measurements tape = (pre ++ [m]) ++ m' :: post)
      by by rewrite <- app_assoc.
    pose proof (measurement_nodes_scheduled tape next (pre ++ [m]) m' post n Hms') as H.
    rewrite allocated_app, order_after_app in H. cbn [allocated order_after] in H.
    rewrite Hm, Nat.add_0_r, Nat.add_assoc in H. by apply Hsched, H.
Qed.

(** * Checking the hypotheses on concrete data *)

Lemma graph_wf_intro g :
  NoDup (g_nodes g).*1 →
  Forall (λ e, has_node g (e_src e) ∧ has_node g (e_dst e)) (g_edges g) →
  graph_wf g.
Proof.
  intros Hnd Hall. constructor; [done|]. by apply Forall_forall.
Qed.

Lemma all_ordered_intro g :
  Forall (λ p : node * option Z, is_Some p.2) (g_nodes g) → all_ordered g.
Proof.
  intros Hall n a Hn. by apply (proj1 (Forall_forall _ _) Hall (n, a)).
Qed.

Lemma store_fresh_intro s :
  Forall (λ p : node * option Z, (ident p.1 < next_id s)%nat)
         (g_nodes (the_graph s)) →
  store_fresh s.
Proof.
  intros Hall n Hn. apply list_elem_of_fmap in Hn as (p & -> & Hp).
  by apply (proj1 (Forall_forall _ _) Hall p).
Qed.

Lemma chain_invariant_intro g :
  Forall (λ e1, e_src e1 ≠ e_dst e1 ∧
     Forall (λ e2, e_wire e1 = e_wire e2 →
                   (e_dst e1 = e_dst e2 → e_src e1 = e_src e2) ∧
                   (e_src e1 = e_src e2 → e_dst e1 = e_dst e2))
            (g_edges g))
    (g_edges g) →
  chain_invariant g.
Proof.
  intros Hall. pose proof (proj1 (Forall_forall _ _) Hall) as H.
  constructor.
  - intros w v u1 u2 H1 H2. destruct (H _ H1) as [_ H1'].
    by apply (proj1 (Forall_forall _ _) H1' _ H2).
  - intros w u v1 v2 H1 H2. destruct (H _ H1) as [_ H1'].
    by apply (proj1 (Forall_forall _ _) H1' _ H2).
  - intros w u He. by destruct (H _ He) as [Hne _].
Qed.

Lemma wf_tape_intro tape next :
  NoDup (ident <$> tape_nodes tape) →
  Forall (λ n, (ident n < next)%nat ∧ NoDup (wires n) ∧
               Forall (λ w, w ∈ tape_wires tape) (wires n))
         (tape_nodes tape) →
  Forall (λ m, Forall (λ o, NoDup o ∧ Forall (λ w, w ∈ tape_wires tape) o)
                      (default [] (m_terms m)))
         (measurements tape) →
  wf_tape tape next.
Proof.
  intros Hnd Hn Hm.
  pose proof (proj1 (Forall_forall _ _) Hn) as Hn'.
  pose proof (proj1 (Forall_forall _ _) Hm) as Hm'.
  constructor; [done|..].
  - intros n H. by apply Hn'.
  - intros n H. destruct (Hn' _ H) as (_ & ? & Hw). split; [done|].
    by apply Forall_forall.
  - intros m obs o Hin Hobs Ho. specialize (Hm' _ Hin). cbv beta in Hm'. rewrite Hobs in Hm'.
    destruct (proj1 (Forall_forall _ _) Hm' _ Ho) as [? Hw]. split; [done|].
    by apply Forall_forall.
Qed.

Ltac by_evaluation := apply (bool_decide_unpack _); vm_compute; exact I.

Lemma ex_store_wf : graph_wf (the_graph ex_store).
Proof. apply graph_wf_intro; by_evaluation. Defined.

Lemma ex_store_ordered : all_ordered (the_graph ex_store).
Proof. apply all_ordered_intro; by_evaluation. Defined.

Lemma ex_store_fresh : store_fresh ex_store.
Proof. apply store_fresh_intro; by_evaluation. Defined.

Lemma ex_store_chain : chain_invariant (the_graph ex_store).
Proof. apply chain_invariant_intro; by_evaluation. Defined.

Lemma ex_store_marker : has_node (the_graph ex_store) ex_M.
Proof. by_evaluation. Defined.

Lemma ex_tape_wf : wf_tape ex_tape 5.
Proof. apply wf_tape_intro; by_evaluation. Defined.

Lemma ex_tape_operations : operations ex_tape ≠ [].
Proof. discriminate. Defined.

Lemma ex_built_eq : tape_to_graph ex_tape 5 = Ok ex_built.
Proof. vm_compute. reflexivity. Defined.

Lemma ex_cut_eq : replace_wire_cut_nodes ex_built = (Ok tt, ex_cut).
Proof. vm_compute. reflexivity. Defined.

(** * The theorems on the example data *)

Lemma tape_to_graph_chain_witness :
  wf_tape ex_tape 5 ∧
  (operations ex_tape ≠ [] → ∃ s, tape_to_graph ex_tape 5 = Ok s) ∧
  ∀ s, tape_to_graph ex_tape 5 = Ok s →
    (∀ w, single_chain (the_graph s) w) ∧
    chain_invariant (the_graph s) ∧ order_monotone (the_graph s).
Proof.
  split; [apply wf_tape_intro; by_evaluation|].
  apply (tape_to_graph_chain ex_tape 5). apply wf_tape_intro; by_evaluation.
Defined.

Lemma replace_wire_cut_node_pair_witness :
  (graph_wf (the_graph ex_store) ∧ all_ordered (the_graph ex_store) ∧
   store_fresh ex_store ∧ chain_invariant (the_graph ex_store) ∧
   has_node (the_graph ex_store) ex_M ∧ 0%nat ∈ wires ex_M) ∧
  ∃ s' meas prep,
    replace_wire_cut_node ex_M ex_store = (Ok tt, s') ∧
    class_of meas = MeasureNode ∧ wires meas = [0%nat] ∧
    class_of prep = PrepareNode ∧ wires prep = [0%nat] ∧
    ¬ has_node (the_graph ex_store) meas ∧ ¬ has_node (the_graph ex_store) prep ∧
    has_node (the_graph s') meas ∧ has_node (the_graph s') prep ∧
    Edge meas prep 0%nat ∈ g_edges (the_graph s') ∧
    (∀ p w', Edge p meas w' ∈ g_edges (the_graph s') ↔
             w' = 0%nat ∧ Edge p ex_M 0%nat ∈ g_edges (the_graph ex_store)) ∧
    (∀ q w', Edge prep q w' ∈ g_edges (the_graph s') ↔
             w' = 0%nat ∧ Edge ex_M q 0%nat ∈ g_edges (the_graph ex_store)) ∧
    ¬ has_node (the_graph s') ex_M.
Proof.
  assert (H1 : graph_wf (the_graph ex_store)) by (apply graph_wf_intro; by_evaluation).
  assert (H2 : all_ordered (the_graph ex_store)) by (apply all_ordered_intro; by_evaluation).
  assert (H3 : store_fresh ex_store) by (apply store_fresh_intro; by_evaluation).
  assert (H4 : chain_invariant (the_graph ex_store))
    by (apply chain_invariant_intro; by_evaluation).
  assert (H5 : has_node (the_graph ex_store) ex_M) by by_evaluation.
  assert (H6 : 0%nat ∈ wires ex_M) by by_evaluation.
  split; [split_and!; assumption|].
  exact (replace_wire_cut_node_pair ex_M ex_store 0%nat H1 H2 H3 H4 H5 H6).
Defined.


Lemma produced_order_monotone_witness :
  produced ex_cut ∧ order_monotone (the_graph ex_cut).
Proof.
  assert (H : produced ex_cut).
  { apply (produced_all ex_built (Ok tt) ex_cut); [|vm_compute; reflexivity].
    apply (produced_build ex_tape 5 ex_built); [|vm_compute; reflexivity].
    apply wf_tape_intro; by_evaluation. }
  exact (conj H (produced_order_monotone ex_cut H)).
Defined.

Lemma tape_to_graph_orders_witness :
  (wf_tape ex_tape 5 ∧ operations ex_tape ≠ []) ∧
  ∃ s, tape_to_graph ex_tape 5 = Ok s ∧
    (∀ i op, operations ex_tape !! i = Some op →
       node_order (the_graph s) op = Ok (Z.of_nat i)) ∧
    (∀ m ms n op, measurements ex_tape = m :: ms →
       n ∈ measurement_nodes m 5 →
       last (operations ex_tape) = Some op →
       ∃ o_op o_n,
         node_order (the_graph s) op = Ok o_op ∧
         node_order (the_graph s) n = Ok o_n ∧
         o_n = Z.of_nat (length (operations ex_tape)) ∧ o_op < o_n) ∧
    (∀ pre m post obs, measurements ex_tape = pre ++ m :: post →
       m_terms m = Some obs →
       let ns := term_nodes (5 + allocated pre) obs in
       length ns = length obs ∧ NoDup ns ∧
       (∀ j t, obs !! j = Some t →
          ∃ n, ns !! j = Some n ∧ class_of n = MeasurementProcess ∧ wires n = t) ∧
       (∀ n, n ∈ ns → has_node (the_graph s) n) ∧
       ∃ c, ∀ n, n ∈ ns → node_order (the_graph s) n = Ok c).
Proof.
  assert (H1 : wf_tape ex_tape 5) by (apply wf_tape_intro; by_evaluation).
  assert (H2 : operations ex_tape ≠ []) by (simpl; discriminate).
  exact (conj (conj H1 H2) (tape_to_graph_orders ex_tape 5 H1 H2)).
Defined.

Lemma tape_to_graph_no_operations_witness :
  operations ex_tape_no_ops = [] ∧
  tape_to_graph ex_tape_no_ops 5 = Raise UnboundLocalError.
Proof.
  assert (H : operations ex_tape_no_ops = []) by reflexivity.
  exact (conj H (tape_to_graph_no_operations ex_tape_no_ops 5 H)).
Defined.

Lemma tape_to_graph_order_after_tensor_witness :
  (wf_tape ex_tape 5 ∧ operations ex_tape ≠ [] ∧
   measurements ex_tape = [] ++ ex_tensor :: ex_plain :: [] ∧
   m_terms ex_tensor = Some [[0%nat]; [1%nat]]) ∧
  ∃ s c, tape_to_graph ex_tape 5 = Ok s ∧
    (∀ n, n ∈ term_nodes (5 + allocated []) [[0%nat]; [1%nat]] →
       node_order (the_graph s) n = Ok c) ∧
    (∀ n, n ∈ measurement_nodes ex_plain
                (5 + allocated [] + length [[0%nat]; [1%nat]]) →
       node_order (the_graph s) n = Ok c).
Proof.
  assert (H1 : wf_tape ex_tape 5) by (apply wf_tape_intro; by_evaluation).
  assert (H2 : operations ex_tape ≠ []) by (simpl; discriminate).
  assert (H3 : measurements ex_tape = [] ++ ex_tensor :: ex_plain :: []) by reflexivity.
  assert (H4 : m_terms ex_tensor = Some [[0%nat]; [1%nat]]) by reflexivity.
  split; [split_and!; assumption|].
  exact (tape_to_graph_order_after_tensor ex_tape 5 [] ex_tensor
           [[0%nat]; [1%nat]] ex_plain [] H1 H2 H3 H4).
Defined.

Lemma replace_wire_cut_node_frame_witness :
  let r := (replace_wire_cut_node ex_M ex_store).1 in
  let s' := (replace_wire_cut_node ex_M ex_store).2 in
  (graph_wf (the_graph ex_store) ∧ store_fresh ex_store ∧
   has_node (the_graph ex_store) ex_M ∧
   replace_wire_cut_node ex_M ex_store = (r, s')) ∧
  (∀ m, m ≠ ex_M → has_node (the_graph ex_store) m →
        has_node (the_graph s') m ∧
        node_order (the_graph s') m = node_order (the_graph ex_store) m) ∧
  (∀ e, e ∈ g_edges (the_graph ex_store) → e_src e ≠ ex_M → e_dst e ≠ ex_M →
        e ∈ g_edges (the_graph s')) ∧
  filter (λ e, e_src e ≠ ex_M ∧ e_dst e ≠ ex_M) (g_edges (the_graph ex_store))
    `sublist_of` g_edges (the_graph s').
Proof.
  intros r s'.
  assert (H1 : graph_wf (the_graph ex_store)) by (apply graph_wf_intro; by_evaluation).
  assert (H2 : store_fresh ex_store) by (apply store_fresh_intro; by_evaluation).
  assert (H3 : has_node (the_graph ex_store) ex_M) by by_evaluation.
  assert (H4 : replace_wire_cut_node ex_M ex_store = (r, s')) by reflexivity.
  split; [split_and!; assumption|].
  exact (replace_wire_cut_node_frame ex_M ex_store r s' H1 H2 H3 H4).
Defined.

(** ** Two small runs

    Operations [A] on wire 0 then [B] on wires 0 and 1, no measurement:
    one edge from [A] to [B] on wire 0, and nothing enters [B] on wire 1. *)
Example build_two_operations :
  let a := Node 0 Operation [0%nat] in
  let b := Node 1 Operation [0%nat; 1%nat] in
  tape_to_graph (Tape [0%nat; 1%nat] [a; b] []) 2 =
  Ok (Store 2 (Graph [(a, Some 0); (b, Some 1)] [Edge a b 0%nat])).
Proof. vm_compute. reflexivity. Qed.

(** The cut of [ex_store], on wires 0 and 1 with a predecessor on wire 0
    only and a successor on wire 1 only: the pair on wire 0 is entered
    from [ex_A] and has no edge out, the pair on wire 1 leads to [ex_C] and
    has no edge in. *)
Example replace_the_example_cut :
  replace_wire_cut_node ex_M ex_store =
  (Ok tt,
   Store 7
     (Graph [(ex_A, Some 0); (ex_C, Some 2);
             (meas_node 3 0%nat, Some 1); (prep_node 3 0%nat, Some 1);
             (meas_node 5 1%nat, Some 1); (prep_node 5 1%nat, Some 1)]
            [Edge (meas_node 3 0%nat) (prep_node 3 0%nat) 0%nat;
             Edge ex_A (meas_node 3 0%nat) 0%nat;
             Edge (meas_node 5 1%nat) (prep_node 5 1%nat) 1%nat;
             Edge (prep_node 5 1%nat) ex_C 1%nat])).
Proof. vm_compute. reflexivity. Qed.

(** ** The edge of the chain invariant: a loop on the cut

    The chain invariant asks that no node follows itself.  On a graph
    where the cut has an edge to itself, [replace_wire_cut_node] finds the
    cut as its own predecessor and successor, and [add_edge] puts it back
    into the graph, without an order. *)
Example loop_keeps_the_cut :
  ∃ s', replace_wire_cut_node ex_M ex_loop = (Ok tt, s') ∧
        has_node (the_graph s') ex_M ∧
        node_order (the_graph s') ex_M = Raise KeyError.
Proof.
  eexists. split; [vm_compute; reflexivity|]. split; [by_evaluation | reflexivity].
Qed.

(** * More on [replace_wire_cut_node] *)

(** ** Outcomes *)

(** X1.  The call fails only with a key error, raised before the graph is
    touched: a failed call leaves the store as it was, and the
    [NetworkXError] of [remove_node] never surfaces.  It returns normally
    exactly on a node of the graph that carries an order. *)
Theorem replace_wire_cut_node_outcome nd s :
  (∀ e s', replace_wire_cut_node nd s = (Raise e, s') → e = KeyError ∧ s' = s) ∧
  ((∃ s', replace_wire_cut_node nd s = (Ok tt, s')) ↔
   has_node (the_graph s) nd ∧ ∃ o, node_order (the_graph s) nd = Ok o).
Proof.
  split.
  - intros e s'. unfold replace_wire_cut_node, pred_view, succ_view, remove_node.
    destruct (decide (has_node (the_graph s) nd)) as [Hin|Hout].
    + unfold node_order. destruct (node_attr _ _) as [[o|]|]; [done|..];
        by intros [= <- <-].
    + by intros [= <- <-].
  - split.
    + intros [s' Hrun]. by eapply replace_wire_cut_node_Ok_inv.
    + intros [Hin [o Ho]]. eexists. by apply replace_wire_cut_node_unfold.
Qed.

(** ** The edges of the rewritten graph, case by case *)

Lemma replaced_edge_cases nd g k ws u v w :
  Edge u v w ∈ g_edges (without nd g) ++
    pairs_edges (predecessor_on_wire g nd) (successor_on_wire g nd) k ws →
  (Edge u v w ∈ g_edges g ∧ u ≠ nd ∧ v ≠ nd)
  ∨ (∃ i, ws !! i = Some w ∧ u = meas_node (k + 2 * i) w ∧ v = prep_node (k + 2 * i) w)
  ∨ (∃ i, ws !! i = Some w ∧ Edge u nd w ∈ g_edges g ∧ v = meas_node (k + 2 * i) w)
  ∨ (∃ i, ws !! i = Some w ∧ Edge nd v w ∈ g_edges g ∧ u = prep_node (k + 2 * i) w).
Proof.
  rewrite elem_of_app. intros [He|He].
  - unfold without in He. cbn [g_edges] in He.
    apply list_elem_of_filter in He as [[? ?] ?]. by left.
  - apply pairs_edges_elem in He as (i & w' & Hi & He).
    apply pair_edges_elem in He as [He|[(p & Hp & He)|(q & Hq & He)]];
      injection He as -> -> ->; right.
    + left. by exists i.
    + right; left. exists i. split_and!; try done.
      by apply predecessor_on_wire_edge.
    + right; right. exists i. split_and!; try done.
      by apply successor_on_wire_edge.
Qed.

Lemma NoDup_lookup_eq {A : Type} (l : list A) i j x :
  NoDup l → l !! i = Some x → l !! j = Some x → i = j.
Proof. intros Hnd Hi Hj. by eapply NoDup_lookup. Qed.

(** ** The chain invariant is kept *)

Section chain_kept.
Variables (nd : node) (s : store).
Hypothesis Hwf : graph_wf (the_graph s).
Hypothesis Hfresh : store_fresh s.
Hypothesis Hchain : chain_invariant (the_graph s).
Hypothesis Hwires : NoDup (wires nd).

Lemma edge_idents u v w :
  Edge u v w ∈ g_edges (the_graph s) →
  (ident u < next_id s)%nat ∧ (ident v < next_id s)%nat.
Proof.
  intros He. apply (wf_endpoints _ Hwf) in He as [Hu Hv]. split; by apply Hfresh.
Qed.

Ltac old_and_new :=
  exfalso;
  repeat match goal with
         | H : Edge _ _ _ ∈ g_edges (the_graph s) |- _ =>
           apply edge_idents in H; destruct H; simpl in *
         end; lia.

Ltac same_index :=
  match goal with
  | H1 : wires nd !! ?i = Some ?w, H2 : wires nd !! ?j = Some ?w |- _ =>
    assert (i = j) by (first [lia | exact (NoDup_lookup_eq _ _ _ _ Hwires H1 H2)]);
    subst; done
  end.

Lemma replaced_chain o :
  chain_invariant
    (Graph (g_nodes (without nd (the_graph s)) ++
              pairs_nodes o (next_id s) (wires nd))
           (g_edges (without nd (the_graph s)) ++
              pairs_edges (predecessor_on_wire (the_graph s) nd)
                          (successor_on_wire (the_graph s) nd)
                          (next_id s) (wires nd))).
Proof.
  constructor; cbn [g_edges].
  - intros w v u1 u2 H1 H2.
    apply replaced_edge_cases in H1, H2.
    destruct H1 as [(E1 & ? & ?)|[(i & Hi & ? & ?)|[(i & Hi & E1 & ?)|(i & Hi & E1 & ?)]]];
    destruct H2 as [(E2 & ? & ?)|[(j & Hj & ? & ?)|[(j & Hj & E2 & ?)|(j & Hj & E2 & ?)]]];
      simplify_eq;
      first [ by eapply (chain_pred _ Hchain)
            | same_index
            | by (exfalso; match goal with
                           | Ha : Edge ?a ?v ?w ∈ _, Hb : Edge nd ?v ?w ∈ _, Hn : ?a ≠ nd |- _ =>
                             apply Hn; eapply (chain_pred _ Hchain); [exact Ha | exact Hb]
                           end)
            | old_and_new ].
  - intros w u v1 v2 H1 H2.
    apply replaced_edge_cases in H1, H2.
    destruct H1 as [(E1 & ? & ?)|[(i & Hi & ? & ?)|[(i & Hi & E1 & ?)|(i & Hi & E1 & ?)]]];
    destruct H2 as [(E2 & ? & ?)|[(j & Hj & ? & ?)|[(j & Hj & E2 & ?)|(j & Hj & E2 & ?)]]];
      simplify_eq;
      first [ by eapply (chain_succ _ Hchain)
            | same_index
            | by (exfalso; match goal with
                           | Ha : Edge ?u ?a ?w ∈ _, Hb : Edge ?u nd ?w ∈ _, Hn : ?a ≠ nd |- _ =>
                             apply Hn; eapply (chain_succ _ Hchain); [exact Ha | exact Hb]
                           end)
            | old_and_new ].
  - intros w u H.
    apply replaced_edge_cases in H.
    destruct H as [(E1 & ? & ?)|[(i & Hi & ? & ?)|[(i & Hi & E1 & ?)|(i & Hi & E1 & ?)]]];
      simplify_eq; first [ by apply (chain_simple _ Hchain) in E1 | old_and_new ].
Qed.
End chain_kept.

Lemma replace_wire_cut_node_chain nd s r s' :
  graph_wf (the_graph s) → store_fresh s →
  chain_invariant (the_graph s) → NoDup (wires nd) →
  replace_wire_cut_node nd s = (r, s') →
  chain_invariant (the_graph s').
Proof.
  intros Hwf Hf Hc Hnd Hrun. destruct r as [[]|e].
  - destruct (replace_wire_cut_node_Ok_inv _ _ _ _ Hrun) as [Hin [o Ho]].
    rewrite (replace_wire_cut_node_exact nd s o Hwf Hf Hin Ho) in Hrun
      by (intros w; apply (chain_simple _ Hc)).
    injection Hrun as <-. cbn [the_graph]. by apply replaced_chain.
  - by rewrite (replace_wire_cut_node_raise _ _ _ _ Hrun).
Qed.

(** X2.  Whatever its outcome, [replace_wire_cut_node] on a node whose wires
    are pairwise distinct leaves a graph that satisfies the chain
    invariant if the graph it was given does. *)
Theorem replace_wire_cut_node_keeps_chain nd s r s' :
  graph_wf (the_graph s) → store_fresh s →
  chain_invariant (the_graph s) → NoDup (wires nd) →
  replace_wire_cut_node nd s = (r, s') →
  chain_invariant (the_graph s').
Proof. apply replace_wire_cut_node_chain. Qed.

Lemma replace_wire_cut_node_keeps_chain_witness :
  let r := (replace_wire_cut_node ex_M ex_store).1 in
  let s' := (replace_wire_cut_node ex_M ex_store).2 in
  (graph_wf (the_graph ex_store) ∧ store_fresh ex_store ∧
   chain_invariant (the_graph ex_store) ∧ NoDup (wires ex_M) ∧
   replace_wire_cut_node ex_M ex_store = (r, s')) ∧
  chain_invariant (the_graph s').
Proof.
  intros r s'.
  assert (H1 : graph_wf (the_graph ex_store)) by (apply graph_wf_intro; by_evaluation).
  assert (H2 : store_fresh ex_store) by (apply store_fresh_intro; by_evaluation).
  assert (H3 : chain_invariant (the_graph ex_store))
    by (apply chain_invariant_intro; by_evaluation).
  assert (H4 : NoDup (wires ex_M)) by by_evaluation.
  assert (H5 : replace_wire_cut_node ex_M ex_store = (r, s')) by reflexivity.
  split; [split_and!; assumption|].
  exact (replace_wire_cut_node_keeps_chain ex_M ex_store r s' H1 H2 H3 H4 H5).
Defined.

(** ** The nodes that are created *)

Lemma pairs_nodes_lookup o k ws i w :
  ws !! i = Some w →
  pairs_nodes o k ws !! (2 * i)%nat = Some (meas_node (k + 2 * i) w, Some o) ∧
  pairs_nodes o k ws !! (2 * i + 1)%nat = Some (prep_node (k + 2 * i) w, Some o).
Proof.
  revert k i. induction ws as [|w' ws IH]; intros k i Hi; [done|].
  cbn [pairs_nodes pair_nodes app]. destruct i as [|i].
  - injection Hi as ->. rewrite Nat.add_0_r. done.
  - replace (2 * S i)%nat with (S (S (2 * i))) by lia.
    replace (S (S (2 * i)) + 1)%nat with (S (S (2 * i + 1))) by lia.
    cbn [lookup list_lookup]. destruct (IH (S (S k)) i Hi) as [H1 H2].
    replace (k + S (S (2 * i)))%nat with (S (S k) + 2 * i)%nat by lia.
    done.
Qed.

(** X3.  On a node [nd] of the graph that has an order [o] and no edge to
    itself, the call appends to the node list, for the wires of [nd] in
    their order, a [MeasureNode] directly followed by its [PrepareNode];
    each is on that single wire, both carry the order [o] of [nd], and the
    first is joined to the second by an edge on that wire. *)
Theorem replace_wire_cut_node_fresh_nodes nd s o :
  graph_wf (the_graph s) → store_fresh s →
  has_node (the_graph s) nd → node_order (the_graph s) nd = Ok o →
  (∀ w, Edge nd nd w ∉ g_edges (the_graph s)) →
  ∃ s' fresh,
    replace_wire_cut_node nd s = (Ok tt, s') ∧
    g_nodes (the_graph s') =
      filter (λ p, p.1 ≠ nd) (g_nodes (the_graph s)) ++ fresh ∧
    length fresh = (2 * length (wires nd))%nat ∧
    ∀ i w, wires nd !! i = Some w →
      ∃ meas prep,
        fresh !! (2 * i)%nat = Some (meas, Some o) ∧
        fresh !! (2 * i + 1)%nat = Some (prep, Some o) ∧
        class_of meas = MeasureNode ∧ wires meas = [w] ∧
        class_of prep = PrepareNode ∧ wires prep = [w] ∧
        Edge meas prep w ∈ g_edges (the_graph s').
Proof.
  intros Hwf Hf Hin Ho Hloop.
  eexists _, (pairs_nodes o (next_id s) (wires nd)). split.
  { by apply (replace_wire_cut_node_exact nd s o). }
  cbn [the_graph g_nodes g_edges without]. split_and!; [done | apply pairs_nodes_length |].
  intros i w Hi. destruct (pairs_nodes_lookup o (next_id s) _ _ _ Hi) as [H1 H2].
  exists (meas_node (next_id s + 2 * i) w), (prep_node (next_id s + 2 * i) w).
  split_and!; try done.
  rewrite elem_of_app. right. apply pairs_edges_elem. exists i, w. split; [done|].
  apply pair_edges_elem. by left.
Qed.

Lemma replace_wire_cut_node_fresh_nodes_witness :
  (graph_wf (the_graph ex_store) ∧ store_fresh ex_store ∧
   has_node (the_graph ex_store) ex_M ∧
   node_order (the_graph ex_store) ex_M = Ok 1 ∧
   (∀ w, Edge ex_M ex_M w ∉ g_edges (the_graph ex_store))) ∧
  ∃ s' fresh,
    replace_wire_cut_node ex_M ex_store = (Ok tt, s') ∧
    g_nodes (the_graph s') =
      filter (λ p, p.1 ≠ ex_M) (g_nodes (the_graph ex_store)) ++ fresh ∧
    length fresh = (2 * length (wires ex_M))%nat ∧
    ∀ i w, wires ex_M !! i = Some w →
      ∃ meas prep,
        fresh !! (2 * i)%nat = Some (meas, Some 1) ∧
        fresh !! (2 * i + 1)%nat = Some (prep, Some 1) ∧
        class_of meas = MeasureNode ∧ wires meas = [w] ∧
        class_of prep = PrepareNode ∧ wires prep = [w] ∧
        Edge meas prep w ∈ g_edges (the_graph s').
Proof.
  assert (H1 : graph_wf (the_graph ex_store)) by (apply graph_wf_intro; by_evaluation).
  assert (H2 : store_fresh ex_store) by (apply store_fresh_intro; by_evaluation).
  assert (H3 : has_node (the_graph ex_store) ex_M) by by_evaluation.
  assert (H4 : node_order (the_graph ex_store) ex_M = Ok 1) by reflexivity.
  assert (H5 : ∀ w, Edge ex_M ex_M w ∉ g_edges (the_graph ex_store)).
  { intros w. simpl. rewrite !elem_of_cons, elem_of_nil.
    intros [H|[H|[]]]; discriminate H. }
  split; [split_and!; assumption|].
  exact (replace_wire_cut_node_fresh_nodes ex_M ex_store 1 H1 H2 H3 H4 H5).
Defined.

(** ** A node without neighbours *)

Lemma filter_all {A : Type} (P : A → Prop) `{∀ x, Decision (P x)} (l : list A) :
  (∀ x, x ∈ l → P x) → filter P l = l.
Proof.
  induction l as [|x l IH]; intros Hall; [done|].
  rewrite filter_cons_True by apply Hall, list_elem_of_here.
  rewrite IH; [done|]. intros y Hy. by apply Hall, list_elem_of_further.
Qed.

Lemma pairs_edges_alone pow sow k ws :
  (∀ w, pow !! w = None) → (∀ w, sow !! w = None) →
  pairs_edges pow sow k ws =
  imap (λ i w, Edge (meas_node (k + 2 * i) w) (prep_node (k + 2 * i) w) w) ws.
Proof.
  intros Hp Hq. revert k. induction ws as [|w ws IH]; intros k; [done|].
  cbn [pairs_edges]. unfold pair_edges. rewrite Hp, Hq, IH, imap_cons.
  cbn [app]. rewrite Nat.add_0_r. f_equal.
  apply imap_ext. intros i x _. simpl.
  by replace (S (S (k + (i + (i + 0)))))%nat with (k + S (i + S (i + 0)))%nat by lia.
Qed.

(** X4.  On a node [nd] of the graph that has an order and that no edge
    touches, the call keeps every edge of the graph and appends one edge
    per wire of [nd], in the order of the wires, each between two nodes
    that were not in the graph: the pairs dangle at both ends. *)
Theorem replace_wire_cut_node_isolated nd s o :
  store_fresh s →
  has_node (the_graph s) nd → node_order (the_graph s) nd = Ok o →
  (∀ e, e ∈ g_edges (the_graph s) → e_src e ≠ nd ∧ e_dst e ≠ nd) →
  ∃ s' added,
    replace_wire_cut_node nd s = (Ok tt, s') ∧
    g_edges (the_graph s') = g_edges (the_graph s) ++ added ∧
    length added = length (wires nd) ∧
    ∀ i w, wires nd !! i = Some w →
      ∃ meas prep,
        added !! i = Some (Edge meas prep w) ∧
        class_of meas = MeasureNode ∧ class_of prep = PrepareNode ∧
        ¬ has_node (the_graph s) meas ∧ ¬ has_node (the_graph s) prep.
Proof.
  intros Hf Hin Ho Halone.
  assert (Hp : ∀ w, predecessor_on_wire (the_graph s) nd !! w = None).
  { intros w. destruct (_ !! w) as [p|] eqn:E; [|done].
    apply predecessor_on_wire_edge, Halone in E as [_ ?]. done. }
  assert (Hq : ∀ w, successor_on_wire (the_graph s) nd !! w = None).
  { intros w. destruct (_ !! w) as [q|] eqn:E; [|done].
    apply successor_on_wire_edge, Halone in E as [? _]. done. }
  exists (foldl (place_pair (predecessor_on_wire (the_graph s) nd)
                            (successor_on_wire (the_graph s) nd) o)
                (Store (next_id s) (without nd (the_graph s))) (wires nd)),
         (imap (λ i w, Edge (meas_node (next_id s + 2 * i) w)
                            (prep_node (next_id s + 2 * i) w) w) (wires nd)).
  split; [by apply replace_wire_cut_node_unfold|].
  rewrite place_pairs_exact; cbn [the_graph next_id].
  - cbn [g_edges without].
    rewrite (filter_all _ _ Halone), (pairs_edges_alone _ _ _ _ Hp Hq).
    split_and!; [done | apply length_imap |].
    intros i w Hi. eexists _, _. rewrite list_lookup_imap, Hi.
    split_and!; try done; apply fresh_absent; try done; simpl; lia.
  - intros n Hn. apply has_node_without in Hn as [_ Hn]. by apply Hf.
  - intros w p _. by rewrite Hp.
  - intros w q _. by rewrite Hq.
Qed.

Lemma replace_wire_cut_node_isolated_witness :
  let nd := Node 1 WireCut [0%nat; 1%nat] in
  let s := Store 2 (Graph [(Node 0 Operation [0%nat], Some 0); (nd, Some 1)] []) in
  (store_fresh s ∧ has_node (the_graph s) nd ∧
   node_order (the_graph s) nd = Ok 1 ∧
   (∀ e, e ∈ g_edges (the_graph s) → e_src e ≠ nd ∧ e_dst e ≠ nd)) ∧
  ∃ s' added,
    replace_wire_cut_node nd s = (Ok tt, s') ∧
    g_edges (the_graph s') = g_edges (the_graph s) ++ added ∧
    length added = length (wires nd) ∧
    ∀ i w, wires nd !! i = Some w →
      ∃ meas prep,
        added !! i = Some (Edge meas prep w) ∧
        class_of meas = MeasureNode ∧ class_of prep = PrepareNode ∧
        ¬ has_node (the_graph s) meas ∧ ¬ has_node (the_graph s) prep.
Proof.
  intros nd s.
  assert (H1 : store_fresh s) by (apply store_fresh_intro; by_evaluation).
  assert (H2 : has_node (the_graph s) nd) by by_evaluation.
  assert (H3 : node_order (the_graph s) nd = Ok 1) by reflexivity.
  assert (H4 : ∀ e, e ∈ g_edges (the_graph s) → e_src e ≠ nd ∧ e_dst e ≠ nd).
  { intros e He. simpl in He. by apply elem_of_nil in He. }
  split; [split_and!; assumption|].
  exact (replace_wire_cut_node_isolated nd s 1 H1 H2 H3 H4).
Defined.

(** * More on [replace_wire_cut_nodes] *)

Lemma replace_wire_cut_node_nodes nd s :
  cut_inv s → has_node (the_graph s) nd →
  ∃ s', replace_wire_cut_node nd s = (Ok tt, s') ∧ cut_inv s' ∧
    (next_id s ≤ next_id s')%nat ∧
    (∀ n, has_node (the_graph s') n →
       (n ≠ nd ∧ has_node (the_graph s) n) ∨
       ((next_id s ≤ ident n)%nat ∧
        (class_of n = MeasureNode ∨ class_of n = PrepareNode) ∧
        ∃ w, wires n = [w])) ∧
    (∀ n, n ≠ nd → has_node (the_graph s) n →
       has_node (the_graph s') n ∧
       node_order (the_graph s') n = node_order (the_graph s) n) ∧
    (∀ e, e ∈ g_edges (the_graph s) → e_src e ≠ nd → e_dst e ≠ nd →
       e ∈ g_edges (the_graph s')) ∧
    (length (g_nodes (the_graph s')) + 1 =
       length (g_nodes (the_graph s)) + 2 * length (wires nd))%nat.
Proof.
  intros Hinv Hin.
  destruct (all_ordered_order _ _ (ci_wf _ Hinv) (ci_ordered _ Hinv) Hin) as [o Ho].
  pose proof (replace_wire_cut_node_exact nd s o (ci_wf _ Hinv) (ci_fresh _ Hinv)
                Hin Ho (λ w, ci_simple _ Hinv w nd)) as Hrun.
  eexists. split; [exact Hrun|]. split; [by eapply replace_wire_cut_node_preserves|].
  cbn [the_graph next_id]. split_and!.
  - lia.
  - intros n. unfold has_node. cbn [g_nodes without].
    rewrite fmap_app, elem_of_app. intros [Hn|Hn].
    + left. by apply has_node_filter_ne.
    + right. apply list_elem_of_fmap in Hn as ([m a] & -> & Hn).
      apply pairs_nodes_elem in Hn as (i & w & _ & _ & [->| ->]); simpl;
        (split_and!; [lia | auto | by exists w]).
  - intros n Hne Hn.
    assert (Hn' : n ∈ (filter (λ p : node * option Z, p.1 ≠ nd)
                         (g_nodes (the_graph s))).*1)
      by by apply has_node_filter_ne.
    split.
    + unfold has_node. cbn [g_nodes without]. rewrite fmap_app, elem_of_app. by left.
    + unfold node_order. cbn [g_nodes without].
      by rewrite node_attr_app_l, node_attr_filter_ne.
  - intros e He Hs Hd. cbn [g_edges without]. rewrite elem_of_app. left.
    by apply list_elem_of_filter.
  - cbn [g_nodes without]. rewrite length_app, pairs_nodes_length.
    pose proof (removed_one _ nd (wf_nodup _ (ci_wf _ Hinv)) Hin). lia.
Qed.

Lemma sum_list_head x l : sum_list (x :: l) = (x + sum_list l)%nat.
Proof. done. Qed.

Lemma replace_each_total ops s :
  cut_inv s → NoDup ops →
  (∀ op, op ∈ ops → is_wire_cut op = true → has_node (the_graph s) op) →
  ∃ s', replace_each ops s = (Ok tt, s') ∧ cut_inv s' ∧
    (next_id s ≤ next_id s')%nat ∧
    (∀ n, has_node (the_graph s') n →
       (has_node (the_graph s) n ∧ ¬ (n ∈ ops ∧ is_wire_cut n = true)) ∨
       ((next_id s ≤ ident n)%nat ∧
        (class_of n = MeasureNode ∨ class_of n = PrepareNode) ∧
        ∃ w, wires n = [w])) ∧
    (∀ n, has_node (the_graph s) n → ¬ (n ∈ ops ∧ is_wire_cut n = true) →
       has_node (the_graph s') n ∧
       node_order (the_graph s') n = node_order (the_graph s) n) ∧
    (∀ e, e ∈ g_edges (the_graph s) →
       ¬ (e_src e ∈ ops ∧ is_wire_cut (e_src e) = true) →
       ¬ (e_dst e ∈ ops ∧ is_wire_cut (e_dst e) = true) →
       e ∈ g_edges (the_graph s')) ∧
    (length (g_nodes (the_graph s')) +
       length (filter (λ n, is_wire_cut n = true) ops) =
     length (g_nodes (the_graph s)) +
       2 * sum_list (length ∘ wires <$> filter (λ n, is_wire_cut n = true) ops))%nat.
Proof.
  revert s. induction ops as [|op ops IH]; intros s Hinv Hnd Hops.
  - exists s. cbn [replace_each]. split_and!; try done; try (simpl; lia).
    + intros n Hn. left. split; [done|]. intros [H _]. by apply elem_of_nil in H.
  - apply NoDup_cons in Hnd as [Hop Hnd]. cbn [replace_each].
    destruct (is_wire_cut op) eqn:Hcut.
    + destruct (replace_wire_cut_node_nodes op s Hinv)
        as (s1 & Hrun & Hinv1 & Hle1 & Hnew1 & Hold1 & Hedge1 & Hcount1).
      { apply Hops; [apply list_elem_of_here | done]. }
      rewrite Hrun.
      destruct (IH s1 Hinv1 Hnd)
        as (s' & Hrun' & Hinv' & Hle' & Hnew' & Hold' & Hedge' & Hcount').
      { intros op' Hin' Hcut'. apply Hold1.
        - intros ->. done.
        - apply Hops; [by apply list_elem_of_further | done]. }
      exists s'. split_and!; try done; [lia| | | |].
      * intros n Hn. destruct (Hnew' n Hn) as [[Hn1 Hno]|(Hge & Hcl)].
        -- destruct (Hnew1 n Hn1) as [[Hne Hn0]|(Hge & Hcl)]; [|by right].
           left. split; [done|]. rewrite elem_of_cons. intros [[->|?] ?]; [done|].
           by apply Hno.
        -- right. split; [lia | done].
      * intros n Hn Hno.
        assert (Hne : n ≠ op).
        { intros ->. apply Hno. split; [apply list_elem_of_here | done]. }
        destruct (Hold1 n Hne Hn) as [Hn1 Ho1].
        destruct (Hold' n Hn1) as [Hn' Ho'].
        { intros [? ?]. apply Hno. split; [by apply list_elem_of_further | done]. }
        split; [done | congruence].
      * intros e He Hs Hd. apply Hedge'.
        -- apply Hedge1; [done|..]; intros Heq; [apply Hs | apply Hd];
             (split; [rewrite Heq; apply list_elem_of_here | by rewrite Heq]).
        -- intros [? ?]. apply Hs. split; [by apply list_elem_of_further | done].
        -- intros [? ?]. apply Hd. split; [by apply list_elem_of_further | done].
      * rewrite filter_cons_True by done. rewrite fmap_cons, sum_list_head.
        cbn [length compose]. lia.
    + destruct (IH s Hinv Hnd)
        as (s' & Hrun' & Hinv' & Hle' & Hnew' & Hold' & Hedge' & Hcount').
      { intros op' Hin' Hcut'. apply Hops; [by apply list_elem_of_further | done]. }
      assert (Hsame : ∀ n, (n ∈ op :: ops ∧ is_wire_cut n = true) ↔
                            (n ∈ ops ∧ is_wire_cut n = true)).
      { intros n. rewrite elem_of_cons. split; [|tauto].
        intros [[->|?] ?]; [congruence | done]. }
      exists s'. split_and!; try done.
      * intros n Hn. destruct (Hnew' n Hn) as [[Hn1 Hno]|?]; [|by right].
        left. split; [done|]. by rewrite Hsame.
      * intros n Hn Hno. apply Hold'; [done|]. by rewrite <- Hsame.
      * intros e He Hs Hd. apply Hedge'; [done|..]; by rewrite <- Hsame.
      * rewrite filter_cons_False by congruence. done.
Qed.

(** X5.  On a store that satisfies the invariants of a build-then-rewrite
    sequence, [replace_wire_cut_nodes] returns normally and leaves no
    [WireCut] node; every other node stays with its order, every edge
    between two such nodes stays, and each node that is new to the graph
    is a [MeasureNode] or a [PrepareNode] on a single wire. *)
Theorem replace_wire_cut_nodes_total s :
  cut_inv s →
  ∃ s', replace_wire_cut_nodes s = (Ok tt, s') ∧
    (∀ n, has_node (the_graph s') n → class_of n ≠ WireCut) ∧
    (∀ n, has_node (the_graph s) n → class_of n ≠ WireCut →
       has_node (the_graph s') n ∧
       node_order (the_graph s') n = node_order (the_graph s) n) ∧
    (∀ e, e ∈ g_edges (the_graph s) →
       class_of (e_src e) ≠ WireCut → class_of (e_dst e) ≠ WireCut →
       e ∈ g_edges (the_graph s')) ∧
    (∀ n, has_node (the_graph s') n → ¬ has_node (the_graph s) n →
       (class_of n = MeasureNode ∨ class_of n = PrepareNode) ∧
       ∃ w, wires n = [w]).
Proof.
  intros Hinv. unfold replace_wire_cut_nodes.
  destruct (replace_each_total (g_nodes (the_graph s)).*1 s Hinv)
    as (s' & Hrun & _ & _ & Hnew & Hold & Hedge & _).
  { apply (wf_nodup _ (ci_wf _ Hinv)). }
  { auto. }
  assert (Hcut : ∀ n, class_of n ≠ WireCut → is_wire_cut n = true → False).
  { intros n Hn Hc. unfold is_wire_cut in Hc. by apply bool_decide_eq_true in Hc. }
  exists s'. split_and!; [done|..].
  - intros n Hn. destruct (Hnew n Hn) as [[Hn0 Hno]|(_ & [Hc|Hc] & _)];
      [|by rewrite Hc..].
    intros Hc. apply Hno. split; [done|]. unfold is_wire_cut.
    by apply bool_decide_eq_true.
  - intros n Hn Hc. apply Hold; [done|]. intros [_ ?]. by eapply Hcut.
  - intros e He Hs Hd.
    apply Hedge; [done| |]; intros [_ H]; [exact (Hcut _ Hs H) | exact (Hcut _ Hd H)].
  - intros n Hn Hout. destruct (Hnew n Hn) as [[Hn0 _]|(_ & Hc & Hw)]; done.
Qed.

Lemma ex_built_inv : cut_inv ex_built.
Proof.
  apply (tape_to_graph_cut_inv ex_tape 5); [|vm_compute; reflexivity].
  apply wf_tape_intro; by_evaluation.
Defined.

Lemma replace_wire_cut_nodes_total_witness :
  cut_inv ex_built ∧
  ∃ s', replace_wire_cut_nodes ex_built = (Ok tt, s') ∧
    (∀ n, has_node (the_graph s') n → class_of n ≠ WireCut) ∧
    (∀ n, has_node (the_graph ex_built) n → class_of n ≠ WireCut →
       has_node (the_graph s') n ∧
       node_order (the_graph s') n = node_order (the_graph ex_built) n) ∧
    (∀ e, e ∈ g_edges (the_graph ex_built) →
       class_of (e_src e) ≠ WireCut → class_of (e_dst e) ≠ WireCut →
       e ∈ g_edges (the_graph s')) ∧
    (∀ n, has_node (the_graph s') n → ¬ has_node (the_graph ex_built) n →
       (class_of n = MeasureNode ∨ class_of n = PrepareNode) ∧
       ∃ w, wires n = [w]).
Proof.
  exact (conj ex_built_inv (replace_wire_cut_nodes_total ex_built ex_built_inv)).
Defined.

(** X6.  Running [replace_wire_cut_nodes] a second time changes nothing: on a
    store that satisfies the invariants, the store left by one run is
    returned as it is by the next. *)
Theorem replace_wire_cut_nodes_idempotent s r s' :
  cut_inv s →
  replace_wire_cut_nodes s = (r, s') →
  replace_wire_cut_nodes s' = (Ok tt, s').
Proof.
  intros Hinv Hrun. unfold replace_wire_cut_nodes in *.
  destruct (replace_each_total (g_nodes (the_graph s)).*1 s Hinv)
    as (s1 & Hrun1 & _ & _ & Hnew & _).
  { apply (wf_nodup _ (ci_wf _ Hinv)). }
  { auto. }
  rewrite Hrun1 in Hrun. injection Hrun as <- <-.
  apply replace_each_no_markers. intros n Hn Hc.
  destruct (Hnew n Hn) as [[Hn0 Hno]|(_ & [Hc'|Hc'] & _)]; [|congruence..].
  apply Hno. split; [done|]. unfold is_wire_cut. by apply bool_decide_eq_true.
Qed.

Lemma replace_wire_cut_nodes_idempotent_witness :
  (cut_inv ex_built ∧ replace_wire_cut_nodes ex_built = (Ok tt, ex_cut)) ∧
  replace_wire_cut_nodes ex_cut = (Ok tt, ex_cut).
Proof.
  assert (H : replace_wire_cut_nodes ex_built = (Ok tt, ex_cut))
    by (vm_compute; reflexivity).
  exact (conj (conj ex_built_inv H)
           (replace_wire_cut_nodes_idempotent ex_built (Ok tt) ex_cut ex_built_inv H)).
Defined.

(** * The chain invariant along a build-then-rewrite sequence *)

Lemma replace_wire_cut_node_bundle nd s r s' :
  cut_inv s → chain_invariant (the_graph s) →
  (∀ n, has_node (the_graph s) n → NoDup (wires n)) →
  replace_wire_cut_node nd s = (r, s') →
  cut_inv s' ∧ chain_invariant (the_graph s') ∧
  (∀ n, has_node (the_graph s') n → NoDup (wires n)).
Proof.
  intros Hinv Hc Hw Hrun. destruct r as [[]|e].
  2:{ by rewrite (replace_wire_cut_node_raise _ _ _ _ Hrun). }
  destruct (replace_wire_cut_node_Ok_inv _ _ _ _ Hrun) as [Hin _].
  split_and!.
  - by eapply replace_wire_cut_node_preserves.
  - eapply replace_wire_cut_node_chain; try exact Hrun; try done.
    + apply Hinv.
    + apply Hinv.
    + by apply Hw.
  - destruct (replace_wire_cut_node_nodes nd s Hinv Hin)
      as (s1 & Hrun1 & _ & _ & Hnew & _).
    rewrite Hrun1 in Hrun. injection Hrun as <-.
    intros n Hn. destruct (Hnew n Hn) as [[_ Hn0]|(_ & _ & w & ->)]; [by apply Hw|].
    apply NoDup_singleton.
Qed.

Lemma replace_each_bundle ops s r s' :
  cut_inv s → chain_invariant (the_graph s) →
  (∀ n, has_node (the_graph s) n → NoDup (wires n)) →
  replace_each ops s = (r, s') →
  cut_inv s' ∧ chain_invariant (the_graph s') ∧
  (∀ n, has_node (the_graph s') n → NoDup (wires n)).
Proof.
  revert s. induction ops as [|op ops IH]; intros s Hinv Hc Hw; cbn [replace_each].
  - by intros [= _ <-].
  - destruct (is_wire_cut op); [|by apply IH].
    destruct (replace_wire_cut_node op s) as [[[]|e] s1] eqn:E.
    + destruct (replace_wire_cut_node_bundle _ _ _ _ Hinv Hc Hw E) as (? & ? & ?).
      by apply IH.
    + intros [= _ <-]. by eapply replace_wire_cut_node_bundle.
Qed.

Lemma tape_to_graph_bundle tape next s :
  wf_tape tape next → tape_to_graph tape next = Ok s →
  cut_inv s ∧ chain_invariant (the_graph s) ∧
  (∀ n, has_node (the_graph s) n → NoDup (wires n)).
Proof.
  intros Hwf Hrun. split; [by eapply tape_to_graph_cut_inv|].
  destruct (tape_to_graph_built tape next Hwf (tape_to_graph_Ok_operations _ _ _ Hrun))
    as (g & wl & c & Hrun' & Hinv & Hnodes).
  rewrite Hrun' in Hrun. injection Hrun as <-. cbn [the_graph].
  split; [apply (bi_chain _ _ _ Hinv)|].
  intros n Hn. unfold has_node in Hn. rewrite Hnodes, <- list_fmap_compose in Hn.
  apply list_elem_of_fmap in Hn as (call & -> & Hcall).
  pose proof (proj1 (Forall_forall _ _) (schedule_wires tape next Hwf) _ Hcall) as [? _].
  done.
Qed.

Lemma produced_bundle s :
  produced s →
  cut_inv s ∧ chain_invariant (the_graph s) ∧
  (∀ n, has_node (the_graph s) n → NoDup (wires n)).
Proof.
  induction 1 as [tape next s Hwf Hrun|nd s r s' _ IH Hrun|s r s' _ IH Hrun].
  - by eapply tape_to_graph_bundle.
  - destruct IH as (? & ? & ?). by eapply replace_wire_cut_node_bundle.
  - destruct IH as (? & ? & ?). by eapply replace_each_bundle.
Qed.

(** X8.  Every graph of a build-then-rewrite sequence satisfies the chain
    invariant: the graph built from a well-formed tape does, and the two
    rewriting functions keep it, whatever their outcome and whichever
    node [replace_wire_cut_node] is called on. *)
Theorem produced_chain_invariant s :
  produced s → chain_invariant (the_graph s).
Proof. intros H. by apply produced_bundle in H as (_ & ? & _). Qed.

Lemma produced_chain_invariant_witness :
  produced ex_cut ∧ chain_invariant (the_graph ex_cut).
Proof.
  assert (H : produced ex_cut).
  { apply (produced_all ex_built (Ok tt) ex_cut); [|vm_compute; reflexivity].
    apply (produced_build ex_tape 5 ex_built); [|vm_compute; reflexivity].
    apply wf_tape_intro; by_evaluation. }
  exact (conj H (produced_chain_invariant ex_cut H)).
Defined.

(** * More on [tape_to_graph] *)

(** ** When the builder raises *)

Lemma link_wire_outcome op g wl w :
  match wl !! w with
  | Some _ => ∃ g', link_wire op (g, wl) w = Ok (g', <[w := Some op]> wl)
                    ∧ g_nodes g' = g_nodes g ++ drop (length (g_nodes g)) (g_nodes g')
  | None => link_wire op (g, wl) w = Raise KeyError
  end.
Proof.
  unfold link_wire. destruct (wl !! w) as [latest|]; [|done].
  eexists. split; [done|]. destruct latest as [p|].
  - destruct (add_edge_extends p op w g) as (ns' & -> & _). cbn [g_nodes].
    by rewrite drop_app_length.
  - by rewrite drop_all, app_nil_r.
Qed.

Lemma insert_present_dom (wl : gmap wire (option node)) w x w' :
  is_Some (wl !! w) → is_Some (<[w := x]> wl !! w') ↔ is_Some (wl !! w').
Proof.
  intros Hw. destruct (decide (w = w')) as [<-|Hne].
  - rewrite lookup_insert_eq. split; [done | by eexists].
  - by rewrite lookup_insert_ne.
Qed.

Lemma link_wires_covered op ws g wl :
  (∀ w, w ∈ ws → is_Some (wl !! w)) →
  ∃ g' wl', foldM (link_wire op) (g, wl) ws = Ok (g', wl') ∧
            ∀ w, is_Some (wl' !! w) ↔ is_Some (wl !! w).
Proof.
  revert g wl. induction ws as [|w ws IH]; intros g wl Hcov.
  - by exists g, wl.
  - cbn [foldM]. pose proof (link_wire_outcome op g wl w) as Hstep.
    destruct (Hcov w (list_elem_of_here _ _)) as [x Hx]. rewrite Hx in Hstep.
    destruct Hstep as (g1 & -> & _). rewrite bind_Ok.
    destruct (IH g1 (<[w := Some op]> wl)) as (g' & wl' & Hrun & Hdom).
    + intros w' Hw'. apply insert_present_dom; [by eexists|].
      by apply Hcov, list_elem_of_further.
    + exists g', wl'. split; [done|]. intros w'. rewrite Hdom.
      apply insert_present_dom. by eexists.
Qed.

Lemma link_wires_missing op ws g wl :
  (∃ w, w ∈ ws ∧ wl !! w = None) →
  foldM (link_wire op) (g, wl) ws = Raise KeyError.
Proof.
  revert g wl. induction ws as [|w ws IH]; intros g wl (w' & Hw' & Hnone).
  - by apply elem_of_nil in Hw'.
  - cbn [foldM]. pose proof (link_wire_outcome op g wl w) as Hstep.
    destruct (wl !! w) as [x|] eqn:Hx; [|by rewrite Hstep].
    destruct Hstep as (g1 & -> & _). rewrite bind_Ok. apply IH.
    apply elem_of_cons in Hw' as [->|Hw']; [congruence|].
    exists w'. split; [done|]. rewrite lookup_insert_ne; [done|].
    intros ->. congruence.
Qed.

Lemma build_covered calls g wl :
  (∀ call w, call ∈ calls → w ∈ wires call.1 → is_Some (wl !! w)) →
  ∃ st, build (g, wl) calls = Ok st.
Proof.
  revert g wl. induction calls as [|[op o] calls IH]; intros g wl Hcov.
  - by eexists.
  - unfold build. cbn [foldM fst snd]. unfold _add_operator_node.
    destruct (link_wires_covered op (wires op) (add_node op o g) wl)
      as (g1 & wl1 & -> & Hdom).
    { intros w Hw. apply (Hcov (op, o)); [apply list_elem_of_here | done]. }
    rewrite bind_Ok. apply IH. intros call w Hcall Hw. apply Hdom.
    apply (Hcov call); [by apply list_elem_of_further | done].
Qed.

Lemma build_missing calls g wl :
  (∃ call w, call ∈ calls ∧ w ∈ wires call.1 ∧ wl !! w = None) →
  build (g, wl) calls = Raise KeyError.
Proof.
  revert g wl. induction calls as [|[op o] calls IH];
    intros g wl (call & w & Hcall & Hw & Hnone).
  - by apply elem_of_nil in Hcall.
  - unfold build. cbn [foldM fst snd]. unfold _add_operator_node.
    destruct (decide (Exists (λ w', wl !! w' = None) (wires op))) as [Hmiss|Hcov];
      rewrite Exists_exists in *.
    + by rewrite link_wires_missing.
    + destruct (link_wires_covered op (wires op) (add_node op o g) wl)
        as (g1 & wl1 & -> & Hdom).
      { intros w' Hw'. destruct (wl !! w') eqn:E; [by eexists|].
        destruct Hcov. by exists w'. }
      rewrite bind_Ok. apply IH.
      apply elem_of_cons in Hcall as [->|Hcall].
      { destruct Hcov. by exists w. }
      exists call, w. split_and!; try done.
      destruct (wl1 !! w) eqn:E; [|done].
      assert (is_Some (wl !! w)) as [? ?] by (apply Hdom; by eexists). congruence.
Qed.

Lemma plain_nodes_elem ms n :
  n ∈ plain_nodes ms ↔ ∃ m, m ∈ ms ∧ m_terms m = None ∧ n = m_node m.
Proof.
  unfold plain_nodes. rewrite list_elem_of_omap. split.
  - intros (m & Hm & Hn). exists m. destruct (m_terms m); [done|].
    injection Hn as <-. done.
  - intros (m & Hm & Hnone & ->). exists m. by rewrite Hnone.
Qed.

Lemma scheduled_wire_used tape next w :
  (∃ call, call ∈ schedule tape next ∧ w ∈ wires call.1) ↔ wire_used tape w.
Proof.
  split.
  - intros ([n o] & Hcall & Hw). cbn [fst] in Hw.
    assert (Hn : n ∈ (schedule tape next).*1)
      by (apply list_elem_of_fmap; by exists (n, o)).
    rewrite schedule_nodes, elem_of_app in Hn. destruct Hn as [Hn|Hn].
    + left. exists n. split; [|done]. unfold tape_nodes. rewrite elem_of_app. by left.
    + apply measurement_schedule_elem in Hn as [Hn|(m & obs & t & ? & ? & ? & <- & _)].
      * left. exists n. split; [|done]. unfold tape_nodes. rewrite elem_of_app. by right.
      * right. by exists m, obs, (wires n).
  - intros [(n & Hn & Hw)|(m & obs & t & Hm & Hobs & Ht & Hw)].
    + unfold tape_nodes in Hn. rewrite elem_of_app in Hn. destruct Hn as [Hn|Hn].
      * apply list_elem_of_lookup in Hn as [i Hi].
        exists (n, Z.of_nat i). split; [by apply operation_scheduled | done].
      * apply plain_nodes_elem in Hn as (m & Hm & Hnone & ->).
        apply list_elem_of_split in Hm as (pre & post & Hms).
        eexists (m_node m, _). split; [|done].
        apply (measurement_nodes_scheduled tape next pre m post _ Hms).
        unfold measurement_nodes. rewrite Hnone. apply list_elem_of_here.
    + apply list_elem_of_split in Hm as (pre & post & Hms).
      apply list_elem_of_lookup in Ht as [j Hj].
      eexists (Node (next + allocated pre + j) MeasurementProcess t, _).
      split; [|done].
      apply (measurement_nodes_scheduled tape next pre m post _ Hms).
      unfold measurement_nodes. rewrite Hobs. apply term_nodes_elem. by exists j, t.
Qed.

Lemma initial_latest_missing tape w :
  w ∉ tape_wires tape → initial_latest tape !! w = None.
Proof.
  intros Hw. unfold initial_latest. apply not_elem_of_list_to_map.
  rewrite <- list_fmap_compose. intros Hin.
  apply list_elem_of_fmap in Hin as (w' & -> & Hin). done.
Qed.

(** X9.  On a tape with at least one operation, [tape_to_graph] returns a
    graph when every wire its nodes act on is a wire of the tape, and it
    raises a key error, from the lookup in [wire_latest_node], when some
    node acts on a wire that is not; distinctness of the operators plays
    no part in this. *)
Theorem tape_to_graph_outcome tape next :
  operations tape ≠ [] →
  ((∀ w, wire_used tape w → w ∈ tape_wires tape) →
   ∃ s, tape_to_graph tape next = Ok s) ∧
  ((∃ w, wire_used tape w ∧ w ∉ tape_wires tape) →
   tape_to_graph tape next = Raise KeyError).
Proof.
  intros Hne. rewrite (tape_to_graph_schedule _ _ Hne). split.
  - intros Hcov.
    destruct (build_covered (schedule tape next) empty_graph (initial_latest tape))
      as [st ->]; [|by eexists].
    intros call w Hcall Hw. rewrite initial_latest_lookup; [by eexists|].
    apply Hcov, (scheduled_wire_used tape next). by exists call.
  - intros (w & Hused & Hw).
    apply (scheduled_wire_used tape next) in Hused as (call & Hcall & Hw').
    rewrite build_missing; [done|]. exists call, w. split_and!; try done.
    by apply initial_latest_missing.
Qed.

Lemma tape_to_graph_outcome_witness :
  operations ex_tape ≠ [] ∧
  ((∀ w, wire_used ex_tape w → w ∈ tape_wires ex_tape) →
   ∃ s, tape_to_graph ex_tape 5 = Ok s) ∧
  ((∃ w, wire_used ex_tape w ∧ w ∉ tape_wires ex_tape) →
   tape_to_graph ex_tape 5 = Raise KeyError).
Proof.
  assert (H : operations ex_tape ≠ []) by (simpl; discriminate).
  exact (conj H (tape_to_graph_outcome ex_tape 5 H)).
Defined.

(** A tape whose operation acts on a wire that the tape does not list. *)
Example tape_to_graph_unlisted_wire :
  tape_to_graph (Tape [0%nat] [Node 0 Operation [0%nat; 1%nat]] []) 1 =
  Raise KeyError.
Proof. reflexivity. Qed.

(** ** Edges join nodes that share the wire *)

Lemma foldM_invariant {A B : Type} (f : A → B → result A) (I : A → Prop) l a a' :
  (∀ x b b', x ∈ l → I b → f b x = Ok b' → I b') →
  I a → foldM f a l = Ok a' → I a'.
Proof.
  revert a. induction l as [|x l IH]; intros a Hstep Ha; cbn [foldM].
  - by intros [= <-].
  - destruct (f a x) as [b|e] eqn:E; [|done]. rewrite bind_Ok. apply IH.
    + intros y b1 b2 Hy. apply Hstep. by apply list_elem_of_further.
    + eapply Hstep; [apply list_elem_of_here | done..].
Qed.

Lemma add_node_edges n o g : g_edges (add_node n o g) = g_edges g.
Proof. unfold add_node. by destruct (decide (has_node g n)). Qed.

Lemma link_wire_labels op (st st' : MultiDiGraph * gmap wire (option node)) w :
  w ∈ wires op →
  (∀ e, e ∈ g_edges st.1 → e_wire e ∈ wires (e_src e) ∧ e_wire e ∈ wires (e_dst e)) ∧
  (∀ w n, st.2 !! w = Some (Some n) → w ∈ wires n) →
  link_wire op st w = Ok st' →
  (∀ e, e ∈ g_edges st'.1 → e_wire e ∈ wires (e_src e) ∧ e_wire e ∈ wires (e_dst e)) ∧
  (∀ w n, st'.2 !! w = Some (Some n) → w ∈ wires n).
Proof.
  destruct st as [g wl]. intros Hw [He Hl]. unfold link_wire. cbn [fst snd] in *.
  destruct (wl !! w) as [latest|] eqn:E; [|done]. intros [= <-]. cbn [fst snd].
  split.
  - destruct latest as [p|]; [|done]. unfold add_edge. cbn [g_edges].
    intros e. rewrite elem_of_app, list_elem_of_singleton.
    intros [?| ->]; [auto|]. cbn [e_src e_dst e_wire]. split; [by apply Hl | done].
  - intros w' n. destruct (decide (w = w')) as [<-|Hne].
    + rewrite lookup_insert_eq. by intros [= <-].
    + rewrite lookup_insert_ne by done. apply Hl.
Qed.

Lemma build_labels calls (st st' : MultiDiGraph * gmap wire (option node)) :
  (∀ e, e ∈ g_edges st.1 → e_wire e ∈ wires (e_src e) ∧ e_wire e ∈ wires (e_dst e)) ∧
  (∀ w n, st.2 !! w = Some (Some n) → w ∈ wires n) →
  build st calls = Ok st' →
  (∀ e, e ∈ g_edges st'.1 → e_wire e ∈ wires (e_src e) ∧ e_wire e ∈ wires (e_dst e)) ∧
  (∀ w n, st'.2 !! w = Some (Some n) → w ∈ wires n).
Proof.
  intros Hst. unfold build.
  apply (foldM_invariant _ (λ st : MultiDiGraph * gmap wire (option node),
    (∀ e, e ∈ g_edges st.1 → e_wire e ∈ wires (e_src e) ∧ e_wire e ∈ wires (e_dst e)) ∧
    (∀ w n, st.2 !! w = Some (Some n) → w ∈ wires n))); [|done].
  intros [op o] [g wl] st1 _ Hinv. cbn [fst snd]. unfold _add_operator_node.
  apply (foldM_invariant _ (λ st : MultiDiGraph * gmap wire (option node),
    (∀ e, e ∈ g_edges st.1 → e_wire e ∈ wires (e_src e) ∧ e_wire e ∈ wires (e_dst e)) ∧
    (∀ w n, st.2 !! w = Some (Some n) → w ∈ wires n))).
  - intros w b b' Hw Hb. by apply link_wire_labels.
  - cbn [fst snd] in *. by rewrite add_node_edges.
Qed.

(** X10.  Whatever the tape, in a graph returned by [tape_to_graph] an edge
    labelled [w] joins two nodes that both act on [w]; so a node without
    wires has no edge. *)
Theorem tape_to_graph_labels tape next s :
  tape_to_graph tape next = Ok s →
  ∀ u v w, Edge u v w ∈ g_edges (the_graph s) → w ∈ wires u ∧ w ∈ wires v.
Proof.
  intros Hrun u v w He.
  rewrite (tape_to_graph_schedule _ _ (tape_to_graph_Ok_operations _ _ _ Hrun)) in Hrun.
  destruct (build _ _) as [st|e] eqn:E; [|done]. injection Hrun as <-.
  apply build_labels in E as [Hlab _].
  - by apply (Hlab _ He).
  - cbn [fst snd empty_graph g_edges]. split.
    + intros e He'. by apply elem_of_nil in He'.
    + intros w' n H. by apply initial_latest_None in H.
Qed.

Lemma tape_to_graph_labels_witness :
  tape_to_graph ex_tape 5 = Ok ex_built ∧
  ∀ u v w, Edge u v w ∈ g_edges (the_graph ex_built) → w ∈ wires u ∧ w ∈ wires v.
Proof.
  assert (H : tape_to_graph ex_tape 5 = Ok ex_built) by (vm_compute; reflexivity).
  exact (conj H (tape_to_graph_labels ex_tape 5 ex_built H)).
Defined.

(** X11.  In the graph built from a well-formed tape there is an edge labelled
    [w] from [u] to [v] exactly when, in the order in which the nodes were
    added, [v] is the next node after [u] that acts on [w]. *)
Theorem tape_to_graph_edges tape next s :
  wf_tape tape next → tape_to_graph tape next = Ok s →
  ∀ u v w, Edge u v w ∈ g_edges (the_graph s) ↔
           next_on w (g_nodes (the_graph s)).*1 u v.
Proof.
  intros Hwf Hrun.
  rewrite (tape_to_graph_schedule _ _ (tape_to_graph_Ok_operations _ _ _ Hrun)) in Hrun.
  destruct (build _ _) as [st|e] eqn:E; [|done]. injection Hrun as <-.
  cbn [the_graph].
  apply (build_next_on (initial_latest tape) (schedule tape next)
           (empty_graph, initial_latest tape)); cbn [fst snd empty_graph g_nodes g_edges];
    try done.
  - intros w x Hx. apply initial_latest_None in Hx as ->.
    intros n Hn. by apply elem_of_nil in Hn.
  - intros u v w. split.
    + intros H. by apply elem_of_nil in H.
    + intros (i & j & _ & Hi & _). done.
  - by apply schedule_nodup.
  - by apply schedule_wires.
Qed.

Lemma tape_to_graph_edges_witness :
  (wf_tape ex_tape 5 ∧ tape_to_graph ex_tape 5 = Ok ex_built) ∧
  ∀ u v w, Edge u v w ∈ g_edges (the_graph ex_built) ↔
           next_on w (g_nodes (the_graph ex_built)).*1 u v.
Proof.
  assert (H1 : wf_tape ex_tape 5) by (apply wf_tape_intro; by_evaluation).
  assert (H2 : tape_to_graph ex_tape 5 = Ok ex_built) by (vm_compute; reflexivity).
  exact (conj (conj H1 H2) (tape_to_graph_edges ex_tape 5 ex_built H1 H2)).
Defined.

(** ** The nodes of the built graph *)

Lemma measurement_schedule_nodes ms c next :
  (measurement_schedule ms c next).*1 = measurement_node_list ms next.
Proof.
  revert c next. induction ms as [|m ms IH]; intros c next; [done|].
  cbn [measurement_schedule measurement_node_list]. unfold measurement_nodes.
  destruct (m_terms m) as [obs|].
  - by rewrite fmap_app, fmap_pair_fst, IH.
  - rewrite fmap_cons, IH, Nat.add_0_r. done.
Qed.

Lemma measurement_node_list_length ms next :
  length (measurement_node_list ms next) =
  sum_list ((λ m, match m_terms m with Some obs => length obs | None => 1%nat end)
              <$> ms).
Proof.
  revert next. induction ms as [|m ms IH]; intros next; [done|].
  cbn [measurement_node_list]. rewrite length_app, IH, fmap_cons. cbn [sum_list].
  unfold measurement_nodes. destruct (m_terms m) as [obs|]; [|done].
  unfold term_nodes. by rewrite length_imap.
Qed.

(** X12.  On a well-formed tape with at least one operation, the nodes of the
    built graph are, in the order in which they were added and without
    repetition, the operations of the tape followed by the nodes of its
    measurements: the measurement itself, or, for a tensor observable,
    one new object per term.  A tensor of [k] terms thus counts for [k]
    nodes and any other measurement for one. *)
Theorem tape_to_graph_nodes tape next :
  wf_tape tape next → operations tape ≠ [] →
  ∃ s, tape_to_graph tape next = Ok s ∧
    (g_nodes (the_graph s)).*1 =
      operations tape ++ measurement_node_list (measurements tape) next ∧
    NoDup (g_nodes (the_graph s)).*1 ∧
    length (g_nodes (the_graph s)) =
      (length (operations tape) +
       sum_list ((λ m, match m_terms m with
                       | Some obs => length obs
                       | None => 1%nat
                       end) <$> measurements tape))%nat.
Proof.
  intros Hwf Hne.
  destruct (tape_to_graph_built tape next Hwf Hne) as (g & wl & c & Hrun & Hinv & Hnodes).
  eexists. split; [exact Hrun|]. cbn [the_graph].
  assert (Hfst : (g_nodes g).*1 =
            operations tape ++ measurement_node_list (measurements tape) next).
  { rewrite Hnodes, <- list_fmap_compose.
    rewrite <- measurement_schedule_nodes
      with (c := Z.of_nat (length (operations tape))).
    rewrite <- schedule_nodes. done. }
  split_and!; [done | apply (wf_nodup _ (bi_wf _ _ _ Hinv)) |].
  rewrite <- (length_fmap fst), Hfst, length_app, measurement_node_list_length. done.
Qed.

Lemma tape_to_graph_nodes_witness :
  (wf_tape ex_tape 5 ∧ operations ex_tape ≠ []) ∧
  ∃ s, tape_to_graph ex_tape 5 = Ok s ∧
    (g_nodes (the_graph s)).*1 =
      operations ex_tape ++ measurement_node_list (measurements ex_tape) 5 ∧
    NoDup (g_nodes (the_graph s)).*1 ∧
    length (g_nodes (the_graph s)) =
      (length (operations ex_tape) +
       sum_list ((λ m, match m_terms m with
                       | Some obs => length obs
                       | None => 1%nat
                       end) <$> measurements ex_tape))%nat.
Proof.
  assert (H1 : wf_tape ex_tape 5) by (apply wf_tape_intro; by_evaluation).
  assert (H2 : operations ex_tape ≠ []) by (simpl; discriminate).
  exact (conj (conj H1 H2) (tape_to_graph_nodes ex_tape 5 H1 H2)).
Defined.

(** * Counting after the batch, and the two steps together *)

(** X7.  On a store that satisfies the invariants, [replace_wire_cut_nodes]
    removes each [WireCut] node and adds two nodes per wire of each: with
    [cuts] the [WireCut] nodes of the graph, the node count goes from [n]
    to [n - length cuts + 2 * (total number of wires of the cuts)]. *)
Theorem replace_wire_cut_nodes_count s :
  cut_inv s →
  let cuts := filter (λ n, is_wire_cut n = true) (g_nodes (the_graph s)).*1 in
  ∃ s', replace_wire_cut_nodes s = (Ok tt, s') ∧
    (length (g_nodes (the_graph s')) + length cuts =
     length (g_nodes (the_graph s)) + 2 * sum_list (length ∘ wires <$> cuts))%nat.
Proof.
  intros Hinv cuts. unfold replace_wire_cut_nodes.
  destruct (replace_each_total (g_nodes (the_graph s)).*1 s Hinv)
    as (s' & Hrun & _ & _ & _ & _ & _ & Hcount).
  { apply (wf_nodup _ (ci_wf _ Hinv)). }
  { auto. }
  by exists s'.
Qed.

Lemma replace_wire_cut_nodes_count_witness :
  cut_inv ex_built ∧
  let cuts := filter (λ n, is_wire_cut n = true) (g_nodes (the_graph ex_built)).*1 in
  ∃ s', replace_wire_cut_nodes ex_built = (Ok tt, s') ∧
    (length (g_nodes (the_graph s')) + length cuts =
     length (g_nodes (the_graph ex_built)) +
       2 * sum_list (length ∘ wires <$> cuts))%nat.
Proof.
  exact (conj ex_built_inv (replace_wire_cut_nodes_count ex_built ex_built_inv)).
Defined.

(** X13.  Building and then cutting: on a well-formed tape with at least one
    operation, [tape_to_graph] followed by [replace_wire_cut_nodes] runs
    without raising and ends in a graph that has no [WireCut] node,
    satisfies the chain invariant, and whose orders do not decrease along
    an edge. *)
Theorem build_then_cut tape next :
  wf_tape tape next → operations tape ≠ [] →
  ∃ s s',
    tape_to_graph tape next = Ok s ∧
    replace_wire_cut_nodes s = (Ok tt, s') ∧
    (∀ n, has_node (the_graph s') n → class_of n ≠ WireCut) ∧
    chain_invariant (the_graph s') ∧
    order_monotone (the_graph s').
Proof.
  intros Hwf Hne.
  destruct (tape_to_graph_built tape next Hwf Hne) as (g & _ & _ & Hrun & _).
  destruct (tape_to_graph_bundle _ _ _ Hwf Hrun) as (Hinv & Hc & Hw).
  unfold replace_wire_cut_nodes.
  destruct (replace_each_total _ _ Hinv (wf_nodup _ (ci_wf _ Hinv)))
    as (s' & Hrun' & _ & _ & Hnew & _); [auto|].
  destruct (replace_each_bundle _ _ _ _ Hinv Hc Hw Hrun') as (Hinv' & Hc' & _).
  eexists _, s'. split_and!; [exact Hrun | exact Hrun' | | done | apply Hinv'].
  intros n Hn Hcl. destruct (Hnew n Hn) as [[Hn0 Hno]|(_ & [Hc''|Hc''] & _)];
    [|congruence..].
  apply Hno. split; [done|]. unfold is_wire_cut. by apply bool_decide_eq_true.
Qed.

Lemma build_then_cut_witness :
  (wf_tape ex_tape 5 ∧ operations ex_tape ≠ []) ∧
  ∃ s s',
    tape_to_graph ex_tape 5 = Ok s ∧
    replace_wire_cut_nodes s = (Ok tt, s') ∧
    (∀ n, has_node (the_graph s') n → class_of n ≠ WireCut) ∧
    chain_invariant (the_graph s') ∧
    order_monotone (the_graph s').
Proof.
  assert (H1 : wf_tape ex_tape 5) by (apply wf_tape_intro; by_evaluation).
  assert (H2 : operations ex_tape ≠ []) by (simpl; discriminate).
  exact (conj (conj H1 H2) (build_then_cut ex_tape 5 H1 H2)).
Defined.

(** * The [SqueezingEmbedding] template *)

Section squeezing.
Import SqueezingEmbedding.
Context {F C T : Type} `{!Stacking F C T}.

Lemma for_range_lookup {A : Type} (body : nat → error + A) (xs : list A) start :
  (∀ i x, xs !! i = Some x → body (start + i)%nat = inr x) →
  for_range body (seq start (length xs)) = inr xs.
Proof.
  revert start. induction xs as [|x xs IH]; intros start Hbody; [reflexivity|].
  cbn [length seq for_range].
  specialize (Hbody 0%nat x eq_refl) as H0.
  rewrite Nat.add_0_r in H0. rewrite H0.
  rewrite IH; [reflexivity|].
  intros i y Hi. specialize (Hbody (S i) y Hi).
  rewrite <- Hbody. f_equal. lia.
Qed.

(** What [expand] queues for an operation with one parameter row per
    wire. *)
Lemma expand_rows (pars : list (T * T)) (ws : list wire) :
  length pars = length ws →
  expand (Op pars ws)
    = inr (zip_with (λ p w, Squeezing p.1 p.2 [w]) pars ws).
Proof.
  intros Hlen. unfold expand. cbn [parameters op_wires].
  set (gates := zip_with (λ p w, Squeezing p.1 p.2 [w]) pars ws).
  assert (Hg : length gates = length ws).
  { unfold gates. rewrite length_zip_with. lia. }
  rewrite <- Hg. apply for_range_lookup.
  intros i g Hi. cbn [Nat.add].
  unfold gates in Hi. apply lookup_zip_with_Some in Hi as (p & w & -> & Hp & Hw).
  rewrite Hp. destruct p as [r phi]. cbn [fst snd].
  do 2 f_equal.
  apply take_drop_middle in Hw. rewrite <- Hw at 1.
  assert (Hl : length (take i ws) = i).
  { rewrite length_take. apply lookup_lt_Some in Hp. lia. }
  rewrite <- Hl at 1. rewrite drop_app_length. reflexivity.
Qed.

(** X14.  What [SqueezingEmbedding.__init__] does with its arguments, for
    distinct wire labels.  It builds the operation exactly when the
    features have shape [(len(wires),)] and the method is ["amplitude"]
    or ["phase"]; the operation then keeps the wires and has one
    parameter row per feature.  Features without any dimension raise
    [IndexError], from [shape[0]], which is evaluated before the check of
    the number of dimensions; every other rejected call raises
    [ValueError]. *)
Theorem squeezing_init_outcome (features : tensor F) (wires : list wire)
    (method : string) (c : C) :
  NoDup wires →
  match __init__ features wires method c with
  | inr op =>
      shape features = [length wires]
      ∧ (method = "amplitude" ∨ method = "phase")
      ∧ op_wires op = wires
      ∧ length (parameters op)
          = Nat.min (length (entries features)) (length wires)
  | inl IndexError => shape features = []
  | inl ValueError =>
      shape features ≠ []
      ∧ (shape features ≠ [length wires]
         ∨ (method ≠ "amplitude" ∧ method ≠ "phase"))
  end.
Proof.
  intros _. unfold __init__.
  destruct (shape features) as [|n rest] eqn:Es; [reflexivity|].
  destruct (decide (length (n :: rest) ≠ 1%nat)) as [Hd|Hd].
  { split; [discriminate|]. left. intros [= -> ->]. apply Hd. reflexivity. }
  destruct rest as [|? ?]; [|exfalso; apply Hd; cbn; lia].
  destruct (decide (n ≠ length wires)) as [Hn|Hn].
  { split; [discriminate|]. left. intros [= ->]. apply Hn. reflexivity. }
  apply dec_stable in Hn. subst n.
  destruct (decide (method = "amplitude")) as [Ha|Ha].
  { cbn [op_wires parameters]. split_and!; [reflexivity|left; exact Ha|reflexivity|].
    unfold stack. rewrite length_zip, !length_fmap, length_replicate. reflexivity. }
  destruct (decide (method = "phase")) as [Hp|Hp].
  { cbn [op_wires parameters]. split_and!; [reflexivity|right; exact Hp|reflexivity|].
    unfold stack. rewrite length_zip, !length_fmap, length_replicate. lia. }
  split; [discriminate|]. right. split; assumption.
Qed.

(** X15.  [expand] after [__init__].  For a one-dimensional tensor of
    features with one entry per wire, distinct wire labels and a
    recognised method, [__init__] builds the operation and [expand]
    queues, without raising, one [Squeezing] gate per wire in the order
    of the wires.  The gate on wire [i] carries row [i] of the stacked
    parameters: feature [i] and the constant for ["amplitude"], the
    constant and feature [i] for ["phase"], each as [qml.math] stored it
    in the stacked array, which need not be the value that was passed
    in. *)
Theorem squeezing_expand_gates (features : tensor F) (wires : list wire)
    (method : string) (c : C) :
  shape features = [length (entries features)] →
  length (entries features) = length wires →
  NoDup wires →
  method = "amplitude" ∨ method = "phase" →
  ∃ op,
    __init__ features wires method c = inr op
    ∧ expand op
        = inr (zip_with
                 (λ x w, if decide (method = "amplitude")
                         then Squeezing (of_feature x) (of_constant c) [w]
                         else Squeezing (of_constant c) (of_feature x) [w])
                 (entries features) wires).
Proof.
  intros Hshape Hlen _ Hmethod. unfold __init__. rewrite Hshape.
  rewrite decide_False by (intros H; apply H; reflexivity).
  rewrite decide_False by (intros H; apply H; exact Hlen).
  assert (Hzip : ∀ (f : F → wire → gate T) (g : T * T → wire → gate T)
                   (ps : list (T * T)),
             length ps = length wires →
             (∀ i p, ps !! i = Some p →
                ∃ x, entries features !! i = Some x ∧ ∀ w, g p w = f x w) →
             zip_with g ps wires = zip_with f (entries features) wires).
  { intros f g ps Hps Hrow. apply list_eq. intros i.
    rewrite !lookup_zip_with.
    destruct (ps !! i) as [p|] eqn:Ep.
    - destruct (Hrow i p Ep) as (x & -> & Hfg). cbn.
      destruct (wires !! i); cbn; [rewrite Hfg|]; reflexivity.
    - apply lookup_ge_None in Ep.
      assert (Ew : wires !! i = None) by (apply lookup_ge_None; lia).
      cbn. rewrite Ew. destruct (entries features !! i); reflexivity. }
  assert (Hrows : ∀ a b : list T,
             length a = length wires → length b = length wires →
             length (stack a b) = length wires).
  { intros a b Ha Hb. unfold stack. rewrite length_zip. lia. }
  assert (Hfeat : length (of_feature <$> entries features) = length wires)
    by (rewrite length_fmap; exact Hlen).
  assert (Hconst : length (of_constant <$> replicate (length (entries features)) c)
                   = length wires)
    by (rewrite length_fmap, length_replicate; exact Hlen).
  destruct (decide (method = "amplitude")) as [Ha|Ha].
  - eexists. split; [reflexivity|].
    rewrite expand_rows by (apply Hrows; assumption).
    f_equal. apply Hzip; [apply Hrows; assumption|].
    intros i [x y] Hi. apply lookup_zip_Some in Hi as [Hx Hy].
    rewrite list_lookup_fmap in Hx. rewrite list_lookup_fmap in Hy.
    destruct (entries features !! i) as [x0|]; [|discriminate].
    injection Hx as <-.
    destruct (replicate _ c !! i) as [c0|] eqn:Ec; [|discriminate].
    apply lookup_replicate in Ec as [-> _]. injection Hy as <-.
    exists x0. split; reflexivity.
  - destruct Hmethod as [?|Hp]; [contradiction|].
    rewrite decide_True by exact Hp.
    eexists. split; [reflexivity|].
    rewrite expand_rows by (apply Hrows; assumption).
    f_equal. apply Hzip; [apply Hrows; assumption|].
    intros i [x y] Hi. apply lookup_zip_Some in Hi as [Hx Hy].
    rewrite list_lookup_fmap in Hx. rewrite list_lookup_fmap in Hy.
    destruct (entries features !! i) as [y0|]; [|discriminate].
    injection Hy as <-.
    destruct (replicate _ c !! i) as [c0|] eqn:Ec; [|discriminate].
    apply lookup_replicate in Ec as [-> _]. injection Hx as <-.
    exists y0. split; reflexivity.
Qed.

End squeezing.

Section squeezing_witnesses.
Import SqueezingEmbedding.

Lemma squeezing_init_outcome_witness :
  NoDup [0%nat; 1%nat]
  ∧ match __init__ (Tensor [2%nat] [5%nat; 7%nat])
            [0%nat; 1%nat] "amplitude" 1 with
    | inr op =>
        shape (Tensor [2%nat] [5%nat; 7%nat]) = [length [0%nat; 1%nat]]
        ∧ ("amplitude" = "amplitude" ∨ "amplitude" = "phase")
        ∧ op_wires op = [0%nat; 1%nat]
        ∧ length (parameters op)
            = Nat.min (length (entries (Tensor [2%nat] [5%nat; 7%nat])))
                      (length [0%nat; 1%nat])
    | inl IndexError => shape (Tensor [2%nat] [5%nat; 7%nat]) = []
    | inl ValueError =>
        shape (Tensor [2%nat] [5%nat; 7%nat]) ≠ []
        ∧ (shape (Tensor [2%nat] [5%nat; 7%nat]) ≠ [length [0%nat; 1%nat]]
           ∨ ("amplitude" ≠ "amplitude" ∧ "amplitude" ≠ "phase"))
    end.
Proof.
  assert (H1 : NoDup [0%nat; 1%nat]) by by_evaluation.
  split; [exact H1|].
  exact (squeezing_init_outcome (Tensor [2%nat] [5%nat; 7%nat]) [0%nat; 1%nat] "amplitude" 1 H1).
Defined.

Lemma squeezing_expand_gates_witness :
  (shape (Tensor [2%nat] [5%nat; 7%nat])
     = [length (entries (Tensor [2%nat] [5%nat; 7%nat]))]
   ∧ length (entries (Tensor [2%nat] [5%nat; 7%nat])) = length [3%nat; 4%nat]
   ∧ NoDup [3%nat; 4%nat]
   ∧ ("phase" = "amplitude" ∨ "phase" = "phase"))
  ∧ ∃ op,
      __init__ (Tensor [2%nat] [5%nat; 7%nat])
        [3%nat; 4%nat] "phase" 1 = inr op
      ∧ expand op
          = inr (zip_with
                   (λ x w, if decide ("phase" = "amplitude")
                           then Squeezing (of_feature x) (of_constant 1) [w]
                           else Squeezing (of_constant 1) (of_feature x) [w])
                   (entries (Tensor [2%nat] [5%nat; 7%nat])) [3%nat; 4%nat]).
Proof.
  assert (H1 : shape (Tensor [2%nat] [5%nat; 7%nat])
               = [length (entries (Tensor [2%nat] [5%nat; 7%nat]))])
    by reflexivity.
  assert (H2 : length (entries (Tensor [2%nat] [5%nat; 7%nat]))
               = length [3%nat; 4%nat]) by reflexivity.
  assert (H3 : NoDup [3%nat; 4%nat]) by by_evaluation.
  assert (H4 : "phase" = "amplitude" ∨ "phase" = "phase")
    by (right; reflexivity).
  split; [split_and!; assumption|].
  exact (squeezing_expand_gates (Tensor [2%nat] [5%nat; 7%nat]) [3%nat; 4%nat] "phase" 1
           H1 H2 H3 H4).
Defined.

End squeezing_witnesses.
